(** * npmrm: the scan / measure / delete engine of [bin/npmrm.js]

  The development follows the source file top-down:
  - [runParallel], the bounded executor, as a pool of workers stepping
    under an arbitrary cooperative schedule;
  - [findNodeModules], the level-synchronous locator;
  - [getDirSizeBytes], the size accumulator;
  - the orchestrator's row handling ([totalBytes], the descending sort)
    and its deletion phase ([removeDir], [deleteTasks]).

  The file system is an oracle of the [node:fs/promises] calls the
  source makes; paths are lists of segments, [path.join dir name] being
  [dir ++ [name]]. *)

From Stdlib Require Import NArith ZArith Lia Sorted Permutation.
From stdpp Require Import base tactics option list strings.

Set Default Proof Using "Type".

(** ** 1. The bounded parallel executor *)

Section Executor.
Context {St R E : Type}.

(** A promise under evaluation.  [Await upd k] is suspended at an
    [await]; when the awaited operation settles the continuation runs
    without interruption up to the next suspension: it reads the shared
    state [s], leaves it as [upd s] and goes on as [k s].  The type is
    inductive: a task settles after finitely many resumptions, and a
    task that never settles is not among the tasks considered. *)
Inductive promise : Type :=
| Ret (v : R)
| Throw (e : E)
| Await (upd : St → St) (k : St → promise).

(** [tasks[i]]: a zero-argument async function.  Calling it runs its
    synchronous prefix on the shared state and hands back the promise. *)
Abbreviation task := (St → St * promise).

(** One cell of [results]: [new Array(n)] starts with holes; the worker
    stores the awaited value, or [{ error: e }] from its [catch]. *)
Inductive slot : Type :=
| Hole
| Value (v : R)
| Caught (e : E).

(** A worker is suspended at [await tasks[currentIndex]()] or has left
    its [while] loop. *)
Inductive wstate : Type :=
| Busy (currentIndex : nat) (p : promise)
| Exited.

(** What has become of a task so far. *)
Inductive progress : Type :=
| Waiting
| Running (p : promise)
| Done (x : slot).

(** The closure state of one [runParallel] call: the shared state the
    tasks act on, [index], [results] and the worker promises.  The last
    three fields are history variables that no transition reads: the
    order in which tasks were invoked, the order in which they settled,
    and the progress of every task. *)
Record pool : Type := Pool {
  store : St;
  index : nat;
  results : list slot;
  workers : list wstate;
  started : list nat;
  settled : list (nat * slot);
  track : list progress
}.

Variable tasks : list task.

(** The loop head of [worker]:
    [while (index < tasks.length) { const currentIndex = index++; ... await tasks[currentIndex]() ]. *)
Definition loopHead (p : pool) : pool * wstate :=
  match tasks !! index p with
  | Some t =>
      let '(s, pr) := t (store p) in
      (Pool s (S (index p)) (results p) (workers p)
            (started p ++ [index p]) (settled p)
            (<[index p := Running pr]> (track p)),
       Busy (index p) pr)
  | None => (p, Exited)
  end.

Definition setWorkers (ws : list wstate) (p : pool) : pool :=
  Pool (store p) (index p) (results p) ws (started p) (settled p) (track p).

(** [() => worker()] inside [Array.from]: a new worker runs up to its
    first [await]. *)
Definition launch (p : pool) : pool :=
  let '(q, w) := loopHead p in setWorkers (workers q ++ [w]) q.

(** [results[currentIndex] = ...] *)
Definition fill (i : nat) (x : slot) (p : pool) : pool :=
  Pool (store p) (index p) (<[i := x]> (results p)) (workers p)
       (started p) (settled p ++ [(i, x)]) (<[i := Done x]> (track p)).

(** Back to the loop head after a task has settled. *)
Definition again (w : nat) (p : pool) : pool :=
  let '(q, ws) := loopHead p in setWorkers (<[w := ws]> (workers q)) q.

(** The continuation of an [await] inside task [i], run by worker [w]. *)
Definition advance (w i : nat) (upd : St → St) (k : St → promise) (p : pool) : pool :=
  Pool (upd (store p)) (index p) (results p)
       (<[w := Busy i (k (store p))]> (workers p)) (started p) (settled p)
       (<[i := Running (k (store p))]> (track p)).

(** The scheduler resumes worker [w]. *)
Definition resume (w : nat) (p : pool) : pool :=
  match workers p !! w with
  | Some (Busy i (Ret v)) => again w (fill i (Value v) p)
  | Some (Busy i (Throw e)) => again w (fill i (Caught e) p)
  | Some (Busy i (Await upd k)) => advance w i upd k p
  | Some Exited | None => p
  end.

Definition exec (sched : list nat) (p : pool) : pool :=
  fold_left (λ q w, resume w q) sched p.

(** [new Array(tasks.length)], [index = 0], then
    [Math.min(concurrency, tasks.length)] workers launched in turn. *)
Definition fresh (s : St) : pool :=
  Pool s 0 (replicate (length tasks) Hole) [] [] []
       (replicate (length tasks) Waiting).

Definition start (concurrency : nat) (s : St) : pool :=
  Nat.iter (Nat.min concurrency (length tasks)) launch (fresh s).

(** Whatever the schedule left unfinished is run worker after worker,
    each resumed until it leaves its loop: [await Promise.all(workers)]
    returns only when all have left.  [finish pr w] resumes [w] until
    the promise [pr] it awaits has settled; a worker takes at most
    [tasks.length] tasks. *)
Fixpoint finish (pr : promise) (w : nat) (p : pool) : pool :=
  match pr with
  | Ret _ | Throw _ => resume w p
  | Await upd k => finish (k (store p)) w (resume w p)
  end.

Fixpoint alone (n : nat) (w : nat) (p : pool) : pool :=
  match n, workers p !! w with
  | S n', Some (Busy i pr) => alone n' w (finish pr w p)
  | _, _ => p
  end.

Definition drain (p : pool) : pool :=
  fold_left (λ q w, alone (S (length tasks)) w q) (seq 0 (length (workers p))) p.

(** [runParallel(tasks, concurrency)] under the schedule [sched]: the
    pool when [Promise.all(workers)] is through, and what the caller
    gets back. *)
Definition runPool (sched : list nat) (concurrency : nat) (s : St) : pool :=
  drain (exec sched (start concurrency s)).

Definition runParallel (sched : list nat) (concurrency : nat) (s : St) : St * list slot :=
  let p := runPool sched concurrency s in
  (store p, results p).

(** Units "currently in flight": invoked and not yet settled. *)
Definition inFlight (p : pool) : nat := length (started p) - length (settled p).

End Executor.

Arguments promise : clear implicits.
Arguments slot : clear implicits.
Arguments wstate : clear implicits.
Arguments pool : clear implicits.
Arguments progress : clear implicits.
Arguments Hole {R E}.
Arguments Value {R E} v.
Arguments Caught {R E} e.
Arguments Ret {St R E} v.
Arguments Throw {St R E} e.

Abbreviation task St R E := (St → St * promise St R E).


(** Vocabulary for the executor's invariant. *)

Section ExecutorShape.
Context {St R E : Type}.
Variable tasks : list (task St R E).

Definition slotOf (g : progress St R E) : slot R E :=
  match g with Done x => x | _ => Hole end.

Definition isBusy (w : wstate St R E) : bool :=
  match w with Busy _ _ => true | Exited => false end.

Definition busyCount (ws : list (wstate St R E)) : nat :=
  length (filter (λ w, isBusy w = true) ws).

(** The shape every pool reached by [runParallel] has. *)
Record wf (p : pool St R E) : Prop := {
  wf_results : results p = slotOf <$> track p;
  wf_track : length (track p) = length tasks;
  wf_index : index p ≤ length tasks;
  wf_started : started p = seq 0 (index p);
  wf_waiting : ∀ i, track p !! i = Some Waiting ↔ index p ≤ i < length tasks;
  wf_busy : ∀ w i pr, workers p !! w = Some (Busy i pr) → track p !! i = Some (Running pr);
  wf_running : ∀ i pr, track p !! i = Some (Running pr) → ∃ w, workers p !! w = Some (Busy i pr);
  wf_owner : ∀ w w' i pr pr',
      workers p !! w = Some (Busy i pr) → workers p !! w' = Some (Busy i pr') → w = w';
  wf_done : ∀ i x, track p !! i = Some (Done x) ↔ (i, x) ∈ settled p;
  wf_filled : ∀ i x, (i, x) ∈ settled p → x ≠ Hole;
  wf_once : NoDup (settled p).*1;
  wf_count : index p = length (settled p) + busyCount (workers p)
}.

(** A worker leaves its loop only once the cursor is exhausted. *)
Definition exhausted (p : pool St R E) : Prop :=
  ∀ w, workers p !! w = Some Exited → index p = length tasks.

Definition sound (p : pool St R E) : Prop := wf p ∧ exhausted p.

(** What a promise may settle to, whatever the state it is resumed in. *)
Inductive settlesIn (Q : slot R E → Prop) : promise St R E → Prop :=
| settles_ret v : Q (Value v) → settlesIn Q (Ret v)
| settles_throw e : Q (Caught e) → settlesIn Q (Throw e)
| settles_await upd k : (∀ s, settlesIn Q (k s)) → settlesIn Q (Await upd k).

(** A promise that never writes to the shared state. *)
Inductive quiet : promise St R E → Prop :=
| quiet_ret v : quiet (Ret v)
| quiet_throw e : quiet (Throw e)
| quiet_await upd k :
    (∀ s, upd s = s) → (∀ s, quiet (k s)) → quiet (Await upd k).

(** [Promise.all(workers)] is fulfilled: no worker is suspended. *)
Definition allExited (p : pool St R E) : Prop :=
  ∀ w ws, workers p !! w = Some ws → ws = Exited.

End ExecutorShape.

(** A demonstration batch on a shared counter: task 0 awaits twice,
    bumping the counter each time, and returns 10; task 1 throws after
    one await; task 2 returns 30 at once. *)
Definition demoTasks : list (task nat nat string) :=
  [ (λ s, (s, Await S (λ _, Await S (λ _, Ret 10))));
    (λ s, (s, Await id (λ _, Throw "boom")));
    (λ s, (s, Ret 30)) ].

Definition demoOutcome (i : nat) (x : slot nat string) : Prop :=
  [Value 10; Caught "boom"; Value 30] !! i = Some x.

(** ** 2. The file system

    [node:fs/promises] as the source uses it.  [None] is a rejected
    promise (ENOENT, EACCES, ENOTDIR, ELOOP, ...). *)

Abbreviation path := (list string).

(** What [fs.Dirent] says an entry is; the three tests of the source are
    exclusive: a symlink to a directory is a symlink. *)
Inductive entKind : Type := RegularFile | Directory | SymbolicLink | Special.

Record Dirent : Type := { name : string; kind : entKind }.

Definition isDirectory (ent : Dirent) : bool :=
  match kind ent with Directory => true | _ => false end.
Definition isSymbolicLink (ent : Dirent) : bool :=
  match kind ent with SymbolicLink => true | _ => false end.
Definition isFile (ent : Dirent) : bool :=
  match kind ent with RegularFile => true | _ => false end.

(** [fs.Stats], the three members the source reads. *)
Record Stats : Type := { statIsDirectory : bool; statIsFile : bool; statSize : N }.

Record FileSystem : Type := {
  readdir : path → option (list Dirent);   (* readdir(dir, { withFileTypes: true }) *)
  realpath : path → option path;
  stat : path → option Stats;              (* follows symlinks *)
  lstat : path → option Stats
}.

Record Error : Type := { code : string; message : string }.

(** How an async function of the source ends: it resolves, it rejects, or
    the model ran out of rounds before it settled. *)
Inductive reply (A : Type) : Type :=
| Resolved (a : A)
| Rejected
| Unsettled.
Arguments Resolved {A} a.
Arguments Rejected {A}.
Arguments Unsettled {A}.

Definition DIR_CONCURRENCY : nat := 128.
Definition STAT_CONCURRENCY : nat := 256.
Definition DELETE_CONCURRENCY : nat := 4.

(** *** Concrete file systems

    A tree of directories, files and symlinks with absolute targets
    gives the four calls by path resolution. *)
#[local] Unset Elimination Schemes.
Inductive tree : Type :=
| File (bytes : N)
| Dir (entries : list (string * tree))
| Link (target : path)
| Socket
| Sealed.   (* a directory without read or search permission *)
#[local] Set Elimination Schemes.

Fixpoint child (entries : list (string * tree)) (seg : string) : option tree :=
  match entries with
  | [] => None
  | (n, t) :: rest => if String.eqb n seg then Some t else child rest seg
  end.

(** Walking real directories only. *)
Fixpoint walk (t : tree) (p : path) : option tree :=
  match p with
  | [] => Some t
  | seg :: rest =>
      match t with
      | Dir entries =>
          match child entries seg with
          | Some t' => walk t' rest
          | None => None
          end
      | _ => None
      end
  end.

(** The canonical path of [p], expanding symlinks as a kernel does.  One
    resolution follows at most [links] symlinks in all, those met one
    after the other along the path and those met inside a target alike,
    and fails beyond (ELOOP).  The result comes with the number of links
    still allowed; [nest] bounds the nesting of expansions. *)
Fixpoint resolve (nest : nat) (root : tree) (links : nat) (p : path)
  : option (path * nat) :=
  match nest with
  | 0 => None
  | S nest' =>
      fold_left
        (λ acc seg,
           match acc with
           | None => None
           | Some (cur, budget) =>
               match walk root (cur ++ [seg]) with
               | Some (Link target) =>
                   match budget with
                   | 0 => None
                   | S budget' => resolve nest' root budget' target
                   end
               | Some _ => Some (cur ++ [seg], budget)
               | None => None
               end
           end)
        p (Some ([], links))
  end.

Arguments resolve : simpl never.

(** An expansion nested [k] deep has followed [k] links, so a nesting bound of
    [links + 1] is never what stops a resolution. *)
Definition canon (links : nat) (root : tree) (p : path) : option path :=
  fst <$> resolve (S links) root links p.

Arguments canon : simpl never.

Definition direntOf (e : string * tree) : Dirent :=
  {| name := e.1;
     kind := match e.2 with
             | File _ => RegularFile
             | Dir _ | Sealed => Directory
             | Link _ => SymbolicLink
             | Socket => Special
             end |}.

Definition statsOf (t : tree) : Stats :=
  match t with
  | File n => {| statIsDirectory := false; statIsFile := true; statSize := n |}
  | Dir _ | Sealed => {| statIsDirectory := true; statIsFile := false; statSize := 4096 |}
  | Link _ | Socket => {| statIsDirectory := false; statIsFile := false; statSize := 0 |}
  end.

Definition MAXSYMLINKS : nat := 40.

Definition treeFS (root : tree) : FileSystem :=
  {| readdir p :=
       match canon MAXSYMLINKS root p ≫= walk root with
       | Some (Dir entries) => Some (direntOf <$> entries)
       | _ => None
       end;
     realpath p := canon MAXSYMLINKS root p;
     stat p := statsOf <$> (canon MAXSYMLINKS root p ≫= walk root);
     lstat p :=
       match p with
       | [] => Some (statsOf root)
       | _ => statsOf <$> (canon MAXSYMLINKS root (removelast p)
                            ≫= λ q, walk root (q ++ [List.last p ""]))
       end |}.

(** Every path of the tree, and whether no directory lists a name
    twice. *)
Fixpoint allPaths (t : tree) : list path :=
  [] :: match t with
        | Dir entries =>
            (fix go (es : list (string * tree)) : list path :=
               match es with
               | [] => []
               | (n, t') :: es' => (cons n <$> allPaths t') ++ go es'
               end) entries
        | _ => []
        end.

(** The length of the longest path of the tree, and a length from which
    no path resolves any more: between two links a resolution goes down
    real directories only. *)
Definition height (t : tree) : nat := max_list (length <$> allPaths t).

Definition pathBound (t : tree) : nat := (MAXSYMLINKS + 1) * (height t + 1).

Fixpoint wellFormed (t : tree) : bool :=
  match t with
  | Dir entries =>
      bool_decide (NoDup entries.*1)
      && (fix go (es : list (string * tree)) : bool :=
            match es with
            | [] => true
            | (_, t') :: es' => wellFormed t' && go es'
            end) entries
  | _ => true
  end.

(** ** 3. The locator *)

Record scanOptions : Type := {
  followSymlinks : bool;
  maxDepth : option Z      (* a finite number, or absent *)
}.

(** [{ dir, depth }] *)
Record node : Type := { dir : path; depth : nat }.

(** [{ nodeModules, subdirs }] *)
Record listing : Type := { nodeModules : list path; subdirs : list node }.

Definition nothing : listing := {| nodeModules := []; subdirs := [] |}.

Definition shouldSkipDirName (name : string) : bool :=
  String.eqb name ".git" || String.eqb name ".cache".

(** [Number.isFinite(maxDepth) && depth > maxDepth] *)
Definition tooDeep (opts : scanOptions) (depth : nat) : bool :=
  match maxDepth opts with
  | Some m => (m <? Z.of_nat depth)%Z
  | None => false
  end.

(** The three arrays filled by the loop over [entries]. *)
Record buckets : Type := {
  b_nodeModules : list path;
  b_subdirs : list node;
  b_symlinkChecks : list node
}.

(** One turn of [for (const ent of entries)]. *)
Definition classify (opts : scanOptions) (n : node) (b : buckets) (ent : Dirent) : buckets :=
  if negb (isDirectory ent) && negb (isSymbolicLink ent) then b
  else
    let full := dir n ++ [name ent] in
    if String.eqb (name ent) "node_modules" then
      {| b_nodeModules := b_nodeModules b ++ [full];
         b_subdirs := b_subdirs b; b_symlinkChecks := b_symlinkChecks b |}
    else if shouldSkipDirName (name ent) then b
    else if isDirectory ent then
      {| b_nodeModules := b_nodeModules b;
         b_subdirs := b_subdirs b ++ [{| dir := full; depth := depth n + 1 |}];
         b_symlinkChecks := b_symlinkChecks b |}
    else if isSymbolicLink ent && followSymlinks opts then
      {| b_nodeModules := b_nodeModules b; b_subdirs := b_subdirs b;
         b_symlinkChecks := b_symlinkChecks b ++ [{| dir := full; depth := depth n + 1 |}] |}
    else b.

(** One element of [checkResults]: the node if the link leads to a
    directory, [null] otherwise. *)
Definition checkSymlink (fs : FileSystem) (c : node) : option node :=
  match stat fs (dir c) with
  | Some st => if statIsDirectory st then Some c else None
  | None => None
  end.

(** What listing [n] yields, from [fs.readdir] on. *)
Definition scanDir (fs : FileSystem) (opts : scanOptions) (n : node) : listing :=
  match readdir fs (dir n) with
  | None => nothing
  | Some entries =>
      let b := fold_left (classify opts n) entries
                 {| b_nodeModules := []; b_subdirs := []; b_symlinkChecks := [] |} in
      {| nodeModules := b_nodeModules b;
         subdirs := b_subdirs b ++ omap (checkSymlink fs) (b_symlinkChecks b) |}
  end.

(** The same as a promise: suspended at [await fs.readdir] and, when
    there are links to check, at [await Promise.all]. *)
Definition readEntries (fs : FileSystem) (opts : scanOptions) (n : node)
  : promise (list path) listing Error :=
  Await id (λ _,
    match readdir fs (dir n) with
    | None => Ret nothing
    | Some entries =>
        match b_symlinkChecks
                (fold_left (classify opts n) entries
                   {| b_nodeModules := []; b_subdirs := []; b_symlinkChecks := [] |}) with
        | [] => Ret (scanDir fs opts n)
        | _ :: _ => Await id (λ _, Ret (scanDir fs opts n))
        end
    end).

(** The cycle guard: [seenRealPaths.has(real)], [seenRealPaths.add(real)]. *)
Definition has (seen : list path) (real : path) : bool := bool_decide (real ∈ seen).

Definition guard (fs : FileSystem) (opts : scanOptions) (n : node)
  : promise (list path) listing Error :=
  Await (λ seen, match realpath fs (dir n) with
                 | Some real => if has seen real then seen else seen ++ [real]
                 | None => seen
                 end)
        (λ seen, match realpath fs (dir n) with
                 | Some real => if has seen real then Ret nothing else readEntries fs opts n
                 | None => Ret nothing
                 end).

(** The task built for a frontier node by [currentLevel.map].  The shared
    state is [seenRealPaths], which is a set exactly when
    [followSymlinks] is on. *)
Definition visit (fs : FileSystem) (opts : scanOptions) (n : node)
  : task (list path) listing Error :=
  λ seen,
    (seen,
     if tooDeep opts (depth n) then Ret nothing
     else if followSymlinks opts then guard fs opts n
     else readEntries fs opts n).

(** [for (const result of batchResults)]; reading [.error] of an empty
    slot would throw. *)
Fixpoint collect (batchResults : list (slot listing Error))
    (results : list path) (nextLevel : list node) : option (list path * list node) :=
  match batchResults with
  | [] => Some (results, nextLevel)
  | Hole :: _ => None
  | Caught _ :: rest => collect rest results nextLevel
  | Value r :: rest => collect rest (results ++ nodeModules r) (nextLevel ++ subdirs r)
  end.

(** The variables of [findNodeModules]; [reported] is the sequence of
    [onProgress] calls and [visited] the frontier nodes taken so far
    ([dirsScanned] is its length). *)
Record scan : Type := {
  seenRealPaths : list path;
  found : list path;                 (* [results] *)
  dirsScanned : nat;
  reported : list (nat * nat);
  visited : list node
}.

(** [while (currentLevel.length > 0)], one schedule per batch. *)
Fixpoint scanLevels (fs : FileSystem) (opts : scanOptions)
    (rounds : nat) (scheds : list (list nat)) (st : scan) (currentLevel : list node)
  : reply scan :=
  match currentLevel with
  | [] => Resolved st
  | _ :: _ =>
      match rounds with
      | 0 => Unsettled
      | S rounds' =>
          let '(seen, batchResults) :=
            runParallel (visit fs opts <$> currentLevel) (hd [] scheds)
                        DIR_CONCURRENCY (seenRealPaths st) in
          match collect batchResults (found st) [] with
          | None => Rejected
          | Some (results, nextLevel) =>
              let scanned := dirsScanned st + length currentLevel in
              scanLevels fs opts rounds' (tl scheds)
                {| seenRealPaths := seen;
                   found := results;
                   dirsScanned := scanned;
                   reported := reported st ++ [(scanned, length results)];
                   visited := visited st ++ currentLevel |}
                nextLevel
          end
      end
  end.

Definition findNodeModules (fs : FileSystem) (rounds : nat) (scheds : list (list nat))
    (rootAbs : path) (opts : scanOptions) : reply scan :=
  scanLevels fs opts rounds scheds
    {| seenRealPaths := []; found := []; dirsScanned := 0; reported := []; visited := [] |}
    [{| dir := rootAbs; depth := 0 |}].

(** Vocabulary for the locator's lemmas. *)

Section LocatorShape.
Variable opts : scanOptions.

(** The three arrays after the loop over [entries], entry by entry. *)
Definition asMatch (n : node) (ent : Dirent) : option path :=
  if (isDirectory ent || isSymbolicLink ent) && String.eqb (name ent) "node_modules"
  then Some (dir n ++ [name ent]) else None.

Definition passes (ent : Dirent) : bool :=
  negb (String.eqb (name ent) "node_modules") && negb (shouldSkipDirName (name ent)).

Definition asSubdir (n : node) (ent : Dirent) : option node :=
  if isDirectory ent && passes ent
  then Some {| dir := dir n ++ [name ent]; depth := depth n + 1 |} else None.

Definition asCheck (n : node) (ent : Dirent) : option node :=
  if isSymbolicLink ent && followSymlinks opts && passes ent
  then Some {| dir := dir n ++ [name ent]; depth := depth n + 1 |} else None.

(** The names the locator never enqueues. *)
Definition reserved (nm : string) : bool :=
  String.eqb nm "node_modules" || shouldSkipDirName nm.

(** A frontier node: the root at depth 0, or an entry one level below
    its parent under a name that is not reserved. *)
Definition okNode (rootAbs : path) (n : node) : Prop :=
  length (dir n) = length rootAbs + depth n ∧
  (n = {| dir := rootAbs; depth := 0 |} ∨
   0 < depth n ∧ ∃ parent nm, dir n = parent ++ [nm] ∧ reserved nm = false).

(** What holds of the locator's variables at the head of its loop. *)
Record scanInv (rootAbs : path) (st : scan) (currentLevel : list node) : Prop := {
  inv_nodes : ∀ n, n ∈ visited st ++ currentLevel → okNode rootAbs n;
  inv_found : ∀ m, m ∈ found st →
      ∃ n, n ∈ visited st ∧ tooDeep opts (depth n) = false ∧ m = dir n ++ ["node_modules"];
  inv_scanned : dirsScanned st = length (visited st)
}.

End LocatorShape.

(** What holds of [seenRealPaths] and of the tasks of one batch while
    the batch runs with symlink following on.  [admitted] tells which
    tasks have passed the cycle guard, [added] which real paths the batch
    has recorded so far. *)
Section GuardShape.
Variable fs : FileSystem.
Variable opts : scanOptions.
Variable ns : list node.
Variable seen0 : list path.

Definition admittedOk (n : node) (g : progress (list path) listing Error) : Prop :=
  match g with
  | Waiting => False
  | Running pr => settlesIn (eq (Value (scanDir fs opts n))) pr ∧ quiet pr
  | Done x => x = Value (scanDir fs opts n)
  end.

Definition turnedAway (seen : list path) (n : node) : Prop :=
  tooDeep opts (depth n) = false → ∀ r, realpath fs (dir n) = Some r → r ∈ seen.

Definition pendingOk (seen : list path) (n : node)
    (g : progress (list path) listing Error) : Prop :=
  match g with
  | Waiting => True
  | Running pr =>
      (tooDeep opts (depth n) = false ∧ pr = guard fs opts n)
      ∨ (pr = Ret nothing ∧ turnedAway seen n)
  | Done x => x = Value nothing ∧ turnedAway seen n
  end.

Record guardInv (admitted : list bool) (added : list path)
    (seen : list path) (σ : list (progress (list path) listing Error)) : Prop := {
  gi_length : length admitted = length ns;
  gi_seen : seen = seen0 ++ added;
  gi_nodup : NoDup seen;
  gi_owner : ∀ r, r ∈ added →
      ∃ i n, ns !! i = Some n ∧ admitted !! i = Some true ∧ realpath fs (dir n) = Some r;
  gi_real : ∀ i n, ns !! i = Some n → admitted !! i = Some true →
      tooDeep opts (depth n) = false ∧ ∃ r, realpath fs (dir n) = Some r ∧ r ∈ added;
  gi_once : ∀ i j n n', admitted !! i = Some true → admitted !! j = Some true →
      ns !! i = Some n → ns !! j = Some n' →
      realpath fs (dir n) = realpath fs (dir n') → i = j;
  gi_tasks : ∀ i g, σ !! i = Some g →
      ∃ n, ns !! i = Some n ∧
           if default false (admitted !! i) then admittedOk n g else pendingOk seen n g
}.

End GuardShape.

(** What holds of the locator's variables at the head of its loop when
    symlinks are followed: the matches were found in directories whose
    real paths are recorded, and no two of them in the same real
    directory. *)
Record cycleInv (fs : FileSystem) (D : list path) (st : scan) : Prop := {
  ci_seen : NoDup (seenRealPaths st);
  ci_within : ∀ r, r ∈ seenRealPaths st → r ∈ D;
  ci_nodup : NoDup (found st);
  ci_found : ∀ m, m ∈ found st →
      ∃ n r, m = dir n ++ ["node_modules"] ∧ realpath fs (dir n) = Some r
             ∧ r ∈ seenRealPaths st;
  ci_distinct : ∀ m1 m2, m1 ∈ found st → m2 ∈ found st →
      realpath fs (removelast m1) = realpath fs (removelast m2) → m1 = m2
}.

(** *** Sample trees *)

Definition plainOptions : scanOptions := {| followSymlinks := false; maxDepth := None |}.

Definition depthOptions (d : Z) : scanOptions :=
  {| followSymlinks := false; maxDepth := Some d |}.

(** [proj/a/node_modules/node_modules/x] *)
Definition nestedTree : tree :=
  Dir [("proj", Dir [("a", Dir [("node_modules",
         Dir [("node_modules", Dir [("x", File 1)])])])])].

(** [proj/a/.git/node_modules] *)
Definition gitTree : tree :=
  Dir [("proj", Dir [("a", Dir [(".git", Dir [("node_modules", Dir [])])])])].

(** The scan root is [proj/node_modules], holding [pkg/node_modules]. *)
Definition rootNamedTree : tree :=
  Dir [("proj", Dir [("node_modules",
         Dir [("pkg", Dir [("node_modules", Dir [("dep", Dir [])]);
                           ("index.js", File 10)])])])].

(** [proj/a] holds a match and a symlink back to [proj]. *)
Definition cycleTree : tree :=
  Dir [("proj", Dir [("a", Dir [("node_modules", Dir [("pkg", Dir [])]);
                                ("loop", Link ["proj"])])])].

Definition followOptions : scanOptions := {| followSymlinks := true; maxDepth := None |}.

(** The only [node_modules] two levels below [proj]. *)
Definition shallowTree : tree :=
  Dir [("proj", Dir [("a", Dir [("node_modules", Dir [])])])].

(** The only [node_modules] three levels below [proj]. *)
Definition deepTree : tree :=
  Dir [("proj", Dir [("a", Dir [("b", Dir [("node_modules", Dir [])])])])].

(** ** 4. The size accumulator *)

(** [{ dir, entries }] *)
Record dirListing : Type := { dl_dir : path; dl_entries : list Dirent }.

(** [{ isDir, isFile, size, full }]; [None] is [null]. *)
Record statInfo : Type := { isDir : bool; isRegular : bool; bytes : N; full : path }.

(** The tasks of [getDirSizeBytes] share no state. *)
Abbreviation sizeTask R := (task unit R Error).

(** [async () => { try { return { dir, entries: await fs.readdir(...) } }
                   catch { return { dir, entries: [] } } }] *)
Definition dirTask (fs : FileSystem) (dir : path) : sizeTask dirListing :=
  λ s, (s, Await id (λ _,
         Ret {| dl_dir := dir; dl_entries := default [] (readdir fs dir) |})).

(** The stat of a symlink's target, [fs.stat(full)]. *)
Definition statLink (fs : FileSystem) (full : path) : sizeTask (option statInfo) :=
  λ s, (s, Await id (λ _,
         Ret (match stat fs full with
              | Some st => Some {| isDir := statIsDirectory st; isRegular := statIsFile st;
                                   bytes := statSize st; full := full |}
              | None => None
              end))).

(** The stat of a file entry, [fs.lstat(full)]. *)
Definition statFile (fs : FileSystem) (full : path) : sizeTask (option statInfo) :=
  λ s, (s, Await id (λ _,
         Ret (match lstat fs full with
              | Some st => Some {| isDir := false; isRegular := true;
                                   bytes := statSize st; full := full |}
              | None => None
              end))).

(** One turn of [for (const ent of entries)]: onto [nextDirs] or onto
    [statTasks]. *)
Definition sortEntry (fs : FileSystem) (followSymlinks : bool) (dir : path)
    (acc : list path * list (sizeTask (option statInfo))) (ent : Dirent)
  : list path * list (sizeTask (option statInfo)) :=
  let full := dir ++ [name ent] in
  if isSymbolicLink ent then
    if negb followSymlinks then acc
    else (acc.1, acc.2 ++ [statLink fs full])
  else if isDirectory ent then (acc.1 ++ [full], acc.2)
  else if isFile ent then (acc.1, acc.2 ++ [statFile fs full])
  else acc.

(** [for (const { dir, entries } of dirResults)]: destructuring an empty
    slot throws, and so does iterating the missing [entries] of an
    [{ error }] slot. *)
Fixpoint sortListings (fs : FileSystem) (followSymlinks : bool)
    (dirResults : list (slot dirListing Error))
    (acc : list path * list (sizeTask (option statInfo)))
  : option (list path * list (sizeTask (option statInfo))) :=
  match dirResults with
  | [] => Some acc
  | Value r :: rest =>
      sortListings fs followSymlinks rest
        (fold_left (sortEntry fs followSymlinks (dl_dir r)) (dl_entries r) acc)
  | Hole :: _ | Caught _ :: _ => None
  end.

(** [for (const result of statResults)]: [null], [undefined] and an
    [{ error }] slot add nothing. *)
Definition tally (acc : N * list path) (result : slot (option statInfo) Error)
  : N * list path :=
  match result with
  | Value (Some r) =>
      ((if isRegular r then acc.1 + bytes r else acc.1)%N,
       if isDir r then acc.2 ++ [full r] else acc.2)
  | _ => acc
  end.

(** [while (pending.length > 0)]: one schedule for the batch of
    listings, one for the batch of stats when there is one. *)
Fixpoint sizeRounds (fs : FileSystem) (followSymlinks : bool)
    (rounds : nat) (scheds : list (list nat)) (total : N) (pending : list path)
  : reply N :=
  match pending with
  | [] => Resolved total
  | _ :: _ =>
      match rounds with
      | 0 => Unsettled
      | S rounds' =>
          let dirResults :=
            (runParallel (dirTask fs <$> pending) (hd [] scheds) DIR_CONCURRENCY tt).2 in
          match sortListings fs followSymlinks dirResults ([], []) with
          | None => Rejected
          | Some (nextDirs, []) =>
              sizeRounds fs followSymlinks rounds' (tl scheds) total nextDirs
          | Some (nextDirs, statTasks) =>
              let statResults :=
                (runParallel statTasks (hd [] (tl scheds)) STAT_CONCURRENCY tt).2 in
              let '(total', nextDirs') := fold_left tally statResults (total, nextDirs) in
              sizeRounds fs followSymlinks rounds' (tl (tl scheds)) total' nextDirs'
          end
      end
  end.

Definition getDirSizeBytes (fs : FileSystem) (rounds : nat) (scheds : list (list nat))
    (dirPath : path) (followSymlinks : bool) : reply N :=
  sizeRounds fs followSymlinks rounds scheds 0%N [dirPath].

(** *** The measure the accumulator is meant to compute

    Depth first, from the words of the specification: the bytes of every
    regular file under [p], descending through directories, and through
    symlinks only when they are followed; a directory that cannot be
    listed and an entry that cannot be stat'ed count for nothing.  [None]
    when the structure does not close within [h] levels. *)
Definition addOpt (a b : option N) : option N :=
  match a, b with
  | Some x, Some y => Some (x + y)%N
  | _, _ => None
  end.

Fixpoint bytesUnder (fs : FileSystem) (followSymlinks : bool) (h : nat) (p : path)
  : option N :=
  match h with
  | 0 => None
  | S h' =>
      match readdir fs p with
      | None => Some 0%N
      | Some entries =>
          foldr (λ ent acc,
                   addOpt
                     (match kind ent with
                      | RegularFile =>
                          Some (match lstat fs (p ++ [name ent]) with
                                | Some st => statSize st
                                | None => 0%N
                                end)
                      | Directory => bytesUnder fs followSymlinks h' (p ++ [name ent])
                      | SymbolicLink =>
                          if followSymlinks then
                            match stat fs (p ++ [name ent]) with
                            | None => Some 0%N
                            | Some st =>
                                addOpt
                                  (Some (if statIsFile st then statSize st else 0%N))
                                  (if statIsDirectory st
                                   then bytesUnder fs followSymlinks h' (p ++ [name ent])
                                   else Some 0%N)
                            end
                          else Some 0%N
                      | Special => Some 0%N
                      end)
                     acc)
                (Some 0%N) entries
      end
  end.

(** Files of 100, 200 and 300 bytes and an empty subdirectory. *)
Definition sixHundredTree : tree :=
  Dir [("node_modules",
        Dir [("a.js", File 100); ("b.js", File 200); ("c.js", File 300); ("empty", Dir [])])].

(** The same with, beside, a 50-byte file and a directory holding 7
    bytes, both reached from inside through symlinks. *)
Definition linkedTree : tree :=
  Dir [("node_modules",
        Dir [("a.js", File 100); ("b.js", File 200); ("c.js", File 300); ("empty", Dir []);
             ("shortcut", Link ["store"; "big.bin"]);
             ("vendor", Link ["store"; "lib"]);
             ("dangling", Link ["nowhere"]);
             ("locked", Sealed)]);
       ("store", Dir [("big.bin", File 50); ("lib", Dir [("x.js", File 7)])])].

(** A directory with one file and a symlink to itself. *)
Definition selfLinkTree : tree :=
  Dir [("nm", Dir [("index.js", File 10); ("loop", Link ["nm"])])].

(** Vocabulary for the accumulator's lemmas: what one directory entry
    puts on [nextDirs], what its stat task yields, and what that result
    adds to [total] and to [nextDirs]. *)
Section SizeShape.
Variable fs : FileSystem.
Variable followSymlinks : bool.

Definition subdirOf (de : path * Dirent) : option path :=
  if isSymbolicLink de.2 then None
  else if isDirectory de.2 then Some (de.1 ++ [name de.2]) else None.

Definition linkInfo (full : path) : option statInfo :=
  match stat fs full with
  | Some st => Some {| isDir := statIsDirectory st; isRegular := statIsFile st;
                       bytes := statSize st; full := full |}
  | None => None
  end.

Definition fileInfo (full : path) : option statInfo :=
  match lstat fs full with
  | Some st => Some {| isDir := false; isRegular := true;
                       bytes := statSize st; full := full |}
  | None => None
  end.

Definition statTaskOf (de : path * Dirent) : option (sizeTask (option statInfo)) :=
  if isSymbolicLink de.2 then
    if negb followSymlinks then None else Some (statLink fs (de.1 ++ [name de.2]))
  else if isDirectory de.2 then None
  else if isFile de.2 then Some (statFile fs (de.1 ++ [name de.2]))
  else None.

Definition statResultOf (de : path * Dirent) : option (option statInfo) :=
  if isSymbolicLink de.2 then
    if negb followSymlinks then None else Some (linkInfo (de.1 ++ [name de.2]))
  else if isDirectory de.2 then None
  else if isFile de.2 then Some (fileInfo (de.1 ++ [name de.2]))
  else None.

Definition gain (o : option statInfo) : N :=
  match o with
  | Some r => if isRegular r then bytes r else 0%N
  | None => 0%N
  end.

Definition linkedDir (o : option statInfo) : option path :=
  match o with
  | Some r => if isDir r then Some (full r) else None
  | None => None
  end.

(** All the entries a batch of listings brings, each with its directory. *)
Definition entriesOf (pending : list path) : list (path * Dirent) :=
  pending ≫= λ dir, (λ ent, (dir, ent)) <$> default [] (readdir fs dir).

Definition sumN (l : list N) : N := foldr N.add 0%N l.

Definition sumOpt (l : list (option N)) : option N := foldr addOpt (Some 0%N) l.

(** The measure of a whole frontier. *)
Definition bytesAll (h : nat) (ps : list path) : option N :=
  sumOpt (bytesUnder fs followSymlinks h <$> ps).

(** The share of one entry in the measure of its directory. *)
Definition entryBytes (h : nat) (de : path * Dirent) : option N :=
  addOpt (Some (sumN (gain <$> option_list (statResultOf de))))
         (bytesAll h (option_list (subdirOf de)
                      ++ omap linkedDir (option_list (statResultOf de)))).

End SizeShape.

(** Files under directories that the locator would skip or report. *)
Definition reservedNamesTree : tree :=
  Dir [("node_modules",
        Dir [("node_modules", Dir [("x", File 5)]);
             (".git", Dir [("y", File 6)]);
             (".cache", Dir [("z", File 7)])])].

(** ** 5. The orchestrator: rows, total and order *)

(** [{ nmPath, size }]; the field is called [sizeBytes] here. *)
Record sizeRow : Type := { nmPath : path; sizeBytes : N }.

(** An element of [rows], the array returned by
    [runParallel(sizeTasks, DIR_CONCURRENCY)]. *)
Abbreviation row := (slot sizeRow Error).

(** [r.size || 0]: an [{ error }] row has no [size]. *)
Definition sizeOrZero (r : row) : N :=
  match r with
  | Value v => sizeBytes v
  | Caught _ | Hole => 0%N
  end.

(** [rows.reduce((sum, r) => sum + (r.size || 0), 0)] *)
Definition totalBytes (rows : list row) : N :=
  fold_left (λ sum r, (sum + sizeOrZero r)%N) rows 0%N.

(** [(a, b) => (b.size || 0) - (a.size || 0)] *)
Definition bySizeDesc (a b : row) : Z :=
  (Z.of_N (sizeOrZero b) - Z.of_N (sizeOrZero a))%Z.

(** The comparator of a descending order by a key; [bySizeDesc] is the one
    by [r.size || 0]. *)
Definition byKeyDesc {A : Type} (key : A → N) (a b : A) : Z :=
  (Z.of_N (key b) - Z.of_N (key a))%Z.

(** [Array.prototype.sort] with a comparator, which the language
    specifies as a stable sort: [x] goes before the first element it
    does not compare greater than. *)
Fixpoint insertSorted {A : Type} (compare : A → A → Z) (x : A) (l : list A) : list A :=
  match l with
  | [] => [x]
  | y :: rest =>
      if (compare x y <=? 0)%Z then x :: y :: rest
      else y :: insertSorted compare x rest
  end.

Definition arraySort {A : Type} (compare : A → A → Z) (l : list A) : list A :=
  foldr (insertSorted compare) [] l.

(** What is handed to rendering: [totalBytes] and the sorted rows. *)
Definition report (rows : list row) : N * list row :=
  (totalBytes rows, arraySort bySizeDesc rows).

(** ** 6. The deletion phase *)

(** The options of [fs.rm]. *)
Record rmOptions : Type := {
  recursive : bool; force : bool; maxRetries : nat; retryDelay : nat
}.

(** The errors on which [fs.rm] tries again. *)
Definition retryable (e : Error) : bool :=
  bool_decide (code e ∈ ["EBUSY"; "EMFILE"; "ENFILE"; "ENOTEMPTY"; "EPERM"]).

Definition ENOENT : Error :=
  {| code := "ENOENT"; message := "ENOENT: no such file or directory" |}.
Definition EISDIR : Error :=
  {| code := "ERR_FS_EISDIR"; message := "Path is a directory" |}.
Definition invalidPath : Error :=
  {| code := "ERR_INVALID_ARG_TYPE";
     message := "The path argument must be of type string. Received undefined" |}.

(** What an attempt at a removal runs into: the error, and what the
    attempt had removed below the target before it met the error. *)
Record fault : Type := { cause : Error; lost : path → bool }.

Section Removal.
(** What the [n]-th attempt at removing [p] runs into, if anything. *)
Variable faults : path → nat → option fault.

(** The disk after a failed attempt at [p]: the removal goes depth
    first, so that entries below the target may be gone when it fails;
    the target itself is removed last and is still there. *)
Definition damaged (p : path) (f : fault) (disk : list path) : list path :=
  filter (λ q, ¬ (p `prefix_of` q ∧ q ≠ p ∧ lost f q = true)) disk.

(** The attempts of one [fs.rm] call, [retries] of them still allowed:
    the disk afterwards and the error the call gives up with, if any. *)
Fixpoint attempts (p : path) (retries : nat) (n : nat) (disk : list path)
  : list path * option Error :=
  match faults p n with
  | None => (filter (λ q, ¬ p `prefix_of` q) disk, None)
  | Some f =>
      if retryable (cause f) then
        match retries with
        | 0 => (damaged p f disk, Some (cause f))
        | S r => attempts p r (S n) (damaged p f disk)
        end
      else (damaged p f disk, Some (cause f))
  end.

(** Node's [fs.rm(p, opts)] on the paths present: with [force] a missing
    path is not an error; [recursive] removes the directory and all
    below it; an attempt that fails with one of the retryable codes is
    followed by another, [maxRetries] times at most; a call that fails
    leaves the target, and of what was below it whatever its attempts
    had not yet removed.  The result is the disk afterwards and the error
    the promise rejects with, if any. *)
Definition rm (p : path) (opts : rmOptions) (disk : list path) : list path * option Error :=
  if bool_decide (p ∈ disk) then
    if recursive opts then attempts p (maxRetries opts) 0 disk
    else (disk, Some EISDIR)
  else if force opts then (disk, None)
  else (disk, Some ENOENT).

(** [removeDir(dirPath)] *)
Definition removeDir (dirPath : path) (disk : list path) : list path * option Error :=
  rm dirPath {| recursive := true; force := true; maxRetries := 3; retryDelay := 200 |} disk.

(** Whether the progress bar [deleteProgress] exists. *)
Variable isInteractive : bool.

(** The state the deletion tasks share: the disk, [deleteErrors] and
    [deleteCompleted]. *)
Record deletion : Type := {
  disk : list path;
  deleteErrors : list (option path * string);
  deleteCompleted : nat
}.

(** [{ success, path }] *)
Record deleteOutcome : Type := { success : bool; target : option path }.

(** [if (deleteProgress) deleteProgress.update(++deleteCompleted)] *)
Definition tick (n : nat) : nat := if isInteractive then S n else n.

(** The [catch] branch: [deleteErrors.push({ path, error: e?.message ?? e })],
    then the tick. *)
Definition recordFailure (p : option path) (e : Error) (s : deletion) : deletion :=
  {| disk := disk s;
     deleteErrors := deleteErrors s ++ [(p, message e)];
     deleteCompleted := tick (deleteCompleted s) |}.

Definition recordSuccess (s : deletion) : deletion :=
  {| disk := disk s;
     deleteErrors := deleteErrors s;
     deleteCompleted := tick (deleteCompleted s) |}.

Definition gone (p : path) : deleteOutcome := {| success := true; target := Some p |}.
Definition kept (p : path) : deleteOutcome := {| success := false; target := Some p |}.
Definition nameless : deleteOutcome := {| success := false; target := None |}.

(** The removal takes effect on the disk. *)
Definition effect (p : path) (s : deletion) : deletion :=
  {| disk := (removeDir p (disk s)).1;
     deleteErrors := deleteErrors s;
     deleteCompleted := deleteCompleted s |}.

(** The async function resumes after [await removeDir(r.nmPath)]: in its
    [try] when the removal succeeded, in its [catch] with the error
    otherwise. *)
Definition resumed (p : path) (res : option Error)
  : promise deletion deleteOutcome Error :=
  match res with
  | None => Await recordSuccess (λ _, Ret (gone p))
  | Some e => Await (recordFailure (Some p) e) (λ _, Ret (kept p))
  end.

Definition removal (p : path) : promise deletion deleteOutcome Error :=
  Await (effect p) (λ s, resumed p (removeDir p (disk s)).2).

(** [removeDir(undefined)] rejects; the [catch] runs after the [await]. *)
Definition rejection : promise deletion deleteOutcome Error :=
  Await (recordFailure None invalidPath) (λ _, Ret nameless).

(** The task built for a row by [rows.map].  An [{ error }] row has no
    [nmPath]: with the progress bar [path.dirname(r.nmPath)] throws inside
    the [try] at once, without it [removeDir(r.nmPath)] rejects.  On an
    empty slot [r.nmPath] throws in the [try] and again in the [catch]. *)
Definition deleteTask (r : row) : task deletion deleteOutcome Error :=
  λ s,
    match r with
    | Value v => (s, removal (nmPath v))
    | Caught _ =>
        if isInteractive then (recordFailure None invalidPath s, Ret nameless)
        else (s, rejection)
    | Hole => (s, Throw invalidPath)
    end.

(** [removed], [failed] and what is left behind. *)
Record summary : Type := {
  removed : nat;
  failed : nat;
  after : deletion;
  deleteResults : list (slot deleteOutcome Error)
}.

(** [for (const result of deleteResults) { if (result.success) removed++; else failed++; }] *)
Fixpoint countResults (results : list (slot deleteOutcome Error)) (removed failed : nat)
  : option (nat * nat) :=
  match results with
  | [] => Some (removed, failed)
  | Value o :: rest =>
      if success o then countResults rest (S removed) failed
      else countResults rest removed (S failed)
  | Caught _ :: rest => countResults rest removed (S failed)
  | Hole :: _ => None
  end.

Definition deletePhase (sched : list nat) (rows : list row) (disk0 : list path)
  : reply summary :=
  let '(s, results) :=
    runParallel (deleteTask <$> rows) sched DELETE_CONCURRENCY
      {| disk := disk0; deleteErrors := []; deleteCompleted := 0 |} in
  match countResults results 0 0 with
  | Some (r, f) => Resolved {| removed := r; failed := f; after := s;
                               deleteResults := results |}
  | None => Rejected
  end.

(** *** Vocabulary for the deletion lemmas *)

Variable rows : list row.
Variable disk0 : list path.

(** What removing [p] from the disk as it was at the start gives. *)
Definition verdict (p : path) : option Error := (removeDir p disk0).2.

(** Whether one of the attempts of a call, up to the one it gives up
    with, removes [q]. *)
Fixpoint wrecked (p : path) (retries : nat) (n : nat) (q : path) : bool :=
  match faults p n with
  | None => false
  | Some f =>
      lost f q
      || (if retryable (cause f) then
            match retries with
            | 0 => false
            | S r => wrecked p r (S n) q
            end
          else false)
  end.

(** The removal of the target [p] takes [q] off the disk: [q] lies at or
    below [p], and the removal succeeds or, failing, has removed [q]
    from below [p] on its way. *)
Definition taken (p q : path) : Prop :=
  p ∈ disk0 ∧ p `prefix_of` q ∧
  (verdict p = None ∨ (q ≠ p ∧ wrecked p 3 0 q = true)).

Definition outcomeOf (p : path) : deleteOutcome :=
  match verdict p with None => gone p | Some _ => kept p end.

(** What the slot of a row is to hold. *)
Definition expected (r : row) : slot deleteOutcome Error :=
  match r with
  | Value v => Value (outcomeOf (nmPath v))
  | Caught _ => Value nameless
  | Hole => Caught invalidPath
  end.

(** The entry of [deleteErrors] that goes with an outcome. *)
Definition recordOf (o : deleteOutcome) : option (option path * string) :=
  if success o then None
  else Some (target o,
             match target o with
             | Some p => match verdict p with Some e => message e | None => "" end
             | None => message invalidPath
             end).

Definition failureOf (r : row) : option (option path * string) :=
  match r with
  | Value v => recordOf (outcomeOf (nmPath v))
  | Caught _ => recordOf nameless
  | Hole => None
  end.

(** No target lies at or under another one. *)
Definition independent : Prop :=
  ∀ i j v w, i ≠ j → rows !! i = Some (Value v) → rows !! j = Some (Value w) →
             ¬ nmPath v `prefix_of` nmPath w.

(** How far the task of a row has come: not invoked, waiting for its
    removal, waiting to record the result, about to return, settled. *)
Inductive phase : Type := Queued | Removing | Recording | Returning | Finished.

Definition past (ph : phase) : bool :=
  match ph with Queued | Removing => false | _ => true end.

Definition told (ph : phase) : bool :=
  match ph with Returning | Finished => true | _ => false end.

(** The progress that goes with a phase. *)
Definition render (r : row) (ph : phase) : progress deletion deleteOutcome Error :=
  match r with
  | Value v =>
      let p := nmPath v in
      match ph with
      | Queued => Waiting
      | Removing => Running (removal p)
      | Recording => Running (resumed p (verdict p))
      | Returning => Running (Ret (outcomeOf p))
      | Finished => Done (Value (outcomeOf p))
      end
  | Caught _ =>
      match ph with
      | Queued => Waiting
      | Removing | Recording => Running rejection
      | Returning => Running (Ret nameless)
      | Finished => Done (Value nameless)
      end
  | Hole =>
      match ph with
      | Queued => Waiting
      | Removing | Recording | Returning => Running (Throw invalidPath)
      | Finished => Done (Caught invalidPath)
      end
  end.

Definition noted (r : row) (ph : phase) : option (option path * string) :=
  if told ph then failureOf r else None.

(** What holds between the steps of the deletion tasks, with the phases
    as auxiliary state. *)
Record deleteInv (s : deletion)
    (σ : list (progress deletion deleteOutcome Error)) (phs : list phase) : Prop := {
  di_track : σ = zip_with render rows phs;
  di_length : length phs = length rows;
  di_within : ∀ q, q ∈ disk s → q ∈ disk0;
  di_removed : ∀ q, q ∈ disk0 → q ∉ disk s →
      ∃ i v ph, rows !! i = Some (Value v) ∧ phs !! i = Some ph ∧ past ph = true ∧
                taken (nmPath v) q;
  di_pending : ∀ i v ph, rows !! i = Some (Value v) → phs !! i = Some ph →
      past ph = false → nmPath v ∈ disk0 → nmPath v ∈ disk s;
  di_done : ∀ i v ph, rows !! i = Some (Value v) → phs !! i = Some ph →
      past ph = true → ∀ q, taken (nmPath v) q → q ∉ disk s;
  di_errors : deleteErrors s ≡ₚ omap id (zip_with noted rows phs)
}.

Definition deleteOk (s : deletion)
    (σ : list (progress deletion deleteOutcome Error)) : Prop :=
  ∃ phs, deleteInv s σ phs.

End Removal.

Arguments attempts : simpl never.

(** Five targets, each holding a file [f], beside their parents; every
    attempt at the third is refused, having removed from below it what
    [gone] tells. *)
Definition fiveTargets : list path :=
  [ ["w"; "p1"; "node_modules"]; ["w"; "p2"; "node_modules"];
    ["w"; "p3"; "node_modules"]; ["w"; "p4"; "node_modules"];
    ["w"; "p5"; "node_modules"] ].

Definition fiveRows : list row :=
  (λ p, Value {| nmPath := p; sizeBytes := 1 |}) <$> fiveTargets.

Definition fiveDisk : list path :=
  [ ["w"]; ["w"; "p3"] ] ++ fiveTargets ++ ((λ p, p ++ ["f"]) <$> fiveTargets).

Definition EACCES : Error :=
  {| code := "EACCES"; message := "EACCES: permission denied" |}.

Definition thirdRefused (gone : path → bool) (p : path) (n : nat) : option fault :=
  if bool_decide (p = ["w"; "p3"; "node_modules"])
  then Some {| cause := EACCES; lost := gone |} else None.

(** ** 7. Further vocabulary *)

(** *** The locator, level by level *)

(** The listings a batch may bring for the frontier [lvl]: for each node
    the empty listing or, within the depth limit, its own. *)
Definition batchOf (fs : FileSystem) (opts : scanOptions)
    (lvl : list node) (ls : list listing) : Prop :=
  Forall2 (λ n r, r = nothing ∨ tooDeep opts (depth n) = false ∧ r = scanDir fs opts n)
          lvl ls.

(** What a node brings when symlinks are not followed. *)
Definition plainListing (fs : FileSystem) (opts : scanOptions) (n : node) : listing :=
  if tooDeep opts (depth n) then nothing else scanDir fs opts n.

(** The variables of the locator after a level that brought [ls]. *)
Definition afterLevel (st : scan) (lvl : list node) (seen : list path)
    (ls : list listing) : scan :=
  {| seenRealPaths := seen;
     found := found st ++ mjoin (nodeModules <$> ls);
     dirsScanned := dirsScanned st + length lvl;
     reported := reported st
                 ++ [(dirsScanned st + length lvl,
                      length (found st ++ mjoin (nodeModules <$> ls)))];
     visited := visited st ++ lvl |}.

(** The locator's variables before the first level. *)
Definition scan0 : scan :=
  {| seenRealPaths := []; found := []; dirsScanned := 0; reported := []; visited := [] |}.

(** A file system that answers every [stat] and [realpath] with an
    error. *)
Definition listingsOnly (fs : FileSystem) : FileSystem :=
  {| readdir := readdir fs; realpath := λ _, None; stat := λ _, None; lstat := lstat fs |}.

(** What holds of the progress reports at the head of the loop. *)
Definition progressInv (st : scan) : Prop :=
  dirsScanned st = length (visited st) ∧
  StronglySorted (λ a b : nat * nat, a.1 < b.1 ∧ a.2 ≤ b.2) (reported st) ∧
  Forall (λ r, r.1 ≤ dirsScanned st ∧ r.2 ≤ length (found st)) (reported st) ∧
  (visited st = [] ∨ last (reported st) = Some (dirsScanned st, length (found st))).

(** Breadth first: the frontier is one level, all that was taken or
    found before lies above it. *)
Definition levelInv (rootAbs : path) (st : scan) (lvl : list node) : Prop :=
  ∃ d, (∀ n, n ∈ lvl → depth n = d ∧ length (dir n) = length rootAbs + d) ∧
       (∀ m, m ∈ found st → length m ≤ length rootAbs + d) ∧
       (∀ n, n ∈ visited st → depth n < d) ∧
       StronglySorted (λ a b : path, length a ≤ length b) (found st) ∧
       StronglySorted (λ a b, depth a ≤ depth b) (visited st).

(** A path under the root none of whose segments below the root is
    [node_modules], [.git] or [.cache]. *)
Definition below (rootAbs : path) (p : path) : Prop :=
  ∃ segs, p = rootAbs ++ segs ∧ Forall (λ s, reserved s = false) segs.

Definition belowInv (rootAbs : path) (st : scan) (lvl : list node) : Prop :=
  ∀ n, n ∈ visited st ++ lvl → below rootAbs (dir n).

(** A match is an entry of a directory that was listed. *)
Definition isEntry (fs : FileSystem) (opts : scanOptions) (st : scan) (m : path) : Prop :=
  ∃ n entries ent,
    n ∈ visited st ∧ tooDeep opts (depth n) = false ∧
    readdir fs (dir n) = Some entries ∧ ent ∈ entries ∧
    name ent = "node_modules" ∧
    (isDirectory ent = true ∨ isSymbolicLink ent = true) ∧
    m = dir n ++ [name ent].

(** Matches at three depths, a file named [node_modules], a symlink
    named [node_modules] that leads nowhere, and ignored directories. *)
Definition mixedTree : tree :=
  Dir [("proj",
        Dir [("b", Dir [("c", Dir [("node_modules", Dir [("x", File 3)])]);
                        ("node_modules", File 9)]);
             ("node_modules", Dir [("dep", Dir [("node_modules", Dir [])])]);
             ("a", Dir [("node_modules", Link ["gone"]); (".git", Dir [])]);
             (".cache", Dir [("node_modules", Dir [])])])].

(** The directories the locator is meant to list when symlinks are not
    followed: the root, and the directory entries, not named
    [node_modules], [.git] or [.cache], of a reachable directory that is
    within the depth limit and can be listed. *)
Inductive reach (fs : FileSystem) (opts : scanOptions) (rootAbs : path) : node → Prop :=
| reach_root : reach fs opts rootAbs {| dir := rootAbs; depth := 0 |}
| reach_child n entries ent :
    reach fs opts rootAbs n →
    tooDeep opts (depth n) = false →
    readdir fs (dir n) = Some entries → ent ∈ entries →
    isDirectory ent = true → passes ent = true →
    reach fs opts rootAbs {| dir := dir n ++ [name ent]; depth := depth n + 1 |}.

(** *** A bound on path length

    The file system [fs] as seen through a kernel that refuses every
    path of [H] segments or more (ENAMETOOLONG, ELOOP). *)
Definition capped (H : nat) (fs : FileSystem) : FileSystem :=
  {| readdir p := if decide (length p < H) then readdir fs p else None;
     realpath p := if decide (length p < H) then realpath fs p else None;
     stat p := if decide (length p < H) then stat fs p else None;
     lstat p := if decide (length p < H) then lstat fs p else None |}.

(** *** The executor and the shared state *)

Section ExecutorState.
Context {St R E : Type}.

(** A promise every step of which keeps the property [I] of the shared
    state. *)
Inductive keeps (I : St → Prop) : promise St R E → Prop :=
| keeps_ret v : keeps I (Ret v)
| keeps_throw e : keeps I (Throw e)
| keeps_await upd k :
    (∀ s, I s → I (upd s)) → (∀ s, I s → keeps I (k s)) → keeps I (Await upd k).

Definition keepsInv (I : St → Prop) (s : St) (σ : list (progress St R E)) : Prop :=
  I s ∧ ∀ i pr, σ !! i = Some (Running pr) → keeps I pr.

(** A promise that, from here to its end, adds [w] in all to the measure
    [m] of the shared state, whatever the other tasks do in between:
    [a s] is what the step taken in state [s] adds. *)
Inductive adds (m : St → nat) : nat → promise St R E → Prop :=
| adds_ret v : adds m 0 (Ret v)
| adds_throw e : adds m 0 (Throw e)
| adds_await w upd k (a : St → nat) :
    (∀ s, a s ≤ w ∧ m (upd s) = m s + a s) →
    (∀ s, adds m (w - a s) (k s)) →
    adds m w (Await upd k).

(** [weights] is what the tasks add each; [owed] what they have yet to
    add. *)
Definition addsInv (m : St → nat) (weights : list nat) (total : nat)
    (s : St) (σ : list (progress St R E)) : Prop :=
  ∃ owed : list nat,
    length owed = length σ ∧
    m s + sum_list owed = total ∧
    ∀ i g, σ !! i = Some g →
           match g with
           | Waiting => owed !! i = weights !! i
           | Running pr => ∃ w, owed !! i = Some w ∧ adds m w pr
           | Done _ => owed !! i = Some 0
           end.

End ExecutorState.

(** *** One task after the other *)

Section Sequential.
Context {St R E : Type}.

(** A promise run to its end with nothing in between. *)
Fixpoint settle (pr : promise St R E) (s : St) : St * slot R E :=
  match pr with
  | Ret v => (s, Value v)
  | Throw e => (s, Caught e)
  | Await upd k => settle (k s) (upd s)
  end.

(** The tasks in order, each run to its end before the next is
    invoked. *)
Definition runNext (acc : St * list (slot R E)) (t : task St R E)
  : St * list (slot R E) :=
  let '(s1, pr) := t acc.1 in
  let '(s2, x) := settle pr s1 in
  (s2, acc.2 ++ [x]).

Definition runSequential (tasks : list (task St R E)) (s : St) : St * list (slot R E) :=
  fold_left runNext tasks (s, []).

(** The same on an array that is filled by index, from [j] on. *)
Fixpoint seqRun (ts : list (task St R E)) (j : nat) (s : St) (rs : list (slot R E))
  : St * list (slot R E) :=
  match ts with
  | [] => (s, rs)
  | t :: ts' =>
      let '(s1, pr) := t s in
      let '(s2, x) := settle pr s1 in
      seqRun ts' (S j) s2 (<[j := x]> rs)
  end.

(** What a pool with a single worker comes to. *)
Definition singleOutcome (tasks : list (task St R E)) (p : pool St R E)
  : St * list (slot R E) :=
  match workers p with
  | [Busy i pr] =>
      let '(s', x) := settle pr (store p) in
      seqRun (drop (index p) tasks) (index p) s' (<[i := x]> (results p))
  | _ => (store p, results p)
  end.

End Sequential.

(** *** The deletion phase and the disk *)

(** Nothing has appeared on the disk and what is missing lay at or under
    a target. *)
Definition onlyTargets (rows : list row) (disk0 : list path) (s : deletion) : Prop :=
  (∀ q, q ∈ disk s → q ∈ disk0) ∧
  (∀ q, q ∈ disk0 → q ∉ disk s → ∃ v, Value v ∈ rows ∧ nmPath v `prefix_of` q).

(** What the task of a row adds to [deleteCompleted]. *)
Definition tickOf (isInteractive : bool) (r : row) : nat :=
  match r with
  | Hole => 0
  | _ => if isInteractive then 1 else 0
  end.

(** Without symlink following, on listings without repeated names: the
    frontier and what was taken before it hold no directory twice, and
    no match is listed twice. *)
Definition plainInv (rootAbs : path) (st : scan) (lvl : list node) : Prop :=
  ∃ d, (∀ n, n ∈ lvl → length (dir n) = length rootAbs + d) ∧
       (∀ n, n ∈ visited st → length (dir n) < length rootAbs + d) ∧
       NoDup (dir <$> visited st) ∧
       NoDup (dir <$> lvl) ∧
       NoDup (found st) ∧
       (∀ m, m ∈ found st → ∃ n, n ∈ visited st ∧ m = dir n ++ ["node_modules"]).

(** *** The orchestrator: the sizes of the matches *)

Section Sizing.
Variable fs : FileSystem.
Variable followSymlinks : bool.
(** Whether the progress bar [sizeProgress] exists. *)
Variable isInteractive : bool.
(** The rounds and the schedules of the accumulator run started for
    each match. *)
Variable rounds : nat.
Variable scheds : path → list (list nat).

(** [if (sizeProgress) sizeProgress.update(++sizeCompleted)] *)
Definition sizeTick (n : nat) : nat := if isInteractive then S n else n.

(** What [await getDirSizeBytes(nmPath, ...)] comes to.  The accumulator
    runs started for the matches share nothing but the file system,
    which does not change meanwhile, so that each is taken as it runs
    alone. *)
Definition measured (p : path) : reply N :=
  getDirSizeBytes fs rounds (scheds p) p followSymlinks.

Definition measureFailed : Error :=
  {| code := "ERR_UNKNOWN"; message := "getDirSizeBytes rejected" |}.

(** The task built for a match by [found.map], the shared state being
    [sizeCompleted]. *)
Definition sizeRowTask (p : path) : task nat sizeRow Error :=
  λ s,
    (s, match measured p with
        | Resolved size =>
            Await sizeTick (λ _, Ret {| nmPath := p; sizeBytes := size |})
        | _ => Await id (λ _, Throw measureFailed)
        end).

(** [rows = await runParallel(sizeTasks, DIR_CONCURRENCY)], with
    [sizeCompleted] at the end: the call does not return when one of
    the measures never settles. *)
Definition sizePhase (sched : list nat) (found : list path) : reply (nat * list row) :=
  if forallb (λ p, match measured p with Unsettled => false | _ => true end) found
  then Resolved (runParallel (sizeRowTask <$> found) sched DIR_CONCURRENCY 0)
  else Unsettled.

End Sizing.

(** *** The orchestrator as a whole *)

(** The command-line options the flow depends on ([-p] apart). *)
Record cliOptions : Type := {
  optFollowSymlinks : bool;     (* [!!opts.followSymlinks] *)
  optMaxDepth : option Z;       (* [opts.maxDepth], when it is a finite number *)
  optJson : bool;
  optYes : bool
}.

(** How a run of the program ends. *)
Inductive ending : Type :=
| MissingRoot                                      (* "Path does not exist", exit code 1 *)
| NothingFound                                     (* exit code 0 *)
| Aborted (total : N) (rows : list row)            (* "Aborted. Nothing removed.", exit code 0 *)
| Purged (total : N) (rows : list row) (sm : summary)
| Crashed                                          (* an unhandled rejection *)
| Pending.                                         (* an [await] that never returns *)

(** The schedules and the rounds granted to the three phases. *)
Record timing : Type := {
  scanRounds : nat;
  scanScheds : list (list nat);
  measureRounds : nat;
  measureScheds : path → list (list nat);
  sizeSched : list nat;
  deleteSched : list nat
}.

(** The body of the program, with what it prints left out.
    [rootExists] is what [pathExists(root)] returns and [answerIsYes]
    whether the answer to the prompt, trimmed and in lower case, is [y]
    or [yes].  The rows are sorted in place, so that the deletion tasks
    are built from the sorted rows. *)
Definition main (fs : FileSystem) (rootExists : bool) (o : cliOptions)
    (answerIsYes : bool) (faults : path → nat → option fault) (disk0 : list path)
    (tm : timing) (root : path) : ending :=
  if negb rootExists then MissingRoot
  else
    let isInteractive := negb (optJson o) in
    match findNodeModules fs (scanRounds tm) (scanScheds tm) root
            {| followSymlinks := optFollowSymlinks o; maxDepth := optMaxDepth o |} with
    | Unsettled => Pending
    | Rejected => Crashed
    | Resolved st =>
        match found st with
        | [] => NothingFound
        | _ :: _ =>
            match sizePhase fs (optFollowSymlinks o) isInteractive
                    (measureRounds tm) (measureScheds tm) (sizeSched tm) (found st) with
            | Unsettled => Pending
            | Rejected => Crashed
            | Resolved (_, rows) =>
                let '(total, sorted) := report rows in
                if optYes o || answerIsYes then
                  match deletePhase faults isInteractive (deleteSched tm) sorted disk0 with
                  | Resolved sm => Purged total sorted sm
                  | Rejected => Crashed
                  | Unsettled => Pending
                  end
                else Aborted total sorted
            end
        end
    end.

(** The path a row stands for. *)
Definition targetOf (r : row) : option path :=
  match r with Value v => Some (nmPath v) | _ => None end.

(** The rows handed to rendering and to deletion list the matches of the
    scan, each once with its measure, largest first, and [total] is the
    sum of the measures. *)
Definition listed (fs : FileSystem) (o : cliOptions) (tm : timing) (root : path)
    (total : N) (rows : list row) : Prop :=
  ∃ st vs,
    findNodeModules fs (scanRounds tm) (scanScheds tm) root
      {| followSymlinks := optFollowSymlinks o; maxDepth := optMaxDepth o |} = Resolved st ∧
    rows = Value <$> vs ∧
    nmPath <$> vs ≡ₚ found st ∧
    Forall (λ v, getDirSizeBytes fs (measureRounds tm) (measureScheds tm (nmPath v))
                   (nmPath v) (optFollowSymlinks o) = Resolved (sizeBytes v)) vs ∧
    StronglySorted (λ a b, (sizeBytes b ≤ sizeBytes a)%N) vs ∧
    total = sumN (sizeBytes <$> vs).

(** A sample run: [-p proj -y] on [mixedTree], paths of six segments or
    more refused. *)
Definition sampleOptions : cliOptions :=
  {| optFollowSymlinks := false; optMaxDepth := None; optJson := false; optYes := true |}.

Definition sampleTiming : timing :=
  {| scanRounds := 7; scanScheds := []; measureRounds := 7; measureScheds := λ _, [];
     sizeSched := [0]; deleteSched := [1; 0] |}.

Definition sampleDisk : list path :=
  [ ["proj"; "node_modules"]; ["proj"; "node_modules"; "dep"];
    ["proj"; "b"; "c"; "node_modules"]; ["proj"; "b"] ].
(** * Theorems *)

(** ** Facts about the executor *)

Section ExecutorFacts.
Context {St R E : Type}.
Variable tasks : list (task St R E).

Lemma busyCount_app (ws ws' : list (wstate St R E)) :
  busyCount (ws ++ ws') = busyCount ws + busyCount ws'.
Proof. unfold busyCount. by rewrite filter_app, length_app. Qed.

Lemma busyCount_le (ws : list (wstate St R E)) : busyCount ws ≤ length ws.
Proof. apply length_filter. Qed.

Lemma busyCount_insert (ws : list (wstate St R E)) w x y :
  ws !! w = Some x →
  busyCount (<[w := y]> ws) + (if isBusy x then 1 else 0)
  = busyCount ws + (if isBusy y then 1 else 0).
Proof.
  revert w. induction ws as [|a ws IH]; intros [|w] Hw; simplify_eq/=.
  - unfold busyCount. rewrite !filter_cons.
    destruct (isBusy x), (isBusy y); repeat case_decide; simpl; try congruence; lia.
  - specialize (IH w Hw). unfold busyCount in *. rewrite !filter_cons.
    case_decide; simpl; lia.
Qed.

Lemma wf_fresh s : wf tasks (fresh tasks s).
Proof.
  split; simpl.
  - by rewrite fmap_replicate.
  - by rewrite length_replicate.
  - lia.
  - done.
  - intros i. rewrite lookup_replicate. split; [intros [_ ?]; lia | intros [_ ?]; done].
  - intros w i pr Hw. by rewrite lookup_nil in Hw.
  - intros i pr Hi. apply lookup_replicate in Hi as [? _]. done.
  - intros w w' i pr pr' Hw. by rewrite lookup_nil in Hw.
  - intros i x. split.
    + intros Hi. apply lookup_replicate in Hi as [? _]. done.
    + intros Hi. by apply elem_of_nil in Hi.
  - intros i x Hi. by apply elem_of_nil in Hi.
  - constructor.
  - done.
Qed.

Lemma wf_lt p w i pr :
  wf tasks p → workers p !! w = Some (Busy i pr) → i < index p ∧ i < length tasks.
Proof.
  intros Hp Hw. pose proof (wf_busy _ _ Hp _ _ _ Hw) as Hi.
  assert (i < length tasks) by (rewrite <- (wf_track _ _ Hp); by eapply lookup_lt_Some).
  split; [|done]. destruct (decide (index p ≤ i)) as [Hle|]; [|lia].
  assert (track p !! i = Some Waiting) by (apply (wf_waiting _ _ Hp); lia).
  congruence.
Qed.

(** A worker slot is added in the exited state. *)
Lemma wf_spare p : wf tasks p → wf tasks (setWorkers (workers p ++ [Exited]) p).
Proof.
  intros Hp. destruct Hp; split; simpl; try done.
  - intros w i pr Hw. apply lookup_app_Some in Hw as [Hw|[_ Hw]]; [eauto|].
    by destruct (w - length (workers p)).
  - intros i pr Hi. destruct (wf_running0 _ _ Hi) as [w Hw].
    exists w. by apply lookup_app_l_Some.
  - intros w w' i pr pr' Hw Hw'.
    apply lookup_app_Some in Hw as [Hw|[_ Hw]]; [|by destruct (w - length (workers p))].
    apply lookup_app_Some in Hw' as [Hw'|[_ Hw']]; [|by destruct (w' - length (workers p))].
    eauto.
  - rewrite busyCount_app. change (busyCount [Exited]) with 0. lia.
Qed.

(** An exited worker slot goes through the loop head. *)
Lemma wf_again p w :
  wf tasks p → workers p !! w = Some Exited → wf tasks (again tasks w p).
Proof.
  intros Hp Hw. unfold again, loopHead.
  destruct (tasks !! index p) as [t|] eqn:Ht.
  2: { unfold setWorkers. rewrite list_insert_id by done. by destruct p. }
  destruct (t (store p)) as [s pr] eqn:Hts.
  assert (index p < length tasks) as Hlt by (by eapply lookup_lt_Some).
  assert (track p !! index p = Some Waiting) as Hwait
    by (apply (wf_waiting _ _ Hp); lia).
  assert (w < length (workers p)) as Hwlt by (by eapply lookup_lt_Some).
  destruct Hp; split; simpl.
  - rewrite list_fmap_insert. simpl. rewrite list_insert_id; [done|].
    by rewrite list_lookup_fmap, Hwait.
  - by rewrite length_insert.
  - lia.
  - change (0 :: seq 1 (index p)) with (seq 0 (S (index p))).
    by rewrite seq_S, wf_started0.
  - intros i. rewrite list_lookup_insert_Some, wf_waiting0. split.
    + intros [(_ & ? & _)|[? ?]]; [done|lia].
    + intros ?. right. split; lia.
  - intros w1 i pri Hw1. apply list_lookup_insert_Some in Hw1 as [(-> & Heq & _)|[Hne Hw1]].
    + simplify_eq. apply list_lookup_insert_eq. lia.
    + rewrite list_lookup_insert_ne; [eauto|].
      intros <-. apply wf_busy0 in Hw1. congruence.
  - intros i pri Hi. apply list_lookup_insert_Some in Hi as [(<- & Heq & _)|[Hne Hi]].
    + simplify_eq. exists w. by apply list_lookup_insert_eq.
    + destruct (wf_running0 _ _ Hi) as [w1 Hw1]. exists w1.
      rewrite list_lookup_insert_ne; [done|]. intros <-. congruence.
  - intros w1 w2 i pr1 pr2 H1 H2.
    apply list_lookup_insert_Some in H1 as [(<- & Heq1 & _)|[Hne1 H1]];
    apply list_lookup_insert_Some in H2 as [(<- & Heq2 & _)|[Hne2 H2]];
      simplify_eq; try done.
    + apply wf_busy0 in H2. congruence.
    + apply wf_busy0 in H1. congruence.
    + eauto.
  - intros i x. rewrite <- wf_done0, list_lookup_insert_Some. split.
    + intros [(_ & ? & _)|[_ ?]]; done.
    + intros Hi. right. split; [|done]. intros <-. congruence.
  - done.
  - done.
  - pose proof (busyCount_insert (workers p) w Exited (Busy (index p) pr) Hw) as Hc.
    simpl in Hc. lia.
Qed.

(** The task of a busy worker settles: its slot is written and the
    worker is, for a moment, in neither state. *)
Lemma wf_retire p w i pr x :
  wf tasks p → workers p !! w = Some (Busy i pr) → x ≠ Hole →
  wf tasks (setWorkers (<[w := Exited]> (workers p)) (fill i x p)).
Proof.
  intros Hp Hw Hx. destruct (wf_lt _ _ _ _ Hp Hw) as [Hlt HltN].
  pose proof (wf_busy _ _ Hp _ _ _ Hw) as Hrun.
  assert (∀ y, (i, y) ∉ settled p) as Hfresh.
  { intros y Hy. apply (wf_done _ _ Hp) in Hy. congruence. }
  destruct Hp; split; simpl.
  - by rewrite list_fmap_insert, wf_results0.
  - by rewrite length_insert.
  - done.
  - done.
  - intros j. rewrite list_lookup_insert_Some, wf_waiting0. split.
    + intros [(_ & ? & _)|[? ?]]; [done|lia].
    + intros ?. right. split; lia.
  - intros w1 j prj Hw1. apply list_lookup_insert_Some in Hw1 as [(_ & ? & _)|[Hne Hw1]]; [done|].
    rewrite list_lookup_insert_ne; [eauto|]. intros <-. eauto.
  - intros j prj Hj. apply list_lookup_insert_Some in Hj as [(_ & ? & _)|[Hne Hj]]; [done|].
    destruct (wf_running0 _ _ Hj) as [w1 Hw1]. exists w1.
    rewrite list_lookup_insert_ne; [done|]. intros <-. congruence.
  - intros w1 w2 j pr1 pr2 H1 H2.
    apply list_lookup_insert_Some in H1 as [(_ & ? & _)|[_ H1]]; [done|].
    apply list_lookup_insert_Some in H2 as [(_ & ? & _)|[_ H2]]; [done|]. eauto.
  - intros j y. rewrite elem_of_app, list_elem_of_singleton, <- wf_done0, list_lookup_insert_Some.
    split.
    + intros [(<- & Heq & _)|[_ ?]]; [right; congruence | by left].
    + intros [Hj|Heq].
      * right. split; [|done]. intros <-. congruence.
      * simplify_eq. left. rewrite wf_track0. done.
  - intros j y. rewrite elem_of_app, list_elem_of_singleton.
    intros [Hj|Heq]; [eauto | congruence].
  - rewrite fmap_app. simpl. apply NoDup_app. split; [done|]. split; [|apply NoDup_singleton].
    intros j Hj Hji. apply list_elem_of_singleton in Hji as ->.
    apply list_elem_of_fmap in Hj as ([j y] & ? & Hj). simplify_eq/=. by eapply Hfresh.
  - rewrite length_app. simpl.
    pose proof (busyCount_insert (workers p) w (Busy i pr) Exited Hw) as Hc.
    simpl in Hc. lia.
Qed.

(** The continuation of an [await] has run. *)
Lemma wf_advance p w i upd k :
  wf tasks p → workers p !! w = Some (Busy i (Await upd k)) →
  wf tasks (advance w i upd k p).
Proof.
  intros Hp Hw. destruct (wf_lt _ _ _ _ Hp Hw) as [Hlt HltN].
  pose proof (wf_busy _ _ Hp _ _ _ Hw) as Hrun.
  assert (w < length (workers p)) as Hwlt by (by eapply lookup_lt_Some).
  destruct Hp; split; simpl.
  - rewrite list_fmap_insert. simpl. rewrite list_insert_id; [done|].
    by rewrite list_lookup_fmap, Hrun.
  - by rewrite length_insert.
  - done.
  - done.
  - intros j. rewrite list_lookup_insert_Some, wf_waiting0. split.
    + intros [(_ & ? & _)|[? ?]]; [done|lia].
    + intros ?. right. split; lia.
  - intros w1 j prj Hw1. apply list_lookup_insert_Some in Hw1 as [(-> & Heq & _)|[Hne Hw1]].
    + simplify_eq. apply list_lookup_insert_eq. lia.
    + rewrite list_lookup_insert_ne; [eauto|]. intros <-. eauto.
  - intros j prj Hj. apply list_lookup_insert_Some in Hj as [(<- & Heq & _)|[Hne Hj]].
    + simplify_eq. exists w. by apply list_lookup_insert_eq.
    + destruct (wf_running0 _ _ Hj) as [w1 Hw1]. exists w1.
      rewrite list_lookup_insert_ne; [done|]. intros <-. congruence.
  - intros w1 w2 j pr1 pr2 H1 H2.
    apply list_lookup_insert_Some in H1 as [(<- & Heq1 & _)|[Hne1 H1]];
    apply list_lookup_insert_Some in H2 as [(<- & Heq2 & _)|[Hne2 H2]];
      simplify_eq; try done.
    + exfalso. apply Hne2. eauto.
    + exfalso. apply Hne1. eauto.
    + eauto.
  - intros j y. rewrite <- wf_done0, list_lookup_insert_Some. split.
    + intros [(_ & ? & _)|[_ ?]]; done.
    + intros Hj. right. split; [|done]. intros <-. congruence.
  - done.
  - done.
  - pose proof (busyCount_insert (workers p) w _ (Busy i (k (store p))) Hw) as Hc.
    simpl in Hc. lia.
Qed.

Lemma launch_spare p :
  launch tasks p = again tasks (length (workers p)) (setWorkers (workers p ++ [Exited]) p).
Proof.
  unfold launch, again, loopHead. simpl.
  destruct (tasks !! index p) as [t|]; [destruct (t (store p)) as [s pr]|];
    unfold setWorkers; simpl; f_equal;
    by rewrite <- (Nat.add_0_r (length (workers p))), insert_app_r.
Qed.

Lemma resume_settle p w i x :
  again tasks w (fill i x p)
  = again tasks w (setWorkers (<[w := Exited]> (workers p)) (fill i x p)).
Proof.
  unfold again, loopHead. simpl.
  destruct (tasks !! index p) as [t|]; [destruct (t (store p)) as [s pr]|];
    unfold setWorkers; simpl; by rewrite list_insert_insert_eq.
Qed.

Lemma index_again p w : index p ≤ index (again tasks w p).
Proof.
  unfold again, loopHead.
  destruct (tasks !! index p) as [t|]; [destruct (t (store p)) as [s pr]|]; simpl; lia.
Qed.

Lemma exhausted_again p w :
  wf tasks p → w < length (workers p) →
  (∀ w', w' ≠ w → workers p !! w' = Some Exited → index p = length tasks) →
  exhausted tasks (again tasks w p).
Proof.
  intros Hp Hw Hex w' Hw'. unfold again, loopHead in *.
  destruct (tasks !! index p) as [t|] eqn:Ht.
  - destruct (t (store p)) as [s pr]. simpl in *.
    apply list_lookup_insert_Some in Hw' as [(_ & ? & _)|[Hne Hw']]; [done|].
    apply Hex in Hw'; [|done]. apply lookup_lt_Some in Ht. lia.
  - simpl in *. apply lookup_ge_None in Ht. pose proof (wf_index _ _ Hp). lia.
Qed.

Lemma sound_fresh s : sound tasks (fresh tasks s).
Proof. split; [apply wf_fresh|]. intros w Hw. simpl in Hw. by rewrite lookup_nil in Hw. Qed.

Lemma sound_launch p : sound tasks p → sound tasks (launch tasks p).
Proof.
  intros [Hp Hex]. rewrite launch_spare. pose proof (wf_spare _ Hp) as Hq. split.
  - apply wf_again; [done|]. simpl. by rewrite lookup_app_r, Nat.sub_diag.
  - apply exhausted_again; [done|simpl; rewrite length_app; simpl; lia|].
    simpl. intros w' Hne Hw'.
    apply lookup_app_Some in Hw' as [Hw'|[Hle Hw']]; [by apply Hex in Hw'|].
    destruct (w' - length (workers p)) as [|n] eqn:Hn; [lia|done].
Qed.

Lemma sound_resume p w : sound tasks p → sound tasks (resume tasks w p).
Proof.
  intros [Hp Hex]. unfold resume.
  destruct (workers p !! w) as [[i [v|e|upd k]|]|] eqn:Hw; [..|done|done].
  - rewrite resume_settle.
    assert (wf tasks (setWorkers (<[w:=Exited]> (workers p)) (fill i (Value v) p))) as Hq
      by (by eapply wf_retire).
    assert (w < length (workers p)) by (by eapply lookup_lt_Some).
    split.
    + apply wf_again; [done|]. simpl. by apply list_lookup_insert_eq.
    + apply exhausted_again; [done|simpl; by rewrite length_insert|].
      simpl. intros w' Hne Hw'. rewrite list_lookup_insert_ne in Hw' by done. eauto.
  - rewrite resume_settle.
    assert (wf tasks (setWorkers (<[w:=Exited]> (workers p)) (fill i (Caught e) p))) as Hq
      by (by eapply wf_retire).
    assert (w < length (workers p)) by (by eapply lookup_lt_Some).
    split.
    + apply wf_again; [done|]. simpl. by apply list_lookup_insert_eq.
    + apply exhausted_again; [done|simpl; by rewrite length_insert|].
      simpl. intros w' Hne Hw'. rewrite list_lookup_insert_ne in Hw' by done. eauto.
  - split; [by apply wf_advance|].
    intros w' Hw'. simpl in Hw'.
    apply list_lookup_insert_Some in Hw' as [(_ & ? & _)|[_ Hw']]; [done|]. eauto.
Qed.

Lemma sound_exec sched p : sound tasks p → sound tasks (exec tasks sched p).
Proof.
  revert p. induction sched as [|w sched IH]; intros p Hp; [done|].
  simpl. apply IH. by apply sound_resume.
Qed.

Lemma sound_start c s : sound tasks (start tasks c s).
Proof.
  unfold start. induction (Nat.min c (length tasks)) as [|n IH]; simpl.
  - apply sound_fresh.
  - by apply sound_launch.
Qed.

Lemma exec_app sched sched' p :
  exec tasks (sched ++ sched') p = exec tasks sched' (exec tasks sched p).
Proof. apply fold_left_app. Qed.

Lemma length_workers_again p w :
  length (workers (again tasks w p)) = length (workers p).
Proof.
  unfold again, loopHead.
  destruct (tasks !! index p) as [t|]; [destruct (t (store p)) as [s pr]|];
    simpl; by rewrite length_insert.
Qed.

Lemma length_workers_resume p w :
  length (workers (resume tasks w p)) = length (workers p).
Proof.
  unfold resume. destruct (workers p !! w) as [[i [v|e|upd k]|]|]; try done.
  - by rewrite length_workers_again.
  - by rewrite length_workers_again.
  - simpl. by rewrite length_insert.
Qed.

Lemma length_workers_exec sched p :
  length (workers (exec tasks sched p)) = length (workers p).
Proof.
  revert p. induction sched as [|w sched IH]; intros p; [done|].
  simpl. by rewrite IH, length_workers_resume.
Qed.

Lemma length_workers_start c s :
  length (workers (start tasks c s)) = Nat.min c (length tasks).
Proof.
  unfold start. induction (Nat.min c (length tasks)) as [|n IH]; [done|].
  simpl. rewrite launch_spare, length_workers_again. simpl.
  rewrite length_app, IH. simpl. lia.
Qed.

Lemma workers_again_other p w w' :
  w' ≠ w → workers (again tasks w p) !! w' = workers p !! w'.
Proof.
  intros Hne. unfold again, loopHead.
  destruct (tasks !! index p) as [t|]; [destruct (t (store p)) as [s pr]|];
    simpl; by rewrite list_lookup_insert_ne.
Qed.

Lemma workers_resume_other p w w' :
  w' ≠ w → workers (resume tasks w p) !! w' = workers p !! w'.
Proof.
  intros Hne. unfold resume.
  destruct (workers p !! w) as [[i [v|e|upd k]|]|]; try done.
  - by rewrite workers_again_other.
  - by rewrite workers_again_other.
  - simpl. by rewrite list_lookup_insert_ne.
Qed.

Lemma workers_turns_other m p w w' :
  w' ≠ w → workers (exec tasks (replicate m w) p) !! w' = workers p !! w'.
Proof.
  intros Hne. revert p. induction m as [|m IH]; intros p; [done|].
  simpl. by rewrite IH, workers_resume_other.
Qed.

(** The sequential tail of a run is itself a schedule. *)
Lemma finish_exec pr w p : ∃ m, finish tasks pr w p = exec tasks (replicate m w) p.
Proof.
  revert p. induction pr as [v|e|upd k IH]; intros p; simpl.
  - by exists 1.
  - by exists 1.
  - destruct (IH (store p) (resume tasks w p)) as [m Hs].
    exists (S m). by rewrite Hs.
Qed.

Lemma alone_exec n w p : ∃ m, alone tasks n w p = exec tasks (replicate m w) p.
Proof.
  revert p. induction n as [|n IH]; intros p; simpl.
  - by exists 0.
  - destruct (workers p !! w) as [[i pr|]|]; [|by exists 0..].
    destruct (finish_exec pr w p) as [m1 H1].
    destruct (IH (finish tasks pr w p)) as [m2 H2].
    exists (m1 + m2). by rewrite replicate_add, exec_app, <- H1, H2.
Qed.

Lemma sweep_exec ws p :
  ∃ sched, fold_left (λ q w, alone tasks (S (length tasks)) w q) ws p = exec tasks sched p.
Proof.
  revert p. induction ws as [|w ws IH]; intros p.
  - by exists [].
  - cbn [fold_left]. destruct (alone_exec (S (length tasks)) w p) as [m1 H1].
    destruct (IH (alone tasks (S (length tasks)) w p)) as [s2 H2].
    exists (replicate m1 w ++ s2). by rewrite exec_app, <- H1, H2.
Qed.

Lemma drain_exec p : ∃ sched, drain tasks p = exec tasks sched p.
Proof. apply sweep_exec. Qed.

Lemma finish_spec pr w i p :
  wf tasks p → workers p !! w = Some (Busy i pr) →
  workers (finish tasks pr w p) !! w = Some Exited
  ∨ index p < index (finish tasks pr w p).
Proof.
  revert p. induction pr as [v|e|upd k IH]; intros p Hp Hw; simpl.
  - unfold resume. rewrite Hw. unfold again, loopHead. simpl.
    assert (w < length (workers p)) by (by eapply lookup_lt_Some).
    destruct (tasks !! index p) as [t|]; [destruct (t (store p)) as [s pr]|]; simpl.
    + right. lia.
    + left. by apply list_lookup_insert_eq.
  - unfold resume. rewrite Hw. unfold again, loopHead. simpl.
    assert (w < length (workers p)) by (by eapply lookup_lt_Some).
    destruct (tasks !! index p) as [t|]; [destruct (t (store p)) as [s pr]|]; simpl.
    + right. lia.
    + left. by apply list_lookup_insert_eq.
  - assert (resume tasks w p = advance w i upd k p) as Hr by (unfold resume; by rewrite Hw).
    rewrite Hr. destruct (IH (store p) (advance w i upd k p)) as [Hq|Hq].
    + by apply wf_advance.
    + simpl. apply list_lookup_insert_eq. by eapply lookup_lt_Some.
    + by left.
    + right. done.
Qed.

Lemma alone_exits n w p :
  sound tasks p → length tasks - index p < n →
  ∀ i pr, workers (alone tasks n w p) !! w ≠ Some (Busy i pr).
Proof.
  revert p. induction n as [|n IH]; intros p Hp Hn i pr; [lia|].
  simpl. destruct (workers p !! w) as [[j prj|]|] eqn:Hw; [|congruence..].
  assert (sound tasks (finish tasks prj w p)) as Hq.
  { destruct (finish_exec prj w p) as [m ->]. by apply sound_exec. }
  destruct (finish_spec prj w j p (proj1 Hp) Hw) as [Hex|Hlt].
  - destruct n; simpl; rewrite ?Hex; congruence.
  - apply IH; [done|]. pose proof (wf_index _ _ (proj1 Hq)). lia.
Qed.

Lemma sweep_exits ws p :
  sound tasks p →
  let q := fold_left (λ q w, alone tasks (S (length tasks)) w q) ws p in
  ∀ w, (w ∈ ws ∨ ∀ i pr, workers p !! w ≠ Some (Busy i pr)) →
       ∀ i pr, workers q !! w ≠ Some (Busy i pr).
Proof.
  revert p. induction ws as [|a ws IH]; intros p Hp q w Hw.
  - destruct Hw as [Hw|Hw]; [by apply elem_of_nil in Hw | apply Hw].
  - subst q. cbn [fold_left].
    assert (sound tasks (alone tasks (S (length tasks)) a p)) as Hq.
    { destruct (alone_exec (S (length tasks)) a p) as [m ->]. by apply sound_exec. }
    apply IH; [done|].
    destruct (decide (w = a)) as [->|Hne].
    + right. apply alone_exits; [done|lia].
    + destruct Hw as [Hw|Hw].
      * left. apply elem_of_cons in Hw as [?|?]; done.
      * right. destruct (alone_exec (S (length tasks)) a p) as [m ->].
        by rewrite workers_turns_other.
Qed.

Lemma drain_allExited p : sound tasks p → allExited (drain tasks p).
Proof.
  intros Hp w ws Hw. destruct ws as [i pr|]; [|done]. exfalso.
  eapply (sweep_exits (seq 0 (length (workers p))) p Hp w); [|exact Hw].
  left. apply elem_of_seq. apply lookup_lt_Some in Hw.
  destruct (drain_exec p) as [sched Hs]. rewrite Hs, length_workers_exec in Hw. lia.
Qed.

Lemma sound_runPool sched c s : sound tasks (runPool tasks sched c s).
Proof.
  unfold runPool. destruct (drain_exec (exec tasks sched (start tasks c s))) as [sc ->].
  apply sound_exec, sound_exec, sound_start.
Qed.

Lemma allExited_runPool sched c s : allExited (runPool tasks sched c s).
Proof. apply drain_allExited, sound_exec, sound_start. Qed.

Lemma length_workers_runPool sched c s :
  length (workers (runPool tasks sched c s)) = Nat.min c (length tasks).
Proof.
  unfold runPool. destruct (drain_exec (exec tasks sched (start tasks c s))) as [sc ->].
  by rewrite !length_workers_exec, length_workers_start.
Qed.

(** Once every worker has left, every task has settled and [results]
    holds exactly what the tasks settled to. *)
Lemma sound_final p :
  sound tasks p → allExited p → (length tasks = 0 ∨ 0 < length (workers p)) →
  index p = length tasks ∧ track p = Done <$> results p ∧
  (Hole ∉ results p) ∧ length (results p) = length tasks.
Proof.
  intros [Hp Hex] Hall Hk.
  assert (index p = length tasks) as Hidx.
  { destruct Hk as [HN|Hk]; [pose proof (wf_index _ _ Hp); lia|].
    destruct (lookup_lt_is_Some_2 (workers p) 0 Hk) as [ws Hws].
    pose proof (Hall _ _ Hws) as ->. eauto. }
  assert (∀ i g, track p !! i = Some g → ∃ x, g = Done x) as Hdone.
  { intros i [|pr|x] Hi; [| |eauto].
    - apply (wf_waiting _ _ Hp) in Hi. lia.
    - destruct (wf_running _ _ Hp _ _ Hi) as [w Hw]. by apply Hall in Hw. }
  split; [done|]. split; [|split].
  - rewrite (wf_results _ _ Hp). apply list_eq. intros i.
    rewrite !list_lookup_fmap. destruct (track p !! i) as [g|] eqn:Hi; [|done].
    destruct (Hdone _ _ Hi) as [x ->]. done.
  - intros Hin. apply list_elem_of_lookup in Hin as [i Hi].
    rewrite (wf_results _ _ Hp), list_lookup_fmap in Hi.
    destruct (track p !! i) as [g|] eqn:Hg; [|done].
    destruct (Hdone _ _ Hg) as [x ->]. simpl in Hi. simplify_eq.
    apply (wf_done _ _ Hp) in Hg. by apply (wf_filled _ _ Hp) in Hg.
  - by rewrite (wf_results _ _ Hp), length_fmap, (wf_track _ _ Hp).
Qed.

Lemma runPool_final sched c s :
  1 ≤ c →
  let p := runPool tasks sched c s in
  index p = length tasks ∧ track p = Done <$> results p ∧
  (Hole ∉ results p) ∧ length (results p) = length tasks.
Proof.
  intros Hc p. apply sound_final.
  - apply sound_runPool.
  - apply allExited_runPool.
  - unfold p. rewrite length_workers_runPool. lia.
Qed.

(** *** The proof rule for cooperative tasks

    A property [G] of the shared state and of the progress of all tasks
    that every uninterrupted piece of every task preserves holds when
    [runParallel] returns, under every schedule. *)
Section Rule.
Variable G : St → list (progress St R E) → Prop.
Hypothesis G_invoke : ∀ s σ i t,
  tasks !! i = Some t → σ !! i = Some Waiting → G s σ →
  G (t s).1 (<[i := Running (t s).2]> σ).
Hypothesis G_await : ∀ s σ i upd k,
  σ !! i = Some (Running (Await upd k)) → G s σ →
  G (upd s) (<[i := Running (k s)]> σ).
Hypothesis G_return : ∀ s σ i v,
  σ !! i = Some (Running (Ret v)) → G s σ → G s (<[i := Done (Value v)]> σ).
Hypothesis G_throw : ∀ s σ i e,
  σ !! i = Some (Running (Throw e)) → G s σ → G s (<[i := Done (Caught e)]> σ).

Abbreviation holds p := (G (store p) (track p)).

Lemma holds_again p w :
  wf tasks p → holds p → holds (again tasks w p).
Proof using G_invoke.
  intros Hp HG. unfold again, loopHead in *.
  destruct (tasks !! index p) as [t|] eqn:Ht; [|done].
  pose proof (G_invoke (store p) (track p) (index p) t Ht) as HI.
  destruct (t (store p)) as [s pr]. simpl in *. apply HI; [|done].
  apply (wf_waiting _ _ Hp). apply lookup_lt_Some in Ht.
  pose proof (wf_index _ _ Hp). lia.
Qed.

Lemma holds_launch p : sound tasks p → holds p → holds (launch tasks p).
Proof using G_invoke.
  intros [Hp _] HG. rewrite launch_spare. apply holds_again; [by apply wf_spare|done].
Qed.

Lemma holds_resume p w : sound tasks p → holds p → holds (resume tasks w p).
Proof using G_invoke G_await G_return G_throw.
  intros [Hp _] HG. unfold resume.
  destruct (workers p !! w) as [[i [v|e|upd k]|]|] eqn:Hw; [..|done|done].
  - rewrite resume_settle. apply holds_again; [by eapply wf_retire|].
    simpl. apply G_return; [|done]. by eapply wf_busy.
  - rewrite resume_settle. apply holds_again; [by eapply wf_retire|].
    simpl. apply G_throw; [|done]. by eapply wf_busy.
  - simpl. apply G_await; [|done]. by eapply wf_busy.
Qed.

Lemma holds_exec sched p : sound tasks p → holds p → holds (exec tasks sched p).
Proof using G_invoke G_await G_return G_throw.
  revert p. induction sched as [|w sched IH]; intros p Hp HG; [done|].
  simpl. apply IH; [by apply sound_resume | by apply holds_resume].
Qed.

Lemma holds_start c s :
  G s (replicate (length tasks) Waiting) → holds (start tasks c s).
Proof using G_invoke.
  intros HG. unfold start. induction (Nat.min c (length tasks)) as [|n IH]; [done|].
  simpl. apply holds_launch; [|done].
  clear IH. induction n; simpl; [apply sound_fresh | by apply sound_launch].
Qed.

Lemma runParallel_rule sched c s :
  1 ≤ c → G s (replicate (length tasks) Waiting) →
  let '(s', rs) := runParallel tasks sched c s in
  length rs = length tasks ∧ (Hole ∉ rs) ∧ G s' (Done <$> rs).
Proof using G_invoke G_await G_return G_throw.
  intros Hc HG. unfold runParallel.
  destruct (runPool_final sched c s Hc) as (_ & Htr & Hh & Hlen).
  split; [done|]. split; [done|]. rewrite <- Htr.
  unfold runPool. destruct (drain_exec (exec tasks sched (start tasks c s))) as [sc ->].
  apply holds_exec; [apply sound_exec, sound_start|].
  apply holds_exec; [apply sound_start|]. by apply holds_start.
Qed.

End Rule.

(** What every task settles to is what its slot holds. *)
Lemma runParallel_settles (Q : nat → slot R E → Prop) sched c s :
  1 ≤ c →
  (∀ i t s', tasks !! i = Some t → settlesIn (Q i) (t s').2) →
  let rs := (runParallel tasks sched c s).2 in
  length rs = length tasks ∧
  ∀ i, i < length tasks → ∃ x, rs !! i = Some x ∧ x ≠ Hole ∧ Q i x.
Proof.
  intros Hc HQ.
  pose (G := λ (_ : St) (σ : list (progress St R E)),
          ∀ i g, σ !! i = Some g →
                 match g with
                 | Waiting => True
                 | Running pr => settlesIn (Q i) pr
                 | Done x => Q i x
                 end).
  pose proof (runParallel_rule G) as Hrule.
  specialize (Hrule
    ltac:(intros s1 σ i t Ht Hi HG j g Hj;
          apply list_lookup_insert_Some in Hj as [(<- & <- & _)|[_ Hj]];
          [by eapply HQ | by apply HG])
    ltac:(intros s1 σ i upd k Hi HG j g Hj;
          apply list_lookup_insert_Some in Hj as [(<- & <- & _)|[_ Hj]];
          [specialize (HG _ _ Hi); simpl in HG; by inversion HG | by apply HG])
    ltac:(intros s1 σ i v Hi HG j g Hj;
          apply list_lookup_insert_Some in Hj as [(<- & <- & _)|[_ Hj]];
          [specialize (HG _ _ Hi); simpl in HG; by inversion HG | by apply HG])
    ltac:(intros s1 σ i e Hi HG j g Hj;
          apply list_lookup_insert_Some in Hj as [(<- & <- & _)|[_ Hj]];
          [specialize (HG _ _ Hi); simpl in HG; by inversion HG | by apply HG])
    sched c s Hc
    ltac:(intros j g Hj; by apply lookup_replicate in Hj as [-> _])).
  destruct (runParallel tasks sched c s) as [s' rs]. simpl.
  destruct Hrule as (Hlen & Hh & HG). split; [done|].
  intros i Hi. rewrite <- Hlen in Hi.
  destruct (lookup_lt_is_Some_2 rs i Hi) as [x Hx]. exists x. split; [done|]. split.
  - intros ->. apply Hh. by eapply list_elem_of_lookup_2.
  - apply (HG i (Done x)). by rewrite list_lookup_fmap, Hx.
Qed.

(** Tasks whose outcome does not depend on the schedule: the array is
    the list of their outcomes. *)
Lemma runParallel_outcomes (outs : list (slot R E)) sched c s :
  1 ≤ c →
  Forall2 (λ t x, ∀ s', settlesIn (eq x) (t s').2) tasks outs →
  (runParallel tasks sched c s).2 = outs.
Proof.
  intros Hc Hout.
  destruct (runParallel_settles (λ i x, outs !! i = Some x) sched c s Hc) as [Hlen Hs].
  { intros i t s' Ht.
    destruct (Forall2_lookup_l _ _ _ _ _ Hout Ht) as (x & Hx & Hset).
    clear -Hx Hset. induction (Hset s') as [v ->|e ->|upd k _ IH]; by constructor. }
  apply list_eq. intros i. destruct (decide (i < length tasks)) as [Hi|Hi].
  - destruct (Hs i Hi) as (x & -> & _ & Hx). done.
  - rewrite !lookup_ge_None_2; [done| |lia].
    rewrite <- (Forall2_length _ _ _ Hout). lia.
Qed.

(** Tasks that never write leave the shared state as it was. *)
Lemma runParallel_quiet sched c s :
  1 ≤ c →
  (∀ i t s', tasks !! i = Some t → (t s').1 = s' ∧ quiet (t s').2) →
  (runParallel tasks sched c s).1 = s.
Proof.
  intros Hc Hq.
  pose (G := λ (s' : St) (σ : list (progress St R E)),
          s' = s ∧ ∀ i pr, σ !! i = Some (Running pr) → quiet pr).
  unshelve epose proof (runParallel_rule G _ _ _ _ sched c s Hc _) as Hrule.
  - intros s1 σ i t Ht Hi [-> HG]. destruct (Hq i t s Ht) as [Hs Hqt].
    split; [done|]. intros j pr Hj.
    apply list_lookup_insert_Some in Hj as [(<- & Heq & _)|[_ Hj]];
      [by simplify_eq | by eapply HG].
  - intros s1 σ i upd k Hi [-> HG]. specialize (HG _ _ Hi) as Hk.
    inversion Hk as [| |? ? Hupd Hkq]; subst.
    split; [done|]. intros j pr Hj.
    apply list_lookup_insert_Some in Hj as [(<- & Heq & _)|[_ Hj]];
      [by simplify_eq | by eapply HG].
  - intros s1 σ i v Hi [-> HG]. split; [done|]. intros j pr Hj.
    apply list_lookup_insert_Some in Hj as [(<- & Heq & _)|[_ Hj]];
      [done | by eapply HG].
  - intros s1 σ i e Hi [-> HG]. split; [done|]. intros j pr Hj.
    apply list_lookup_insert_Some in Hj as [(<- & Heq & _)|[_ Hj]];
      [done | by eapply HG].
  - split; [done|]. intros j pr Hj. by apply lookup_replicate in Hj as [? _].
  - destruct (runParallel tasks sched c s) as [s' rs]. simpl. apply Hrule.
Qed.

Lemma settlesIn_impl (P Q : slot R E → Prop) (pr : promise St R E) :
  (∀ x, P x → Q x) → settlesIn P pr → settlesIn Q pr.
Proof. intros HPQ Hpr. induction Hpr; constructor; auto. Qed.

Lemma slots_values (rs : list (slot R E)) (P : nat → R → Prop) :
  (∀ i, i < length rs → ∃ v, rs !! i = Some (Value v) ∧ P i v) →
  ∃ vs, rs = Value <$> vs ∧ ∀ i v, vs !! i = Some v → P i v.
Proof.
  revert P. induction rs as [|x rs IH]; intros P Hrs.
  - exists []. split; [done|]. intros i v Hi. by rewrite lookup_nil in Hi.
  - destruct (Hrs 0 ltac:(simpl; lia)) as (v & Hv & HP). simplify_eq/=.
    destruct (IH (λ i, P (S i))) as (vs & -> & Hvs).
    { intros i Hi. apply (Hrs (S i)). simpl. lia. }
    exists (v :: vs). split; [done|]. intros [|i] w Hw; simplify_eq/=; eauto.
Qed.

Lemma sound_launches j s : sound tasks (Nat.iter j (launch tasks) (fresh tasks s)).
Proof. induction j; simpl; [apply sound_fresh | by apply sound_launch]. Qed.

Lemma length_workers_launches j s :
  length (workers (Nat.iter j (launch tasks) (fresh tasks s))) = j.
Proof.
  induction j as [|j IH]; [done|]. simpl.
  rewrite launch_spare, length_workers_again. simpl. rewrite length_app, IH. simpl. lia.
Qed.

Lemma inFlight_busy p : wf tasks p → inFlight p = busyCount (workers p).
Proof.
  intros Hp. unfold inFlight. rewrite (wf_started _ _ Hp), length_seq.
  pose proof (wf_count _ _ Hp). lia.
Qed.

Lemma settled_all p :
  sound tasks p → allExited p → (length tasks = 0 ∨ 0 < length (workers p)) →
  (settled p).*1 ≡ₚ seq 0 (length tasks).
Proof.
  intros Hs Hall Hk. destruct (sound_final p Hs Hall Hk) as (Hidx & Htr & Hh & Hlen).
  destruct Hs as [Hp _]. apply NoDup_Permutation; [apply Hp | apply NoDup_seq |].
  intros i. rewrite elem_of_seq, list_elem_of_fmap. split.
  - intros ([j x] & -> & Hj). simpl. apply (wf_done _ _ Hp) in Hj.
    apply lookup_lt_Some in Hj. rewrite (wf_track _ _ Hp) in Hj. lia.
  - intros [_ Hi]. simpl in Hi. rewrite <- Hlen in Hi.
    destruct (lookup_lt_is_Some_2 _ _ Hi) as [x Hx]. exists (i, x). split; [done|].
    apply (wf_done _ _ Hp). by rewrite Htr, list_lookup_fmap, Hx.
Qed.

End ExecutorFacts.

(** *** The executor's contract *)

Example demo_run :
  runParallel demoTasks [1; 0; 1; 0] 2 0
  = (2, [Value 10; Caught "boom"; Value 30]).
Proof. reflexivity. Qed.

Example demo_completion_order :
  (settled (runPool demoTasks [1; 0; 1; 0] 2 0)).*1 = [1; 0; 2].
Proof. reflexivity. Qed.

(** C1.  For every batch of N tasks, every limit [c ≥ 1] and every
    schedule, [runParallel] returns (all its workers have left their
    loops, none suspended or failed) an array of length N whose slot [i]
    is filled with what task [i] settled to: [Value v] when it produced
    [v], [Caught e], the [{ error: e }] wrapper, when it threw [e];
    [Q i] is anything known about the outcome of task [i].  Every task
    settles exactly once, whatever the other tasks do. *)
Theorem runParallel_order_alignment
    {St R E : Type} (tasks : list (task St R E))
    (Q : nat → slot R E → Prop) (sched : list nat) (c : nat) (s : St) :
  1 ≤ c →
  (∀ i t s', tasks !! i = Some t → settlesIn (Q i) (t s').2) →
  let p := runPool tasks sched c s in
  runParallel tasks sched c s = (store p, results p) ∧
  allExited p ∧
  length (results p) = length tasks ∧
  (∀ i, i < length tasks → ∃ x, results p !! i = Some x ∧ x ≠ Hole ∧ Q i x) ∧
  (settled p).*1 ≡ₚ seq 0 (length tasks).
Proof.
  intros Hc HQ p. split; [done|]. split; [apply allExited_runPool|].
  destruct (runParallel_settles tasks Q sched c s Hc HQ) as [Hlen Hs].
  split; [done|]. split; [done|].
  apply settled_all.
  - apply sound_runPool.
  - apply allExited_runPool.
  - unfold p. rewrite length_workers_runPool. lia.
Qed.

Lemma runParallel_order_alignment_witness :
  let p := runPool demoTasks [1; 0; 1; 0] 2 0 in
  runParallel demoTasks [1; 0; 1; 0] 2 0 = (store p, results p) ∧
  allExited p ∧
  length (results p) = length demoTasks ∧
  (∀ i, i < length demoTasks →
        ∃ x, results p !! i = Some x ∧ x ≠ Hole ∧ demoOutcome i x) ∧
  (settled p).*1 ≡ₚ seq 0 (length demoTasks).
Proof.
  apply (runParallel_order_alignment demoTasks demoOutcome [1; 0; 1; 0] 2 0).
  - lia.
  - intros [|[|[|i]]] t s' Ht; simplify_eq/=; repeat (constructor; intros); done.
Defined.

(** C4.  At no point of a call, neither while the workers are being
    launched nor under any schedule afterwards, are more than
    [min(c, N)] tasks in flight (invoked and not yet settled); tasks are
    invoked in cursor order without a gap, no two workers hold the same
    index, and when the call returns every index [0 .. N-1] has been
    invoked exactly once. *)
Theorem runParallel_concurrency_ceiling
    {St R E : Type} (tasks : list (task St R E)) (c : nat) (s : St) :
  1 ≤ c →
  let ceiling := Nat.min c (length tasks) in
  let ok (p : pool St R E) :=
    inFlight p ≤ ceiling ∧
    started p = seq 0 (index p) ∧
    (∀ w w' i pr pr', workers p !! w = Some (Busy i pr) →
                      workers p !! w' = Some (Busy i pr') → w = w') in
  (∀ j, j ≤ ceiling → ok (Nat.iter j (launch tasks) (fresh tasks s))) ∧
  (∀ sched, ok (exec tasks sched (start tasks c s))) ∧
  (∀ sched, ok (runPool tasks sched c s) ∧
            started (runPool tasks sched c s) = seq 0 (length tasks)).
Proof.
  intros Hc ceiling ok.
  assert (∀ p, sound tasks p → length (workers p) ≤ ceiling → ok p) as Hok.
  { intros p [Hp _] Hk. split; [|split].
    - rewrite (inFlight_busy tasks p Hp). pose proof (busyCount_le (workers p)). lia.
    - apply Hp.
    - apply Hp. }
  split; [|split].
  - intros j Hj. apply Hok; [apply sound_launches|].
    by rewrite length_workers_launches.
  - intros sched. apply Hok; [apply sound_exec, sound_start|].
    by rewrite length_workers_exec, length_workers_start.
  - intros sched. split.
    + apply Hok; [apply sound_runPool|]. by rewrite length_workers_runPool.
    + destruct (runPool_final tasks sched c s Hc) as (Hidx & _).
      pose proof (sound_runPool tasks sched c s) as [Hp _].
      by rewrite (wf_started _ _ Hp), Hidx.
Qed.

Lemma runParallel_concurrency_ceiling_witness :
  inFlight (exec demoTasks [1; 0] (start demoTasks 2 0)) ≤ 2 ∧
  started (runPool demoTasks [1; 0; 1; 0] 2 0) = [0; 1; 2].
Proof.
  pose proof (runParallel_concurrency_ceiling demoTasks 2 0 ltac:(lia)) as (_ & H1 & H2).
  split.
  - exact (proj1 (H1 [1; 0])).
  - exact (proj2 (H2 [1; 0; 1; 0])).
Defined.

(** ** Facts about the locator *)

Section LocatorFacts.
Variable fs : FileSystem.
Variable opts : scanOptions.

Lemma collect_values (ls : list listing) results nextLevel :
  collect (Value <$> ls) results nextLevel
  = Some (results ++ mjoin (nodeModules <$> ls), nextLevel ++ mjoin (subdirs <$> ls)).
Proof.
  revert results nextLevel. induction ls as [|r ls IH]; intros results nextLevel; simpl.
  - by rewrite !app_nil_r.
  - by rewrite IH, !app_assoc.
Qed.

Lemma fold_classify n entries b :
  fold_left (classify opts n) entries b
  = {| b_nodeModules := b_nodeModules b ++ omap (asMatch n) entries;
       b_subdirs := b_subdirs b ++ omap (asSubdir n) entries;
       b_symlinkChecks := b_symlinkChecks b ++ omap (asCheck opts n) entries |}.
Proof.
  revert b. induction entries as [|ent entries IH]; intros b; simpl.
  - rewrite !app_nil_r. by destruct b.
  - rewrite IH. unfold classify, asMatch, asSubdir, asCheck, passes.
    destruct ent as [nm [| | |]]; unfold isDirectory, isSymbolicLink; simpl;
      destruct (String.eqb nm "node_modules"); simpl;
      destruct (shouldSkipDirName nm); simpl;
      destruct (followSymlinks opts); simpl;
      rewrite <- ?app_assoc; done.
Qed.

Lemma scanDir_listed n entries :
  readdir fs (dir n) = Some entries →
  scanDir fs opts n
  = {| nodeModules := omap (asMatch n) entries;
       subdirs := omap (asSubdir n) entries
                  ++ omap (checkSymlink fs) (omap (asCheck opts n) entries) |}.
Proof. intros Hrd. unfold scanDir. rewrite Hrd, fold_classify. done. Qed.

Lemma scanDir_unlisted n : readdir fs (dir n) = None → scanDir fs opts n = nothing.
Proof. intros Hrd. unfold scanDir. by rewrite Hrd. Qed.

Lemma readEntries_settles n :
  settlesIn (eq (Value (scanDir fs opts n))) (readEntries fs opts n).
Proof.
  constructor. intros _. destruct (readdir fs (dir n)) as [entries|] eqn:Hrd.
  - destruct (b_symlinkChecks _); repeat (constructor; intros); done.
  - constructor. by rewrite scanDir_unlisted.
Qed.

Lemma readEntries_quiet n : quiet (readEntries fs opts n).
Proof.
  constructor; [done|]. intros _. destruct (readdir fs (dir n)) as [entries|].
  - destruct (b_symlinkChecks _); repeat (constructor; intros); done.
  - constructor.
Qed.

Lemma visit_settles n s :
  settlesIn (λ x, x = Value nothing
                  ∨ tooDeep opts (depth n) = false ∧ x = Value (scanDir fs opts n))
            (visit fs opts n s).2.
Proof.
  unfold visit. simpl. destruct (tooDeep opts (depth n)); [constructor; by left|].
  destruct (followSymlinks opts).
  - constructor. intros seen. destruct (realpath fs (dir n)) as [real|];
      [destruct (has seen real)|]; try (constructor; by left).
    eapply settlesIn_impl; [|apply readEntries_settles]. intros x <-. by right.
  - eapply settlesIn_impl; [|apply readEntries_settles]. intros x <-. by right.
Qed.

(** Whatever the schedule, a batch yields for every frontier node either
    the empty listing or the listing of that node. *)
Lemma visit_batch ns sched c seen :
  1 ≤ c →
  ∃ ls, (runParallel (visit fs opts <$> ns) sched c seen).2 = Value <$> ls ∧
        Forall2 (λ n r, r = nothing
                        ∨ tooDeep opts (depth n) = false ∧ r = scanDir fs opts n) ns ls.
Proof.
  intros Hc.
  destruct (runParallel_settles (visit fs opts <$> ns)
              (λ i x, ∃ n, ns !! i = Some n ∧
                           (x = Value nothing
                            ∨ tooDeep opts (depth n) = false ∧ x = Value (scanDir fs opts n)))
              sched c seen Hc) as [Hlen Hs].
  { intros i t s' Ht. apply list_lookup_fmap_Some in Ht as (n & -> & Hn).
    eapply settlesIn_impl; [|apply visit_settles]. intros x Hx. eauto. }
  rewrite length_fmap in Hlen, Hs.
  destruct (slots_values (runParallel (visit fs opts <$> ns) sched c seen).2
              (λ i r, ∃ n, ns !! i = Some n ∧
                           (r = nothing
                            ∨ tooDeep opts (depth n) = false ∧ r = scanDir fs opts n)))
    as (ls & Hls & HP).
  { intros i Hi. rewrite Hlen in Hi. destruct (Hs i Hi) as (x & Hx & _ & n & Hn & Hor).
    destruct Hor as [->|[Hd ->]]; eauto 10. }
  exists ls. split; [done|]. apply Forall2_same_length_lookup. split.
  - rewrite Hls, length_fmap in Hlen. done.
  - intros i n r Hn Hr. destruct (HP i r Hr) as (n' & Hn' & Hor). by simplify_eq.
Qed.

(** Without symlink following the tasks neither read nor write
    [seenRealPaths]: a batch does not depend on the schedule. *)
Lemma visit_batch_plain ns sched c seen :
  1 ≤ c → followSymlinks opts = false →
  runParallel (visit fs opts <$> ns) sched c seen
  = (seen, Value <$> ((λ n, if tooDeep opts (depth n) then nothing
                            else scanDir fs opts n) <$> ns)).
Proof.
  intros Hc Hf.
  rewrite (surjective_pairing (runParallel _ _ _ _)). f_equal.
  - apply runParallel_quiet; [done|]. intros i t s' Ht.
    apply list_lookup_fmap_Some in Ht as (n & -> & Hn).
    unfold visit. simpl. split; [done|]. rewrite Hf.
    destruct (tooDeep opts (depth n)); [constructor | apply readEntries_quiet].
  - apply runParallel_outcomes; [done|].
    apply Forall2_fmap_l, Forall2_fmap_r, Forall2_fmap_r, Forall_Forall2_diag, Forall_forall.
    intros n _ s'. unfold visit. simpl. rewrite Hf.
    destruct (tooDeep opts (depth n)); [by constructor | apply readEntries_settles].
Qed.

Lemma asMatch_Some n ent m :
  asMatch n ent = Some m →
  m = dir n ++ ["node_modules"] ∧ name ent = "node_modules" ∧
  (isDirectory ent = true ∨ isSymbolicLink ent = true).
Proof.
  unfold asMatch. destruct (String.eqb (name ent) "node_modules") eqn:Hnm;
    [|by rewrite andb_false_r].
  apply String.eqb_eq in Hnm. rewrite andb_true_r.
  destruct (isDirectory ent) eqn:?, (isSymbolicLink ent) eqn:?; simpl;
    intros ?; simplify_eq; rewrite ?Hnm; auto.
Qed.

Lemma passes_reserved ent : passes ent = true → reserved (name ent) = false.
Proof.
  unfold passes, reserved.
  destruct (String.eqb (name ent) "node_modules"), (shouldSkipDirName (name ent)); done.
Qed.

Lemma elem_of_scanDir_nodeModules n m :
  m ∈ nodeModules (scanDir fs opts n) → m = dir n ++ ["node_modules"].
Proof.
  destruct (readdir fs (dir n)) as [entries|] eqn:Hrd.
  - rewrite (scanDir_listed _ _ Hrd). simpl. intros Hm.
    apply list_elem_of_omap in Hm as (ent & _ & Hent). by apply asMatch_Some in Hent as [? _].
  - rewrite (scanDir_unlisted _ Hrd). simpl. intros Hm. by apply elem_of_nil in Hm.
Qed.

Lemma elem_of_scanDir_subdirs n c :
  c ∈ subdirs (scanDir fs opts n) →
  depth c = depth n + 1 ∧ ∃ nm, dir c = dir n ++ [nm] ∧ reserved nm = false.
Proof.
  destruct (readdir fs (dir n)) as [entries|] eqn:Hrd.
  - rewrite (scanDir_listed _ _ Hrd). simpl. intros Hc.
    apply elem_of_app in Hc as [Hc|Hc].
    + apply list_elem_of_omap in Hc as (ent & _ & Hent). unfold asSubdir in Hent.
      destruct (isDirectory ent && passes ent) eqn:Hp; [|done]. simplify_eq/=.
      apply andb_true_iff in Hp as [_ Hp]. split; [done|].
      exists (name ent). split; [done|]. by apply passes_reserved.
    + apply list_elem_of_omap in Hc as (c' & Hc' & Hchk).
      unfold checkSymlink in Hchk. destruct (stat fs (dir c')) as [st|]; [|done].
      destruct (statIsDirectory st); [|done]. simplify_eq.
      apply list_elem_of_omap in Hc' as (ent & _ & Hent). unfold asCheck in Hent.
      destruct (isSymbolicLink ent && followSymlinks opts && passes ent) eqn:Hp; [|done].
      simplify_eq/=. apply andb_true_iff in Hp as [_ Hp]. split; [done|].
      exists (name ent). split; [done|]. by apply passes_reserved.
  - rewrite (scanDir_unlisted _ Hrd). simpl. intros Hc. by apply elem_of_nil in Hc.
Qed.

Lemma DIR_CONCURRENCY_pos : 1 ≤ DIR_CONCURRENCY.
Proof. unfold DIR_CONCURRENCY. lia. Qed.

(** One turn of the loop keeps the invariant, and the batch never has an
    empty slot to trip over. *)
Lemma scanInv_step rootAbs st lvl sched :
  scanInv opts rootAbs st lvl →
  ∃ ls, runParallel (visit fs opts <$> lvl) sched DIR_CONCURRENCY (seenRealPaths st)
        = ((runParallel (visit fs opts <$> lvl) sched DIR_CONCURRENCY (seenRealPaths st)).1,
           Value <$> ls) ∧
        Forall2 (λ n r, r = nothing
                        ∨ tooDeep opts (depth n) = false ∧ r = scanDir fs opts n) lvl ls ∧
        ∀ seen reports,
          scanInv opts rootAbs
            {| seenRealPaths := seen;
               found := found st ++ mjoin (nodeModules <$> ls);
               dirsScanned := dirsScanned st + length lvl;
               reported := reports;
               visited := visited st ++ lvl |}
            ([] ++ mjoin (subdirs <$> ls)).
Proof.
  intros [Hnodes Hfound Hscanned].
  destruct (visit_batch lvl sched DIR_CONCURRENCY (seenRealPaths st) DIR_CONCURRENCY_pos)
    as (ls & Hls & Hall).
  exists ls. split; [|split; [done|]].
  { rewrite <- Hls. apply surjective_pairing. }
  assert (∀ r, r ∈ ls → r = nothing ∨ ∃ n, n ∈ lvl ∧ tooDeep opts (depth n) = false
                                            ∧ r = scanDir fs opts n) as Hfrom.
  { intros r Hr. apply list_elem_of_lookup in Hr as [i Hi].
    destruct (Forall2_lookup_r _ _ _ _ _ Hall Hi) as (n & Hn & Hor).
    destruct Hor as [->|[Hd ->]]; [by left|]. right. exists n.
    split; [by eapply list_elem_of_lookup_2|done]. }
  intros seen reports. split; simpl.
  - intros c Hc. rewrite <- app_assoc in Hc. apply elem_of_app in Hc as [Hc|Hc].
    { apply Hnodes. apply elem_of_app. by left. }
    apply elem_of_app in Hc as [Hc|Hc].
    { apply Hnodes. apply elem_of_app. by right. }
    apply list_elem_of_join in Hc as (cs & Hc & Hcs).
    apply list_elem_of_fmap in Hcs as (r & -> & Hr).
    destruct (Hfrom r Hr) as [->|(n & Hn & _ & ->)]; [by apply elem_of_nil in Hc|].
    destruct (elem_of_scanDir_subdirs _ _ Hc) as (Hd & nm & Hdir & Hres).
    destruct (Hnodes n ltac:(apply elem_of_app; by right)) as [Hlen _].
    split.
    + rewrite Hdir, length_app, Hlen, Hd. simpl. lia.
    + right. split; [lia|]. eauto.
  - intros m Hm. apply elem_of_app in Hm as [Hm|Hm].
    { destruct (Hfound m Hm) as (n & Hn & Hd & ->). exists n. split; [|done].
      apply elem_of_app. by left. }
    apply list_elem_of_join in Hm as (ms & Hm & Hms).
    apply list_elem_of_fmap in Hms as (r & -> & Hr).
    destruct (Hfrom r Hr) as [->|(n & Hn & Hd & ->)]; [by apply elem_of_nil in Hm|].
    exists n. split; [apply elem_of_app; by right|]. split; [done|].
    by apply elem_of_scanDir_nodeModules.
  - rewrite length_app. lia.
Qed.

Lemma scanLevels_step rounds scheds st lvl :
  lvl ≠ [] →
  scanLevels fs opts (S rounds) scheds st lvl
  = let run := runParallel (visit fs opts <$> lvl) (hd [] scheds) DIR_CONCURRENCY
                 (seenRealPaths st) in
    match collect run.2 (found st) [] with
    | None => Rejected
    | Some (results, nextLevel) =>
        scanLevels fs opts rounds (tl scheds)
          {| seenRealPaths := run.1;
             found := results;
             dirsScanned := dirsScanned st + length lvl;
             reported := reported st ++ [(dirsScanned st + length lvl, length results)];
             visited := visited st ++ lvl |}
          nextLevel
    end.
Proof.
  intros Hne. destruct lvl as [|n0 lvl]; [done|].
  cbn [scanLevels]. by destruct (runParallel _ _ _ _).
Qed.

Lemma scanLevels_sound rootAbs rounds scheds st lvl :
  scanInv opts rootAbs st lvl →
  match scanLevels fs opts rounds scheds st lvl with
  | Resolved st' => scanInv opts rootAbs st' []
  | Rejected => False
  | Unsettled => True
  end.
Proof.
  revert scheds st lvl. induction rounds as [|rounds IH]; intros scheds st lvl Hinv.
  - by destruct lvl.
  - destruct lvl as [|n0 lvl]; [done|].
    rewrite scanLevels_step by done.
    destruct (scanInv_step rootAbs st (n0 :: lvl) (hd [] scheds) Hinv) as (ls & Hrun & _ & Hnext).
    cbv zeta. rewrite Hrun. cbn [fst snd]. rewrite collect_values. apply IH. apply Hnext.
Qed.

Lemma scanInv_init rootAbs :
  scanInv opts rootAbs
    {| seenRealPaths := []; found := []; dirsScanned := 0; reported := []; visited := [] |}
    [{| dir := rootAbs; depth := 0 |}].
Proof.
  split; simpl; [| |done].
  - intros n Hn. apply list_elem_of_singleton in Hn as ->. split; simpl; [lia|by left].
  - intros m Hm. by apply elem_of_nil in Hm.
Qed.

Lemma findNodeModules_sound rootAbs rounds scheds :
  match findNodeModules fs rounds scheds rootAbs opts with
  | Resolved st => scanInv opts rootAbs st []
  | Rejected => False
  | Unsettled => True
  end.
Proof. apply scanLevels_sound, scanInv_init. Qed.

(** Without symlink following the schedules do not matter. *)
Lemma scanLevels_plain rounds scheds st lvl :
  followSymlinks opts = false →
  scanLevels fs opts rounds scheds st lvl = scanLevels fs opts rounds [] st lvl.
Proof.
  intros Hf. revert scheds st lvl.
  induction rounds as [|rounds IH]; intros scheds st lvl; [done|].
  destruct lvl as [|n0 lvl]; [done|].
  rewrite !scanLevels_step by done. cbv zeta.
  rewrite !(visit_batch_plain _ _ _ _ DIR_CONCURRENCY_pos Hf). cbn [fst snd].
  destruct (collect _ _ _) as [[results nextLevel]|]; [|done].
  rewrite IH. symmetry. apply IH.
Qed.

(** More rounds than needed change nothing. *)
Lemma scanLevels_rounds rounds rounds' scheds st lvl st' :
  scanLevels fs opts rounds scheds st lvl = Resolved st' → rounds ≤ rounds' →
  scanLevels fs opts rounds' scheds st lvl = Resolved st'.
Proof.
  revert rounds' scheds st lvl.
  induction rounds as [|rounds IH]; intros rounds' scheds st lvl Hres Hle.
  - destruct lvl; [|done]. by destruct rounds'.
  - destruct rounds' as [|rounds']; [lia|].
    destruct lvl as [|n0 lvl]; [done|].
    rewrite scanLevels_step in Hres |- * by done. cbv zeta in *.
    destruct (collect _ _ _) as [[results nextLevel]|]; [|done].
    apply IH; [done|lia].
Qed.

(** The matches and the frontier nodes only accumulate. *)
Lemma scanLevels_grows rounds scheds st lvl st' :
  scanLevels fs opts rounds scheds st lvl = Resolved st' →
  found st `prefix_of` found st' ∧ (visited st ++ lvl) `prefix_of` visited st'.
Proof.
  revert scheds st lvl. induction rounds as [|rounds IH]; intros scheds st lvl Hres.
  - destruct lvl; [|done]. simplify_eq/=. by rewrite app_nil_r.
  - destruct lvl as [|n0 lvl].
    { simplify_eq/=. by rewrite app_nil_r. }
    rewrite scanLevels_step in Hres by done. cbv zeta in Hres.
    destruct (collect _ _ _) as [[results nextLevel]|] eqn:Hcol; [|done].
    destruct (visit_batch (n0 :: lvl) (hd [] scheds) DIR_CONCURRENCY (seenRealPaths st)
                DIR_CONCURRENCY_pos) as (ls & Hls & _).
    rewrite Hls, collect_values in Hcol. simplify_eq.
    apply IH in Hres as [Hf Hv]. cbn [found visited] in *. split.
    + etrans; [|exact Hf]. by apply prefix_app_r.
    + etrans; [|exact Hv]. by apply prefix_app_r.
Qed.

(** Without symlink following every directory within the depth limit
    that enters the frontier has its matches reported and its
    subdirectories taken in turn. *)
Lemma scanLevels_complete_plain rounds scheds st lvl st' :
  followSymlinks opts = false →
  scanLevels fs opts rounds scheds st lvl = Resolved st' →
  (∀ n, n ∈ visited st → tooDeep opts (depth n) = false →
        (∀ m, m ∈ nodeModules (scanDir fs opts n) → m ∈ found st) ∧
        (∀ c, c ∈ subdirs (scanDir fs opts n) → c ∈ visited st ++ lvl)) →
  ∀ n, n ∈ visited st' → tooDeep opts (depth n) = false →
       (∀ m, m ∈ nodeModules (scanDir fs opts n) → m ∈ found st') ∧
       (∀ c, c ∈ subdirs (scanDir fs opts n) → c ∈ visited st').
Proof.
  intros Hf. revert scheds st lvl.
  induction rounds as [|rounds IH]; intros scheds st lvl Hres HP.
  - destruct lvl; [|done]. simplify_eq/=. intros n Hn Hd.
    destruct (HP n Hn Hd) as [H1 H2]. split; [done|]. intros c Hc.
    specialize (H2 c Hc). by rewrite app_nil_r in H2.
  - destruct lvl as [|n0 lvl].
    { simplify_eq/=. intros n Hn Hd.
      destruct (HP n Hn Hd) as [H1 H2]. split; [done|]. intros c Hc.
      specialize (H2 c Hc). by rewrite app_nil_r in H2. }
    rewrite scanLevels_step in Hres by done. cbv zeta in Hres.
    rewrite (visit_batch_plain _ _ _ _ DIR_CONCURRENCY_pos Hf) in Hres.
    cbn [fst snd] in Hres. rewrite collect_values in Hres.
    eapply IH; [exact Hres|]. cbn [found visited]. clear Hres IH.
    set (lv := n0 :: lvl) in *.
    intros n Hn Hd. apply elem_of_app in Hn as [Hn|Hn].
    + destruct (HP n Hn Hd) as [H1 H2]. split.
      * intros m Hm. apply elem_of_app. left. auto.
      * intros c Hc. apply elem_of_app. left. auto.
    + assert (scanDir fs opts n
              ∈ (λ n, if tooDeep opts (depth n) then nothing else scanDir fs opts n) <$> lv)
        as Hin.
      { apply list_elem_of_fmap. exists n. by rewrite Hd. }
      split.
      * intros m Hm. apply elem_of_app. right. apply list_elem_of_join.
        eexists. split; [exact Hm|]. apply list_elem_of_fmap. eauto.
      * intros c Hc. apply elem_of_app. right. apply elem_of_app. right.
        apply list_elem_of_join.
        eexists. split; [exact Hc|]. apply list_elem_of_fmap. eauto.
Qed.

End LocatorFacts.

Lemma findNodeModules_plain_eval fs opts rootAbs r0 st :
  followSymlinks opts = false →
  findNodeModules fs r0 [] rootAbs opts = Resolved st →
  ∀ rounds scheds, r0 ≤ rounds →
    findNodeModules fs rounds scheds rootAbs opts = Resolved st.
Proof.
  intros Hf H0 rounds scheds Hle. unfold findNodeModules in *.
  rewrite scanLevels_plain by done. by eapply scanLevels_rounds.
Qed.

Lemma shouldSkipDirName_names nm :
  shouldSkipDirName nm = true ↔ nm = ".git" ∨ nm = ".cache".
Proof.
  unfold shouldSkipDirName. rewrite orb_true_iff, !String.eqb_eq. done.
Qed.

Lemma reserved_names nm :
  reserved nm = false ↔ nm ≠ "node_modules" ∧ nm ≠ ".git" ∧ nm ≠ ".cache".
Proof.
  unfold reserved, shouldSkipDirName. rewrite !orb_false_iff, !String.eqb_neq. tauto.
Qed.

(** *** The cycle guard within one batch *)

Section GuardFacts.
Variable fs : FileSystem.
Variable opts : scanOptions.
Variable ns : list node.
Variable seen0 : list path.
Hypothesis follow : followSymlinks opts = true.

Abbreviation G := (λ seen σ, ∃ admitted added, guardInv fs opts ns seen0 admitted added seen σ).

Lemma pendingOk_mono seen seen' n g :
  seen ⊆ seen' → pendingOk fs opts seen n g → pendingOk fs opts seen' n g.
Proof.
  intros Hsub. unfold pendingOk, turnedAway.
  destruct g as [|pr|x]; [done| |].
  - intros [?|[? Ht]]; [by left|right]. split; [done|]. intros Hd r Hr. apply Hsub. eauto.
  - intros [? Ht]. split; [done|]. intros Hd r Hr. apply Hsub. eauto.
Qed.

Lemma guard_invoke s σ i t :
  (visit fs opts <$> ns) !! i = Some t → σ !! i = Some Waiting →
  G s σ → G (t s).1 (<[i := Running (t s).2]> σ).
Proof using follow.
  intros Ht Hi (admitted & added & HI).
  apply list_lookup_fmap_Some in Ht as (n & -> & Hn).
  exists admitted, added. destruct HI. split; try done.
  intros j g Hg. apply list_lookup_insert_Some in Hg as [(<- & <- & _)|[Hne Hg]]; [|eauto].
  exists n. split; [done|].
  destruct (gi_tasks0 i Waiting Hi) as (n' & Hn' & Hold). simplify_eq.
  destruct (default false (admitted !! i)); [done|].
  unfold visit. simpl. rewrite follow.
  destruct (tooDeep opts (depth n)) eqn:Hd; [right|by left].
  split; [done|]. intros ?. congruence.
Qed.

Lemma guard_await s σ i upd k :
  σ !! i = Some (Running (Await upd k)) → G s σ → G (upd s) (<[i := Running (k s)]> σ).
Proof.
  intros Hi (admitted & added & HI).
  destruct (gi_tasks _ _ _ _ _ _ _ _ HI i _ Hi) as (n & Hn & Hold).
  assert (i < length σ) as Hlt by (by eapply lookup_lt_Some).
  destruct (default false (admitted !! i)) eqn:Hadm.
  - (* an admitted task: it only reads the directory *)
    destruct Hold as [Hset Hq].
    inversion Hset as [| |? ? Hk]; subst. inversion Hq as [| |? ? Hupd Hkq]; subst.
    rewrite Hupd. exists admitted, added. destruct HI. split; try done.
    intros j g Hg. apply list_lookup_insert_Some in Hg as [(<- & <- & _)|[Hne Hg]]; [|eauto].
    exists n. split; [done|]. rewrite Hadm. split; auto.
  - destruct Hold as [[Hd Heq]|[Heq _]]; [|done].
    unfold guard in Heq. injection Heq as -> ->.
    destruct (realpath fs (dir n)) as [r|] eqn:Hreal; [destruct (has s r) eqn:Hhas|].
    + (* already seen: turned away *)
      exists admitted, added. destruct HI. split; try done.
      intros j g Hg. apply list_lookup_insert_Some in Hg as [(<- & <- & _)|[Hne Hg]]; [|eauto].
      exists n. split; [done|]. rewrite Hadm. right. split; [done|].
      intros _ r' Hr'. simplify_eq. by apply bool_decide_eq_true in Hhas.
    + (* recorded and admitted *)
      apply bool_decide_eq_false in Hhas.
      assert (admitted !! i = Some false) as Hai.
      { destruct HI. destruct (admitted !! i) as [[|]|] eqn:Ha; [done|done|].
        apply lookup_ge_None in Ha. apply lookup_lt_Some in Hn. lia. }
      exists (<[i := true]> admitted), (added ++ [r]). destruct HI. split.
      * by rewrite length_insert.
      * by rewrite gi_seen0, app_assoc.
      * apply NoDup_app. split; [done|]. split; [|apply NoDup_singleton].
        intros x Hx Hxr. apply list_elem_of_singleton in Hxr as ->. done.
      * intros r' Hr'. apply elem_of_app in Hr' as [Hr'|Hr'].
        -- destruct (gi_owner0 r' Hr') as (j & n' & Hj & Haj & Hrj).
           exists j, n'. split; [done|]. split; [|done].
           rewrite list_lookup_insert_ne; [done|]. intros <-. congruence.
        -- apply list_elem_of_singleton in Hr' as ->. exists i, n. split; [done|].
           split; [|done]. apply list_lookup_insert_eq. by eapply lookup_lt_Some.
      * intros j n' Hj Haj. apply list_lookup_insert_Some in Haj as [(<- & _ & _)|[Hne Haj]].
        -- simplify_eq. split; [done|]. exists r. split; [done|].
           apply elem_of_app. right. apply list_elem_of_here.
        -- destruct (gi_real0 j n' Hj Haj) as [? (r' & ? & ?)]. split; [done|].
           exists r'. split; [done|]. apply elem_of_app. by left.
      * assert (∀ j n', ns !! j = Some n' → admitted !! j = Some true →
                        realpath fs (dir n') ≠ Some r) as Hfresh.
        { intros j n' Hj Haj Heq. destruct (gi_real0 j n' Hj Haj) as [_ (r' & Hr' & Hin)].
          assert (r' = r) as -> by congruence.
          apply Hhas. rewrite gi_seen0. apply elem_of_app. by right. }
        intros a b na nb Ha Hb Hna Hnb Heq.
        apply list_lookup_insert_Some in Ha as [(<- & _ & _)|[Hnea Ha]];
        apply list_lookup_insert_Some in Hb as [(<- & _ & _)|[Hneb Hb]]; simplify_eq.
        -- done.
        -- exfalso. eapply Hfresh; [exact Hnb|exact Hb|]. congruence.
        -- exfalso. eapply Hfresh; [exact Hna|exact Ha|]. congruence.
        -- eauto.
      * intros j g Hg. apply list_lookup_insert_Some in Hg as [(<- & <- & _)|[Hne Hg]].
        -- exists n. split; [done|]. rewrite list_lookup_insert_eq by (by eapply lookup_lt_Some).
           simpl. split; [apply readEntries_settles | apply readEntries_quiet].
        -- destruct (gi_tasks0 j g Hg) as (n' & Hj & Hold). exists n'. split; [done|].
           rewrite list_lookup_insert_ne by done.
           destruct (default false (admitted !! j)); [done|].
           eapply pendingOk_mono; [|exact Hold]. intros x Hx. apply elem_of_app. by left.
    + (* no real path: turned away *)
      exists admitted, added. destruct HI. split; try done.
      intros j g Hg. apply list_lookup_insert_Some in Hg as [(<- & <- & _)|[Hne Hg]]; [|eauto].
      exists n. split; [done|]. rewrite Hadm. right. split; [done|].
      intros _ r' Hr'. congruence.
Qed.

Lemma guard_return s σ i v :
  σ !! i = Some (Running (Ret v)) → G s σ → G s (<[i := Done (Value v)]> σ).
Proof.
  intros Hi (admitted & added & HI).
  destruct (gi_tasks _ _ _ _ _ _ _ _ HI i _ Hi) as (n & Hn & Hold).
  exists admitted, added. destruct HI. split; try done.
  intros j g Hg. apply list_lookup_insert_Some in Hg as [(<- & <- & _)|[Hne Hg]]; [|eauto].
  exists n. split; [done|].
  destruct (default false (admitted !! i)).
  - destruct Hold as [Hset _]. inversion Hset; subst. done.
  - destruct Hold as [[_ Heq]|[Heq Ht]]; [done|]. simplify_eq. done.
Qed.

Lemma guard_throw s σ i e :
  σ !! i = Some (Running (Throw e)) → G s σ → G s (<[i := Done (Caught e)]> σ).
Proof.
  intros Hi (admitted & added & HI).
  destruct (gi_tasks _ _ _ _ _ _ _ _ HI i _ Hi) as (n & Hn & Hold). exfalso.
  destruct (default false (admitted !! i)).
  - destruct Hold as [Hset _]. inversion Hset; subst. done.
  - destruct Hold as [[_ Heq]|[Heq Ht]]; done.
Qed.

(** When a batch returns: the real paths it recorded each belong to one
    admitted node, and a node's slot holds its listing if it was admitted
    and the empty listing otherwise. *)
Lemma visit_batch_guarded sched c :
  1 ≤ c → NoDup seen0 →
  ∃ admitted added,
    let run := runParallel (visit fs opts <$> ns) sched c seen0 in
    guardInv fs opts ns seen0 admitted added run.1 (Done <$> run.2) ∧
    run.2 = Value <$> ((λ '(n, a), if (a : bool) then scanDir fs opts n else nothing)
                         <$> zip ns admitted).
Proof using follow.
  intros Hc Hnd.
  pose proof (runParallel_rule (visit fs opts <$> ns) G
                guard_invoke guard_await guard_return guard_throw sched c seen0 Hc) as Hrule.
  destruct (runParallel (visit fs opts <$> ns) sched c seen0) as [seen rs] eqn:Hrun.
  destruct Hrule as (Hlen & Hh & admitted & added & HI).
  { exists (replicate (length ns) false), []. split.
    - by rewrite length_replicate.
    - by rewrite app_nil_r.
    - done.
    - intros r Hr. by apply elem_of_nil in Hr.
    - intros i n _ Hi. by apply lookup_replicate in Hi as [? _].
    - intros i j n n' Hi. by apply lookup_replicate in Hi as [? _].
    - intros i g Hi. apply lookup_replicate in Hi as [-> Hi].
      rewrite length_fmap in Hi. destruct (lookup_lt_is_Some_2 ns i Hi) as [n Hn].
      exists n. split; [done|]. by rewrite lookup_replicate_2. }
  exists admitted, added. simpl. split; [done|].
  rewrite length_fmap in Hlen. apply list_eq. intros i.
  rewrite !list_lookup_fmap, lookup_zip_with.
  destruct (rs !! i) as [x|] eqn:Hx.
  - destruct (gi_tasks _ _ _ _ _ _ _ _ HI i (Done x)) as (n & Hn & Hok).
    { by rewrite list_lookup_fmap, Hx. }
    rewrite Hn. simpl.
    destruct (admitted !! i) as [a|] eqn:Ha.
    + simpl in *. destruct a; simpl in Hok; [by rewrite Hok|by destruct Hok as [-> _]].
    + apply lookup_ge_None in Ha. rewrite (gi_length _ _ _ _ _ _ _ _ HI) in Ha.
      apply lookup_lt_Some in Hn. lia.
  - apply lookup_ge_None in Hx. rewrite Hlen in Hx.
    rewrite (lookup_ge_None_2 ns) by done. done.
Qed.

End GuardFacts.

(** *** The cycle guard over the whole walk *)

Lemma NoDup_mjoin {A} (parts : list (list A)) :
  (∀ part, part ∈ parts → NoDup part) →
  (∀ i j p q x, i ≠ j → parts !! i = Some p → parts !! j = Some q → x ∈ p → x ∉ q) →
  NoDup (mjoin parts).
Proof.
  induction parts as [|p parts IH]; intros Hnd Hdis; [constructor|].
  simpl. apply NoDup_app. split; [|split].
  - apply Hnd, list_elem_of_here.
  - intros x Hx Hin. apply list_elem_of_join in Hin as (q & Hq & Hqin).
    apply list_elem_of_lookup in Hqin as [j Hj].
    by apply (Hdis 0 (S j) p q x).
  - apply IH.
    + intros part Hpart. apply Hnd. by apply list_elem_of_further.
    + intros i j p' q x Hne Hi Hj. apply (Hdis (S i) (S j)); [lia|done..].
Qed.

Section CycleFacts.
Variable fs : FileSystem.
Variable opts : scanOptions.
Variable D : list path.
Hypothesis follow : followSymlinks opts = true.
Hypothesis finite : ∀ p r, realpath fs p = Some r → r ∈ D.
Hypothesis names : ∀ p entries, readdir fs p = Some entries → NoDup (name <$> entries).

Lemma scanDir_nodeModules_NoDup n : NoDup (nodeModules (scanDir fs opts n)).
Proof using names.
  destruct (readdir fs (dir n)) as [entries|] eqn:Hrd.
  - rewrite (scanDir_listed _ _ _ _ Hrd). simpl. apply names in Hrd.
    induction entries as [|ent entries IH]; [constructor|].
    apply NoDup_cons in Hrd as [Hnotin Hrd]. simpl.
    destruct (asMatch n ent) as [m|] eqn:Hm; [|by apply IH].
    apply NoDup_cons. split; [|by apply IH].
    intros Hin. apply list_elem_of_omap in Hin as (ent' & Hent' & Hm').
    apply asMatch_Some in Hm as (_ & Hname & _).
    apply asMatch_Some in Hm' as (_ & Hname' & _).
    apply Hnotin. rewrite Hname, <- Hname'. by apply list_elem_of_fmap_2.
  - rewrite (scanDir_unlisted _ _ _ Hrd). constructor.
Qed.

Lemma length_within (l : list path) : NoDup l → (∀ r, r ∈ l → r ∈ D) → length l ≤ length D.
Proof. intros Hnd Hin. by apply submseteq_length, NoDup_submseteq. Qed.

(** One turn of the loop under the guard. *)
Lemma cycleInv_step st lvl sched :
  cycleInv fs D st →
  let run := runParallel (visit fs opts <$> lvl) sched DIR_CONCURRENCY (seenRealPaths st) in
  ∃ ls added,
    run.2 = Value <$> ls ∧
    run.1 = seenRealPaths st ++ added ∧
    (added = [] → mjoin (subdirs <$> ls) = []) ∧
    ∀ scanned reports seenNodes,
      cycleInv fs D
        {| seenRealPaths := run.1;
           found := found st ++ mjoin (nodeModules <$> ls);
           dirsScanned := scanned;
           reported := reports;
           visited := seenNodes |}.
Proof using follow finite names.
  intros [Hseen Hwithin Hnd Hfound Hdistinct] run.
  destruct (visit_batch_guarded fs opts lvl (seenRealPaths st) follow sched
              DIR_CONCURRENCY DIR_CONCURRENCY_pos Hseen) as (admitted & added & HI & Hrs).
  fold run in HI, Hrs. clearbody run.
  set (ls := (λ '(n, a), if (a : bool) then scanDir fs opts n else nothing)
               <$> zip lvl admitted) in *.
  destruct HI as [Hlen Hrun1 Hnd1 Howner Hreal Honce _].
  assert (∀ i r, ls !! i = Some r →
                 r = nothing ∨ ∃ n, lvl !! i = Some n ∧ admitted !! i = Some true
                                    ∧ r = scanDir fs opts n) as Hparts.
  { intros i r Hr. unfold ls in Hr.
    apply list_lookup_fmap_Some in Hr as (na & -> & Hz).
    apply lookup_zip_with_Some in Hz as (n & a & -> & Hn & Ha).
    destruct a; [right; eauto | by left]. }
  assert (∀ (f : listing → list path) x, f nothing = [] → x ∈ mjoin (f <$> ls) →
            ∃ i n, lvl !! i = Some n ∧ admitted !! i = Some true
                   ∧ x ∈ f (scanDir fs opts n)) as Hfrom.
  { intros f x Hf Hx. apply list_elem_of_join in Hx as (part & Hx & Hpart).
    apply list_elem_of_fmap in Hpart as (r & -> & Hr).
    apply list_elem_of_lookup in Hr as [i Hi].
    destruct (Hparts i r Hi) as [->|(n & Hn & Ha & ->)]; [rewrite Hf in Hx; by apply elem_of_nil in Hx|].
    eauto. }
  assert (∀ m, m ∈ mjoin (nodeModules <$> ls) →
            ∃ i n r, lvl !! i = Some n ∧ admitted !! i = Some true ∧
                     m = dir n ++ ["node_modules"] ∧
                     realpath fs (dir n) = Some r ∧ r ∈ added) as Hnew.
  { intros m Hm. destruct (Hfrom nodeModules m eq_refl Hm) as (i & n & Hn & Ha & Hin).
    destruct (Hreal i n Hn Ha) as [_ (r & Hr & Hradd)].
    exists i, n, r. split; [done|]. split; [done|]. split; [|done].
    by apply elem_of_scanDir_nodeModules in Hin. }
  assert (∀ r, r ∈ added → r ∉ seenRealPaths st) as Hsplit.
  { intros r Hr Hin. rewrite Hrun1 in Hnd1. apply NoDup_app in Hnd1 as (_ & Hdis & _).
    by apply (Hdis r). }
  exists ls, added. split; [done|]. split; [done|]. split.
  { intros ->. destruct (mjoin (subdirs <$> ls)) as [|c cs] eqn:Hj; [done|]. exfalso.
    assert (c ∈ mjoin (subdirs <$> ls)) as Hc by (rewrite Hj; apply list_elem_of_here).
    apply list_elem_of_join in Hc as (part & Hc & Hpart).
    apply list_elem_of_fmap in Hpart as (r & -> & Hr).
    apply list_elem_of_lookup in Hr as [i Hi].
    destruct (Hparts i r Hi) as [->|(n & Hn & Ha & ->)]; [by apply elem_of_nil in Hc|].
    destruct (Hreal i n Hn Ha) as [_ (r & _ & Hradd)]. by apply elem_of_nil in Hradd. }
  intros scanned reports seenNodes. split; simpl.
  - done.
  - intros r Hr. rewrite Hrun1 in Hr. apply elem_of_app in Hr as [Hr|Hr]; [auto|].
    destruct (Howner r Hr) as (i & n & _ & _ & Hreal'). eauto.
  - apply NoDup_app. split; [done|]. split.
    + intros m Hm Hm'. destruct (Hfound m Hm) as (n0 & r0 & -> & Hr0 & Hin0).
      destruct (Hnew _ Hm') as (i & n & r & Hn & Ha & Heq & Hr & Hradd).
      apply app_inj_tail in Heq as [Heq _]. rewrite Heq in Hr0.
      assert (r0 = r) as -> by congruence. by apply (Hsplit r).
    + apply NoDup_mjoin.
      * intros part Hpart. apply list_elem_of_fmap in Hpart as (r & -> & Hr).
        apply list_elem_of_lookup in Hr as [i Hi].
        destruct (Hparts i r Hi) as [->|(n & Hn & Ha & ->)]; [constructor|].
        apply scanDir_nodeModules_NoDup.
      * intros i j p q x Hne Hp Hq Hx Hx'.
        apply list_lookup_fmap_Some in Hp as (ri & -> & Hri).
        apply list_lookup_fmap_Some in Hq as (rj & -> & Hrj).
        destruct (Hparts i ri Hri) as [->|(ni & Hni & Hai & ->)]; [by apply elem_of_nil in Hx|].
        destruct (Hparts j rj Hrj) as [->|(nj & Hnj & Haj & ->)]; [by apply elem_of_nil in Hx'|].
        apply elem_of_scanDir_nodeModules in Hx, Hx'. rewrite Hx in Hx'.
        apply app_inj_tail in Hx' as [Hx' _].
        apply Hne, (Honce i j ni nj Hai Haj Hni Hnj). by rewrite Hx'.
  - intros m Hm. apply elem_of_app in Hm as [Hm|Hm].
    + destruct (Hfound m Hm) as (n0 & r0 & -> & Hr0 & Hin0).
      exists n0, r0. split; [done|]. split; [done|]. rewrite Hrun1. apply elem_of_app. by left.
    + destruct (Hnew _ Hm) as (i & n & r & Hn & Ha & -> & Hr & Hradd).
      exists n, r. split; [done|]. split; [done|]. rewrite Hrun1. apply elem_of_app. by right.
  - assert (∀ m1 m2, m1 ∈ found st → m2 ∈ mjoin (nodeModules <$> ls) →
              realpath fs (removelast m1) ≠ realpath fs (removelast m2)) as Hcross.
    { intros m1 m2 H1 H2 Heq.
      destruct (Hfound m1 H1) as (n0 & r0 & -> & Hr0 & Hin0).
      destruct (Hnew _ H2) as (i & n & r & Hn & Ha & -> & Hr & Hradd).
      rewrite !removelast_last in Heq. rewrite Hr0, Hr in Heq.
      assert (r0 = r) as -> by congruence. by apply (Hsplit r). }
    intros m1 m2 H1 H2 Heq.
    apply elem_of_app in H1 as [H1|H1]; apply elem_of_app in H2 as [H2|H2].
    + by apply Hdistinct.
    + by destruct (Hcross m1 m2 H1 H2).
    + by destruct (Hcross m2 m1 H2 H1).
    + destruct (Hnew _ H1) as (i & ni & ri & Hni & Hai & -> & Hri & _).
      destruct (Hnew _ H2) as (j & nj & rj & Hnj & Haj & -> & Hrj & _).
      rewrite !removelast_last in Heq.
      assert (i = j) as -> by (by apply (Honce i j ni nj)). by simplify_eq.
Qed.

(** Every level that leaves directories for the next one has recorded a
    new real path, of which there are finitely many. *)
Lemma scanLevels_terminates rounds scheds st lvl :
  cycleInv fs D st →
  length D - length (seenRealPaths st) < rounds →
  ∃ st', scanLevels fs opts rounds scheds st lvl = Resolved st' ∧
         cycleInv fs D st' ∧
         length (reported st') + length (seenRealPaths st)
         ≤ length (reported st) + length (seenRealPaths st') + 1.
Proof using follow finite names.
  revert scheds st lvl. induction rounds as [|rounds IH]; intros scheds st lvl Hinv Hr; [lia|].
  destruct lvl as [|n0 lvl].
  { exists st. split; [done|]. split; [done|]. lia. }
  rewrite scanLevels_step by done. cbv zeta.
  destruct (cycleInv_step st (n0 :: lvl) (hd [] scheds) Hinv)
    as (ls & added & Hrs & Hseen & Hempty & Hnext).
  rewrite Hrs, collect_values. rewrite Hseen in *. simpl app at 2.
  set (st2 := {| seenRealPaths := seenRealPaths st ++ added;
                 found := found st ++ mjoin (nodeModules <$> ls) |}).
  specialize (Hnext (dirsScanned st2) (reported st2) (visited st2)).
  change (cycleInv fs D st2) in Hnext.
  destruct added as [|r added].
  - rewrite (Hempty eq_refl). exists st2. split; [by destruct rounds|].
    split; [done|]. simpl. rewrite length_app, app_nil_r. simpl. lia.
  - pose proof (length_within _ (ci_seen _ _ _ Hnext) (ci_within _ _ _ Hnext)) as Hle.
    simpl in Hle. rewrite length_app in Hle. simpl in Hle.
    destruct (IH (tl scheds) st2 (mjoin (subdirs <$> ls)) Hnext) as (st' & Hres & Hinv' & Hcount).
    { simpl. rewrite length_app. simpl. lia. }
    exists st'. split; [done|]. split; [done|].
    simpl in Hcount. rewrite !length_app in Hcount. simpl in Hcount. lia.
Qed.

End CycleFacts.

(** *** Tree file systems are finite and list no name twice *)

Lemma child_Some entries seg t :
  child entries seg = Some t → (seg, t) ∈ entries.
Proof.
  induction entries as [|[n t'] entries IH]; simpl; [done|].
  destruct (String.eqb_spec n seg) as [->|Hne].
  - intros ?. simplify_eq. apply list_elem_of_here.
  - intros ?. apply list_elem_of_further. auto.
Qed.

Lemma allPaths_Dir entries n t q :
  (n, t) ∈ entries → q ∈ allPaths t → n :: q ∈ allPaths (Dir entries).
Proof.
  intros Hin Hq. simpl. apply list_elem_of_further.
  induction entries as [|[n' t'] entries IH]; [by apply elem_of_nil in Hin|].
  apply elem_of_app. apply elem_of_cons in Hin as [Heq|Hin].
  - left. simplify_eq. by apply list_elem_of_fmap_2.
  - right. by apply IH.
Qed.

Lemma walk_allPaths q : ∀ t, is_Some (walk t q) → q ∈ allPaths t.
Proof.
  induction q as [|seg q IH]; intros t Hw.
  - destruct t; apply list_elem_of_here.
  - destruct t as [|entries| | |]; simpl in Hw; try by destruct Hw.
    destruct (child entries seg) as [t'|] eqn:Hc; [|by destruct Hw].
    eapply allPaths_Dir; [by apply child_Some|]. by apply IH.
Qed.

Lemma resolve_S nest root links p :
  resolve (S nest) root links p
  = fold_left
      (λ acc seg,
         match acc with
         | None => None
         | Some (cur, budget) =>
             match walk root (cur ++ [seg]) with
             | Some (Link target) =>
                 match budget with
                 | 0 => None
                 | S budget' => resolve nest root budget' target
                 end
             | Some _ => Some (cur ++ [seg], budget)
             | None => None
             end
         end)
      p (Some ([], links)).
Proof. reflexivity. Qed.

Lemma walk_height root q : is_Some (walk root q) → length q ≤ height root.
Proof.
  intros Hw. apply max_list_elem_of_le, list_elem_of_fmap_2.
  by apply walk_allPaths.
Qed.

(** A resolution ends on a path of the tree, and every segment it has
    gone through either took it one directory down or cost it a link. *)
Lemma resolve_bound nest root : ∀ links p q more,
  resolve nest root links p = Some (q, more) →
  is_Some (walk root q) ∧
  length p + more * (height root + 1) ≤ links * (height root + 1) + length q.
Proof.
  induction nest as [|nest IH]; intros links p q more; [done|]. rewrite resolve_S.
  revert q more. induction p as [|seg p IHp] using rev_ind; intros q more; simpl.
  - intros ?. simplify_eq. split; [by eexists|]. simpl. lia.
  - rewrite fold_left_app. simpl.
    destruct (fold_left _ p (Some ([], links))) as [[cur budget]|]; [|done].
    destruct (IHp cur budget eq_refl) as [Hcur Hlen].
    apply walk_height in Hcur. rewrite length_app. simpl.
    destruct (walk root (cur ++ [seg])) as [[|entries|target| |]|] eqn:Hw; try done;
      try (intros ?; simplify_eq; rewrite length_app; simpl;
           split; [by eexists|lia]).
    destruct budget as [|budget]; [done|]. intros Hres.
    apply IH in Hres as [Hq Hres]. split; [done|]. nia.
Qed.

Lemma canon_walk links root p q :
  canon links root p = Some q → is_Some (walk root q).
Proof.
  unfold canon. destruct (resolve _ _ _ _) as [[q' more]|] eqn:Hres; [|done].
  intros ?. simplify_eq/=. by apply resolve_bound in Hres as [? _].
Qed.

(** Paths beyond a certain length are refused, as by a kernel with a
    limit on the links of a resolution. *)
Lemma canon_long root p :
  pathBound root ≤ length p → canon MAXSYMLINKS root p = None.
Proof.
  unfold canon, pathBound. intros Hlen.
  destruct (resolve _ _ _ _) as [[q more]|] eqn:Hres; [|done].
  apply resolve_bound in Hres as [Hq Hres]. apply walk_height in Hq. nia.
Qed.

Lemma treeFS_bounded root p :
  pathBound root ≤ length p → readdir (treeFS root) p = None.
Proof. intros Hlen. cbn [readdir treeFS]. by rewrite canon_long. Qed.

Lemma treeFS_finite root p r :
  realpath (treeFS root) p = Some r → r ∈ allPaths root.
Proof. intros Hr. eapply walk_allPaths, canon_walk, Hr. Qed.

Lemma wellFormed_child entries seg t :
  wellFormed (Dir entries) = true → child entries seg = Some t → wellFormed t = true.
Proof.
  intros Hwf Hc. apply child_Some in Hc. simpl in Hwf.
  apply andb_true_iff in Hwf as [_ Hwf].
  induction entries as [|[n t'] entries IH]; [by apply elem_of_nil in Hc|].
  apply andb_true_iff in Hwf as [Ht' Hwf].
  apply elem_of_cons in Hc as [Heq|Hc]; [by simplify_eq|auto].
Qed.

Lemma wellFormed_walk q : ∀ t t',
  wellFormed t = true → walk t q = Some t' → wellFormed t' = true.
Proof.
  induction q as [|seg q IH]; intros t t' Hwf Hw; simpl in Hw; [by simplify_eq|].
  destruct t as [|entries| | |]; try done.
  destruct (child entries seg) as [t0|] eqn:Hc; [|done].
  eapply IH; [|exact Hw]. by eapply wellFormed_child.
Qed.

Lemma treeFS_names root :
  wellFormed root = true →
  ∀ p entries, readdir (treeFS root) p = Some entries → NoDup (name <$> entries).
Proof.
  intros Hwf p entries. cbn [readdir treeFS].
  destruct (canon MAXSYMLINKS root p) as [q|]; [|done]. cbn [mbind option_bind].
  destruct (walk root q) as [[|es| | |]|] eqn:Hw; try done.
  intros ?. simplify_eq. apply (wellFormed_walk _ _ _ Hwf) in Hw. simpl in Hw.
  apply andb_true_iff in Hw as [Hnd _]. apply bool_decide_eq_true in Hnd.
  by rewrite <- list_fmap_compose.
Qed.

(** *** The locator's contract *)

Example nested_scan :
  findNodeModules (treeFS nestedTree) 3 [] ["proj"] plainOptions
  = Resolved {| seenRealPaths := [];
                found := [["proj"; "a"; "node_modules"]];
                dirsScanned := 2;
                reported := [(1, 0); (2, 1)];
                visited := [ {| dir := ["proj"]; depth := 0 |};
                             {| dir := ["proj"; "a"]; depth := 1 |} ] |}.
Proof. vm_compute. reflexivity. Qed.

Example git_scan :
  findNodeModules (treeFS gitTree) 3 [] ["proj"] plainOptions
  = Resolved {| seenRealPaths := [];
                found := [];
                dirsScanned := 2;
                reported := [(1, 0); (2, 0)];
                visited := [ {| dir := ["proj"]; depth := 0 |};
                             {| dir := ["proj"; "a"]; depth := 1 |} ] |}.
Proof. vm_compute. reflexivity. Qed.

Example rootNamed_scan :
  findNodeModules (treeFS rootNamedTree) 3 [] ["proj"; "node_modules"] plainOptions
  = Resolved {| seenRealPaths := [];
                found := [["proj"; "node_modules"; "pkg"; "node_modules"]];
                dirsScanned := 2;
                reported := [(1, 0); (2, 1)];
                visited := [ {| dir := ["proj"; "node_modules"]; depth := 0 |};
                             {| dir := ["proj"; "node_modules"; "pkg"]; depth := 1 |} ] |}.
Proof. vm_compute. reflexivity. Qed.

Example shallow_scan_depth1 :
  findNodeModules (treeFS shallowTree) 3 [] ["proj"] (depthOptions 1)
  = Resolved {| seenRealPaths := [];
                found := [["proj"; "a"; "node_modules"]];
                dirsScanned := 2;
                reported := [(1, 0); (2, 1)];
                visited := [ {| dir := ["proj"]; depth := 0 |};
                             {| dir := ["proj"; "a"]; depth := 1 |} ] |}.
Proof. vm_compute. reflexivity. Qed.

Example deep_scan_depth1 :
  findNodeModules (treeFS deepTree) 4 [] ["proj"] (depthOptions 1)
  = Resolved {| seenRealPaths := [];
                found := [];
                dirsScanned := 3;
                reported := [(1, 0); (2, 0); (3, 0)];
                visited := [ {| dir := ["proj"]; depth := 0 |};
                             {| dir := ["proj"; "a"]; depth := 1 |};
                             {| dir := ["proj"; "a"; "b"]; depth := 2 |} ] |}.
Proof. vm_compute. reflexivity. Qed.

Example deep_scan_depth2 :
  findNodeModules (treeFS deepTree) 4 [] ["proj"] (depthOptions 2)
  = Resolved {| seenRealPaths := [];
                found := [["proj"; "a"; "b"; "node_modules"]];
                dirsScanned := 3;
                reported := [(1, 0); (2, 0); (3, 1)];
                visited := [ {| dir := ["proj"]; depth := 0 |};
                             {| dir := ["proj"; "a"]; depth := 1 |};
                             {| dir := ["proj"; "a"; "b"]; depth := 2 |} ] |}.
Proof. vm_compute. reflexivity. Qed.

(** C2.  The locator does not do what the claim and the README ask of
    it: with the scan root [proj/node_modules], a directory, the root is
    not among the matches; it is listed like any other directory, its
    subdirectory [pkg] is traversed, and the match found there, inside a
    [node_modules], is reported.  The loop over the entries of a listed
    directory never traverses inside a [node_modules]; nothing applies
    the same test to the root. *)
Theorem root_named_node_modules_not_reported :
  ∃ st,
    findNodeModules (treeFS rootNamedTree) 3 [] ["proj"; "node_modules"] plainOptions
    = Resolved st ∧
    statIsDirectory <$> stat (treeFS rootNamedTree) ["proj"; "node_modules"] = Some true ∧
    (["proj"; "node_modules"] ∉ found st) ∧
    found st = [["proj"; "node_modules"; "pkg"; "node_modules"]] ∧
    {| dir := ["proj"; "node_modules"; "pkg"]; depth := 1 |} ∈ visited st.
Proof.
  eexists. split; [apply rootNamed_scan|]. split; [reflexivity|]. simpl. split; [|split].
  - intros H. apply list_elem_of_singleton in H. discriminate.
  - reflexivity.
  - apply list_elem_of_further, list_elem_of_here.
Qed.

(** The root is never classified by its own name: whatever it is called
    it is the first directory taken from the frontier, it is never
    itself reported, and (symlink following off, depth 0 within the
    limit) the [node_modules] entries directly inside it are reported and
    its other subdirectories traversed. *)
Lemma findNodeModules_root_unclassified
    (fs : FileSystem) (opts : scanOptions) (rounds : nat) (scheds : list (list nat))
    (rootAbs : path) (st : scan) :
  findNodeModules fs rounds scheds rootAbs opts = Resolved st →
  (rootAbs ∉ found st) ∧
  (∃ rest, visited st = {| dir := rootAbs; depth := 0 |} :: rest) ∧
  (followSymlinks opts = false → tooDeep opts 0 = false →
   (∀ m, m ∈ nodeModules (scanDir fs opts {| dir := rootAbs; depth := 0 |}) → m ∈ found st) ∧
   (∀ c, c ∈ subdirs (scanDir fs opts {| dir := rootAbs; depth := 0 |}) → c ∈ visited st)).
Proof.
  intros Hres. pose proof (findNodeModules_sound fs opts rootAbs rounds scheds) as Hinv.
  rewrite Hres in Hinv. destruct Hinv as [Hnodes Hfound _].
  unfold findNodeModules in Hres. split; [|split].
  - intros Hin. destruct (Hfound _ Hin) as (n & Hn & _ & Heq).
    destruct (Hnodes n ltac:(by rewrite app_nil_r)) as [Hlen _].
    apply (f_equal length) in Heq. rewrite length_app, Hlen in Heq. simpl in Heq. lia.
  - apply scanLevels_grows in Hres as [_ [rest Hv]]. exists rest. by rewrite Hv.
  - intros Hf Hd.
    assert ({| dir := rootAbs; depth := 0 |} ∈ visited st) as Hroot.
    { apply scanLevels_grows in Hres as [_ [rest Hv]]. rewrite Hv. simpl. apply list_elem_of_here. }
    eapply (scanLevels_complete_plain fs opts rounds scheds _ _ st Hf Hres); [|done|done].
    simpl. intros n Hn. by apply elem_of_nil in Hn.
Qed.

(** C3 as stated fails: with maximum depth 1 the match two levels below
    the root, [proj/a/node_modules], is reported. *)
Lemma max_depth_1_reports_match_at_depth_2 :
  ∃ st,
    findNodeModules (treeFS shallowTree) 3 [] ["proj"] (depthOptions 1) = Resolved st ∧
    found st = [["proj"; "a"; "node_modules"]] ∧
    length ["proj"; "a"; "node_modules"] = length ["proj"] + 2.
Proof. eexists. split; [apply shallow_scan_depth1|]. split; reflexivity. Qed.

(** C3, amended.  The limit bounds the depth of the directories that are
    listed (the root being at depth 0), so every match lies at most
    [maxDepth + 1] levels below the root: the only [node_modules] three
    levels below the root is not reported with maximum depth 1 and is
    reported with maximum depth 2, under every schedule; one two levels
    below the root is reported already with maximum depth 1. *)
Theorem findNodeModules_depth_limit :
  (∀ fs opts rounds scheds rootAbs d st,
     maxDepth opts = Some d →
     findNodeModules fs rounds scheds rootAbs opts = Resolved st →
     ∀ m, m ∈ found st → (Z.of_nat (length m) ≤ Z.of_nat (length rootAbs) + d + 1)%Z) ∧
  (∀ rounds scheds, 4 ≤ rounds →
     ∃ st, findNodeModules (treeFS deepTree) rounds scheds ["proj"] (depthOptions 1)
           = Resolved st ∧ found st = []) ∧
  (∀ rounds scheds, 4 ≤ rounds →
     ∃ st, findNodeModules (treeFS deepTree) rounds scheds ["proj"] (depthOptions 2)
           = Resolved st ∧ found st = [["proj"; "a"; "b"; "node_modules"]]) ∧
  (∀ rounds scheds, 3 ≤ rounds →
     ∃ st, findNodeModules (treeFS shallowTree) rounds scheds ["proj"] (depthOptions 1)
           = Resolved st ∧ found st = [["proj"; "a"; "node_modules"]]).
Proof.
  split; [|split; [|split]].
  - intros fs opts rounds scheds rootAbs d st Hd Hres m Hm.
    pose proof (findNodeModules_sound fs opts rootAbs rounds scheds) as Hinv.
    rewrite Hres in Hinv. destruct Hinv as [Hnodes Hfound _].
    destruct (Hfound _ Hm) as (n & Hn & Hdeep & ->).
    destruct (Hnodes n ltac:(by rewrite app_nil_r)) as [Hlen _].
    unfold tooDeep in Hdeep. rewrite Hd in Hdeep. apply Z.ltb_ge in Hdeep.
    rewrite length_app, Hlen. simpl. lia.
  - intros rounds scheds Hr. eexists. split.
    + eapply (findNodeModules_plain_eval _ _ _ 4); [reflexivity | apply deep_scan_depth1 | lia].
    + reflexivity.
  - intros rounds scheds Hr. eexists. split.
    + eapply (findNodeModules_plain_eval _ _ _ 4); [reflexivity | apply deep_scan_depth2 | lia].
    + reflexivity.
  - intros rounds scheds Hr. eexists. split.
    + eapply (findNodeModules_plain_eval _ _ _ 3); [reflexivity | apply shallow_scan_depth1 | lia].
    + reflexivity.
Qed.

Lemma findNodeModules_depth_limit_witness :
  (Z.of_nat (length ["proj"; "a"; "b"; "node_modules"])
   ≤ Z.of_nat (length ["proj"]) + 2 + 1)%Z.
Proof.
  apply (proj1 findNodeModules_depth_limit (treeFS deepTree) (depthOptions 2) 4 []
           ["proj"] 2%Z _ eq_refl deep_scan_depth2).
  apply list_elem_of_here.
Defined.

(** C5.  In a listed directory every directory or symlink entry named
    exactly [node_modules] is recorded as a match and is not among the
    subdirectories enqueued; an entry named [.git] or [.cache] is neither.
    Over a whole run every match is such an entry of a frontier node and
    no frontier node other than the root bears one of the three names;
    without symlink following the matches of every frontier node within
    the depth limit are all reported.  Hence
    [a/node_modules/node_modules/x] yields the single match
    [a/node_modules] and [a/.git/node_modules] yields none, under every
    schedule. *)
Theorem findNodeModules_match_and_ignore_names :
  (∀ fs opts n entries ent,
     readdir fs (dir n) = Some entries → ent ∈ entries →
     isDirectory ent = true ∨ isSymbolicLink ent = true →
     name ent = "node_modules" →
     dir n ++ [name ent] ∈ nodeModules (scanDir fs opts n) ∧
     ∀ c, c ∈ subdirs (scanDir fs opts n) → dir c ≠ dir n ++ [name ent]) ∧
  (∀ fs opts n ent,
     shouldSkipDirName (name ent) = true →
     (dir n ++ [name ent] ∉ nodeModules (scanDir fs opts n)) ∧
     ∀ c, c ∈ subdirs (scanDir fs opts n) → dir c ≠ dir n ++ [name ent]) ∧
  (∀ fs opts rounds scheds rootAbs st,
     findNodeModules fs rounds scheds rootAbs opts = Resolved st →
     (∀ m, m ∈ found st → ∃ n, n ∈ visited st ∧ m = dir n ++ ["node_modules"]) ∧
     (∀ n, n ∈ visited st →
           n = {| dir := rootAbs; depth := 0 |} ∨
           ∃ parent nm, dir n = parent ++ [nm] ∧
                        nm ≠ "node_modules" ∧ nm ≠ ".git" ∧ nm ≠ ".cache") ∧
     (followSymlinks opts = false →
      ∀ n, n ∈ visited st → tooDeep opts (depth n) = false →
           ∀ m, m ∈ nodeModules (scanDir fs opts n) → m ∈ found st)) ∧
  (∀ rounds scheds, 3 ≤ rounds →
     ∃ st, findNodeModules (treeFS nestedTree) rounds scheds ["proj"] plainOptions
           = Resolved st ∧ found st = [["proj"; "a"; "node_modules"]]) ∧
  (∀ rounds scheds, 3 ≤ rounds →
     ∃ st, findNodeModules (treeFS gitTree) rounds scheds ["proj"] plainOptions
           = Resolved st ∧ found st = []).
Proof.
  split; [|split; [|split; [|split]]].
  - intros fs opts n entries ent Hrd Hent Hkind Hname. split.
    + rewrite (scanDir_listed _ _ _ _ Hrd). simpl. apply list_elem_of_omap.
      exists ent. split; [done|]. unfold asMatch. rewrite Hname. simpl.
      by destruct Hkind as [-> | ->]; rewrite ?orb_true_r.
    + intros c Hc Heq. apply elem_of_scanDir_subdirs in Hc as (_ & nm & Hdir & Hres).
      rewrite Hdir in Heq. apply app_inj_tail in Heq as [_ ->].
      rewrite Hname in Hres. done.
  - intros fs opts n ent Hskip. split.
    + intros Hin. apply elem_of_scanDir_nodeModules in Hin.
      apply app_inj_tail in Hin as [_ Hin]. rewrite Hin in Hskip. done.
    + intros c Hc Heq. apply elem_of_scanDir_subdirs in Hc as (_ & nm & Hdir & Hres).
      rewrite Hdir in Heq. apply app_inj_tail in Heq as [_ ->].
      unfold reserved in Hres. rewrite Hskip, orb_true_r in Hres. done.
  - intros fs opts rounds scheds rootAbs st Hres.
    pose proof (findNodeModules_sound fs opts rootAbs rounds scheds) as Hinv.
    rewrite Hres in Hinv. destruct Hinv as [Hnodes Hfound _]. split; [|split].
    + intros m Hm. destruct (Hfound _ Hm) as (n & Hn & _ & ->). eauto.
    + intros n Hn. destruct (Hnodes n ltac:(by rewrite app_nil_r)) as [_ [->|[_ Hn']]];
        [by left|]. right. destruct Hn' as (parent & nm & Hdir & Hr).
      apply reserved_names in Hr. eauto.
    + intros Hf n Hn Hd m Hm. unfold findNodeModules in Hres.
      eapply (scanLevels_complete_plain fs opts rounds scheds _ _ st Hf Hres); [|done..].
      simpl. intros n' Hn'. by apply elem_of_nil in Hn'.
  - intros rounds scheds Hr. eexists. split.
    + eapply (findNodeModules_plain_eval _ _ _ 3); [reflexivity | apply nested_scan | lia].
    + reflexivity.
  - intros rounds scheds Hr. eexists. split.
    + eapply (findNodeModules_plain_eval _ _ _ 3); [reflexivity | apply git_scan | lia].
    + reflexivity.
Qed.

Lemma findNodeModules_match_and_ignore_names_witness :
  (["proj"; "a"] ++ [".git"]
     ∉ nodeModules (scanDir (treeFS gitTree) plainOptions
                      {| dir := ["proj"; "a"]; depth := 1 |})) ∧
  ["proj"; "a"] ++ ["node_modules"]
    ∈ nodeModules (scanDir (treeFS nestedTree) plainOptions
                     {| dir := ["proj"; "a"]; depth := 1 |}).
Proof.
  split.
  - apply (proj1 (proj2 findNodeModules_match_and_ignore_names)
             (treeFS gitTree) plainOptions {| dir := ["proj"; "a"]; depth := 1 |}
             {| name := ".git"; kind := Directory |} eq_refl).
  - apply (proj1 findNodeModules_match_and_ignore_names
             (treeFS nestedTree) plainOptions {| dir := ["proj"; "a"]; depth := 1 |}
             [{| name := "node_modules"; kind := Directory |}]
             {| name := "node_modules"; kind := Directory |}
             eq_refl (list_elem_of_here _ _) (or_introl eq_refl) eq_refl).
Defined.

Example cycle_scan :
  findNodeModules (treeFS cycleTree) 4 [] ["proj"] followOptions
  = Resolved {| seenRealPaths := [["proj"]; ["proj"; "a"]];
                found := [["proj"; "a"; "node_modules"]];
                dirsScanned := 3;
                reported := [(1, 0); (2, 1); (3, 1)];
                visited := [ {| dir := ["proj"]; depth := 0 |};
                             {| dir := ["proj"; "a"]; depth := 1 |};
                             {| dir := ["proj"; "a"; "loop"]; depth := 2 |} ] |}.
Proof. vm_compute. reflexivity. Qed.

(** C6.  With symlinks followed, on a file system with finitely many
    real paths ([D] lists them) whose directories list no name twice:
    a frontier node whose real path is already in [seenRealPaths] leaves
    the set as it is and settles to the empty listing; under every
    schedule the walk returns, after at most [|D| + 1] levels, whatever
    cycles the symlinks form; and no match is reported twice, be it under
    the same path or as the same entry of the same real directory reached
    along another path. *)
Theorem findNodeModules_terminates_on_symlink_cycles
    (fs : FileSystem) (opts : scanOptions) (D : list path) (rootAbs : path) :
  followSymlinks opts = true →
  (∀ p r, realpath fs p = Some r → r ∈ D) →
  (∀ p entries, readdir fs p = Some entries → NoDup (name <$> entries)) →
  (∀ n seen real,
     tooDeep opts (depth n) = false →
     realpath fs (dir n) = Some real → real ∈ seen →
     ∃ upd k, (visit fs opts n seen).2 = Await upd k ∧
              upd seen = seen ∧ k seen = Ret nothing) ∧
  (∀ rounds scheds, length D < rounds →
     ∃ st, findNodeModules fs rounds scheds rootAbs opts = Resolved st ∧
           length (reported st) ≤ length D + 1 ∧
           NoDup (found st) ∧
           (∀ m1 m2, m1 ∈ found st → m2 ∈ found st →
                     realpath fs (removelast m1) = realpath fs (removelast m2) → m1 = m2) ∧
           NoDup (seenRealPaths st)).
Proof.
  intros Hf Hfin Hnames. split.
  - intros n seen real Hd Hreal Hin. unfold visit. simpl. rewrite Hd, Hf.
    eexists _, _. split; [reflexivity|]. simpl. rewrite Hreal.
    unfold has. rewrite bool_decide_eq_true_2 by done. done.
  - intros rounds scheds Hr.
    destruct (scanLevels_terminates fs opts D Hf Hfin Hnames rounds scheds
                {| seenRealPaths := []; found := []; dirsScanned := 0;
                   reported := []; visited := [] |}
                [{| dir := rootAbs; depth := 0 |}]) as (st & Hres & Hinv & Hcount).
    { split; simpl; try constructor; intros; by apply elem_of_nil in H. }
    { simpl. lia. }
    exists st. split; [done|]. destruct Hinv as [Hseen Hwithin Hnd _ Hdistinct].
    split; [|done]. simpl in Hcount.
    pose proof (length_within D _ Hseen Hwithin). lia.
Qed.

Lemma findNodeModules_terminates_on_symlink_cycles_witness :
  ∃ st, findNodeModules (treeFS cycleTree) 8 [] ["proj"] followOptions = Resolved st ∧
        length (reported st) ≤ length (allPaths cycleTree) + 1 ∧
        NoDup (found st) ∧
        (∀ m1 m2, m1 ∈ found st → m2 ∈ found st →
                  realpath (treeFS cycleTree) (removelast m1)
                  = realpath (treeFS cycleTree) (removelast m2) → m1 = m2) ∧
        NoDup (seenRealPaths st).
Proof.
  apply (findNodeModules_terminates_on_symlink_cycles
           (treeFS cycleTree) followOptions (allPaths cycleTree) ["proj"]
           eq_refl (treeFS_finite cycleTree) (treeFS_names cycleTree eq_refl)).
  vm_compute. lia.
Defined.

(** ** Facts about the size accumulator *)

Section SizeFacts.
Variable fs : FileSystem.
Variable followSymlinks : bool.

Lemma STAT_CONCURRENCY_pos : 1 ≤ STAT_CONCURRENCY.
Proof. unfold STAT_CONCURRENCY. lia. Qed.

Lemma dirTask_batch pending sched :
  (runParallel (dirTask fs <$> pending) sched DIR_CONCURRENCY tt).2
  = Value <$> ((λ dir, {| dl_dir := dir; dl_entries := default [] (readdir fs dir) |})
                 <$> pending).
Proof.
  apply runParallel_outcomes; [apply DIR_CONCURRENCY_pos|].
  apply Forall2_fmap_l, Forall2_fmap_r, Forall2_fmap_r, Forall_Forall2_diag, Forall_forall.
  intros dir _ s'. simpl. repeat (constructor; intros).
Qed.

Lemma statTaskOf_settles (de : path * Dirent) :
  match statTaskOf fs followSymlinks de, statResultOf fs followSymlinks de with
  | None, None => True
  | Some t, Some o => ∀ s' : unit, settlesIn (eq (Value o)) (t s').2
  | _, _ => False
  end.
Proof.
  unfold statTaskOf, statResultOf.
  destruct (isSymbolicLink de.2); [destruct (negb followSymlinks)|
    destruct (isDirectory de.2); [|destruct (isFile de.2)]]; try done;
    intros s'; simpl; repeat (constructor; intros).
Qed.

Lemma statTask_batch (des : list (path * Dirent)) sched :
  (runParallel (omap (statTaskOf fs followSymlinks) des) sched STAT_CONCURRENCY tt).2
  = Value <$> omap (statResultOf fs followSymlinks) des.
Proof.
  apply runParallel_outcomes; [apply STAT_CONCURRENCY_pos|].
  apply Forall2_fmap_r.
  induction des as [|de des IH]; simpl; [constructor|].
  pose proof (statTaskOf_settles de) as Hde.
  destruct (statTaskOf fs followSymlinks de), (statResultOf fs followSymlinks de);
    try done. by constructor.
Qed.

Lemma fold_sortEntry dir entries acc :
  fold_left (sortEntry fs followSymlinks dir) entries acc
  = (acc.1 ++ omap subdirOf ((λ ent, (dir, ent)) <$> entries),
     acc.2 ++ omap (statTaskOf fs followSymlinks) ((λ ent, (dir, ent)) <$> entries)).
Proof.
  revert acc. induction entries as [|ent entries IH]; intros [nd st]; simpl.
  - by rewrite !app_nil_r.
  - rewrite IH. unfold sortEntry, subdirOf, statTaskOf. simpl.
    destruct (isSymbolicLink ent); [destruct (negb followSymlinks)|
      destruct (isDirectory ent); [|destruct (isFile ent)]]; simpl;
      rewrite <- ?app_assoc; done.
Qed.

Lemma sortListings_entries (pending : list path) acc :
  sortListings fs followSymlinks
    (Value <$> ((λ dir, {| dl_dir := dir; dl_entries := default [] (readdir fs dir) |})
                  <$> pending)) acc
  = Some (acc.1 ++ omap subdirOf (entriesOf fs pending),
          acc.2 ++ omap (statTaskOf fs followSymlinks) (entriesOf fs pending)).
Proof.
  revert acc. induction pending as [|p pending IH]; intros [nd st].
  - simpl. by rewrite !app_nil_r.
  - unfold entriesOf in *. cbn [fmap list_fmap mbind list_bind sortListings dl_dir dl_entries].
    rewrite IH, fold_sortEntry. cbn [fst snd]. by rewrite !omap_app, !app_assoc.
Qed.

Lemma fold_tally (os : list (option statInfo)) total nextDirs :
  fold_left tally (Value <$> os) (total, nextDirs)
  = ((total + sumN (gain <$> os))%N, nextDirs ++ omap linkedDir os).
Proof.
  unfold sumN. revert total nextDirs.
  induction os as [|o os IH]; intros total nextDirs; simpl.
  - by rewrite N.add_0_r, app_nil_r.
  - destruct o as [r|]; simpl; rewrite IH; [|done].
    destruct (isRegular r), (isDir r); simpl; rewrite <- ?app_assoc;
      f_equal; first [reflexivity | symmetry; apply N.add_assoc].
Qed.

(** One turn of the loop, in terms of the entries it brings. *)
Lemma sizeRounds_unfold rounds scheds total p0 pending :
  sizeRounds fs followSymlinks (S rounds) scheds total (p0 :: pending)
  = match sortListings fs followSymlinks
            (runParallel (dirTask fs <$> p0 :: pending) (hd [] scheds)
               DIR_CONCURRENCY tt).2 ([], []) with
    | None => Rejected
    | Some (nextDirs, []) =>
        sizeRounds fs followSymlinks rounds (tl scheds) total nextDirs
    | Some (nextDirs, (_ :: _) as statTasks) =>
        let '(total', nextDirs') :=
          fold_left tally
            (runParallel statTasks (hd [] (tl scheds)) STAT_CONCURRENCY tt).2
            (total, nextDirs) in
        sizeRounds fs followSymlinks rounds (tl (tl scheds)) total' nextDirs'
    end.
Proof. reflexivity. Qed.

Lemma statResultOf_none (des : list (path * Dirent)) :
  omap (statTaskOf fs followSymlinks) des = [] →
  omap (statResultOf fs followSymlinks) des = [].
Proof.
  induction des as [|de des IH]; [done|]. simpl.
  pose proof (statTaskOf_settles de) as Hde.
  destruct (statTaskOf fs followSymlinks de), (statResultOf fs followSymlinks de);
    done.
Qed.

(** One turn of the loop, in terms of the entries it brings. *)
Lemma sizeRounds_step rounds scheds total pending :
  pending ≠ [] →
  ∃ scheds',
    sizeRounds fs followSymlinks (S rounds) scheds total pending
    = sizeRounds fs followSymlinks rounds scheds'
        (total + sumN (gain <$> omap (statResultOf fs followSymlinks) (entriesOf fs pending)))%N
        (omap subdirOf (entriesOf fs pending)
         ++ omap linkedDir (omap (statResultOf fs followSymlinks) (entriesOf fs pending))).
Proof.
  intros Hne. destruct pending as [|p0 pending]; [done|].
  rewrite sizeRounds_unfold, dirTask_batch, sortListings_entries. cbn [fst snd app].
  destruct (omap (statTaskOf fs followSymlinks) (entriesOf fs (p0 :: pending)))
    as [|t ts] eqn:Htasks.
  - exists (tl scheds). rewrite (statResultOf_none _ Htasks).
    simpl. by rewrite N.add_0_r, app_nil_r.
  - exists (tl (tl scheds)). rewrite <- Htasks, statTask_batch, fold_tally. done.
Qed.

Lemma addOpt_0_l x : addOpt (Some 0%N) x = x.
Proof. by destruct x. Qed.

Lemma addOpt_0_r x : addOpt x (Some 0%N) = x.
Proof. destruct x; simpl; [|done]. by rewrite N.add_0_r. Qed.

Lemma addOpt_assoc x y z : addOpt x (addOpt y z) = addOpt (addOpt x y) z.
Proof. destruct x, y, z; simpl; try done. by rewrite N.add_assoc. Qed.

Lemma addOpt_Some x y n :
  addOpt x y = Some n → ∃ a b, x = Some a ∧ y = Some b ∧ n = (a + b)%N.
Proof. destruct x, y; simpl; intros ?; simplify_eq. eauto. Qed.

Lemma sumOpt_app l1 l2 : sumOpt (l1 ++ l2) = addOpt (sumOpt l1) (sumOpt l2).
Proof.
  induction l1 as [|x l1 IH]; [simpl; by destruct (sumOpt l2)|].
  unfold sumOpt in *. cbn [app foldr]. by rewrite IH, addOpt_assoc.
Qed.

Lemma bytesAll_app h l1 l2 :
  bytesAll fs followSymlinks h (l1 ++ l2)
  = addOpt (bytesAll fs followSymlinks h l1) (bytesAll fs followSymlinks h l2).
Proof. unfold bytesAll. by rewrite fmap_app, sumOpt_app. Qed.

(** The measure of a directory, entry by entry. *)
Lemma bytesUnder_S h p :
  bytesUnder fs followSymlinks (S h) p
  = match readdir fs p with
    | None => Some 0%N
    | Some entries => sumOpt (entryBytes fs followSymlinks h <$> ((λ ent, (p, ent)) <$> entries))
    end.
Proof.
  cbn [bytesUnder]. destruct (readdir fs p) as [entries|]; [|done].
  induction entries as [|ent entries IH]; [done|].
  cbn [foldr fmap list_fmap]. unfold sumOpt in *. cbn [foldr]. rewrite IH. f_equal.
  unfold entryBytes, statResultOf, subdirOf, bytesAll, sumOpt, isSymbolicLink,
    isDirectory, isFile, linkInfo, fileInfo. simpl.
  destruct (kind ent); simpl.
  - destruct (lstat fs (p ++ [name ent])); simpl; by rewrite ?N.add_0_r.
  - destruct (bytesUnder fs followSymlinks h (p ++ [name ent])); simpl;
      by rewrite ?N.add_0_r.
  - destruct followSymlinks; simpl; [|done].
    destruct (stat fs (p ++ [name ent])) as [st|]; simpl; [|done].
    destruct (statIsFile st), (statIsDirectory st); simpl;
      try destruct (bytesUnder fs true h (p ++ [name ent])); simpl;
      by rewrite ?N.add_0_r.
  - done.
Qed.

Lemma bytesAll_S h pending :
  bytesAll fs followSymlinks (S h) pending
  = sumOpt (entryBytes fs followSymlinks h <$> entriesOf fs pending).
Proof.
  unfold bytesAll, entriesOf. induction pending as [|p pending IH]; [done|].
  cbn [fmap list_fmap mbind list_bind]. rewrite fmap_app, sumOpt_app, <- IH.
  unfold sumOpt at 1. cbn [foldr]. f_equal. rewrite bytesUnder_S.
  by destruct (readdir fs p).
Qed.

(** What the entries of a batch are worth: what their stats add at once
    plus the measure of the directories they leave for the next batch. *)
Lemma entries_split h (des : list (path * Dirent)) n :
  sumOpt (entryBytes fs followSymlinks h <$> des) = Some n →
  ∃ n',
    bytesAll fs followSymlinks h
      (omap subdirOf des ++ omap linkedDir (omap (statResultOf fs followSymlinks) des))
    = Some n' ∧
    n = (sumN (gain <$> omap (statResultOf fs followSymlinks) des) + n')%N.
Proof.
  revert n. induction des as [|de des IH]; intros n Hn.
  - simpl in *. exists 0%N. split; [done|]. by simplify_eq.
  - cbn [fmap list_fmap] in Hn. unfold sumOpt in Hn. cbn [foldr] in Hn.
    apply addOpt_Some in Hn as (a & b & Ha & Hb & ->).
    destruct (IH b Hb) as (n' & Hn' & ->). clear IH Hb.
    unfold entryBytes in Ha. apply addOpt_Some in Ha as (g & c & Hg & Hc & ->).
    simplify_eq. rewrite bytesAll_app in Hc, Hn'.
    apply addOpt_Some in Hc as (c1 & c2 & Hc1 & Hc2 & ->).
    apply addOpt_Some in Hn' as (d1 & d2 & Hd1 & Hd2 & ->).
    exists (c1 + d1 + (c2 + d2))%N. split.
    + rewrite bytesAll_app.
      assert (∀ {A B} (f : A → option B) x l,
                omap f (x :: l) = option_list (f x) ++ omap f l) as Hcons.
      { intros A B f x l. simpl. by destruct (f x). }
      rewrite !Hcons, !omap_app, !bytesAll_app, Hc1, Hd1, Hc2, Hd2. done.
    + assert (omap (statResultOf fs followSymlinks) (de :: des)
              = option_list (statResultOf fs followSymlinks de)
                ++ omap (statResultOf fs followSymlinks) des) as ->.
      { simpl. by destruct (statResultOf fs followSymlinks de). }
      rewrite fmap_app. unfold sumN. rewrite foldr_app.
      assert (∀ (l : list N) (k : N), foldr N.add k l = (foldr N.add 0 l + k)%N) as Hk.
      { induction l as [|x l IHl]; intros k; simpl; [done|]. rewrite IHl. lia. }
      rewrite (Hk _ (foldr _ _ _)). lia.
Qed.

(** The loop computes the measure: breadth first, batch by batch, it
    adds up what the depth-first definition adds up. *)
Lemma sizeRounds_measure h : ∀ rounds scheds total pending n,
  bytesAll fs followSymlinks h pending = Some n → h ≤ rounds →
  sizeRounds fs followSymlinks rounds scheds total pending = Resolved (total + n)%N.
Proof.
  induction h as [|h IH]; intros rounds scheds total pending n Hn Hle.
  - destruct pending as [|p pending]; [|done].
    assert (n = 0%N) as -> by (by injection Hn).
    destruct rounds; simpl; by rewrite N.add_0_r.
  - destruct pending as [|p pending].
    { assert (n = 0%N) as -> by (by injection Hn).
      destruct rounds; simpl; by rewrite N.add_0_r. }
    destruct rounds as [|rounds]; [lia|].
    destruct (sizeRounds_step rounds scheds total (p :: pending) ltac:(done)) as [scheds' ->].
    rewrite bytesAll_S in Hn. apply entries_split in Hn as (n' & Hn' & ->).
    rewrite (IH rounds scheds' _ _ n' Hn' ltac:(lia)). f_equal. lia.
Qed.

End SizeFacts.

(** *** The accumulator's contract *)

Example sixHundred_measure :
  bytesUnder (treeFS sixHundredTree) false 2 ["node_modules"] = Some 600%N.
Proof. vm_compute. reflexivity. Qed.

Example linked_run_following :
  getDirSizeBytes (treeFS linkedTree) 3 [[0; 1]; [3; 2; 1; 0]] ["node_modules"] true
  = Resolved 657%N.
Proof. vm_compute. reflexivity. Qed.

Lemma getDirSizeBytes_measure fs followSymlinks dirPath h n rounds scheds :
  bytesUnder fs followSymlinks h dirPath = Some n → h ≤ rounds →
  getDirSizeBytes fs rounds scheds dirPath followSymlinks = Resolved n.
Proof.
  intros Hn Hle. unfold getDirSizeBytes.
  rewrite (sizeRounds_measure fs followSymlinks h rounds scheds 0%N [dirPath] n); [done| |done].
  unfold bytesAll, sumOpt. simpl. rewrite Hn. simpl. by rewrite N.add_0_r.
Qed.

(** The accumulator never rejects: no slot of either batch is empty or
    holds an error. *)
Lemma sizeRounds_never_rejects fs followSymlinks rounds : ∀ scheds total pending,
  sizeRounds fs followSymlinks rounds scheds total pending ≠ Rejected.
Proof.
  induction rounds as [|rounds IH]; intros scheds total pending.
  - by destruct pending.
  - destruct pending as [|p pending]; [done|].
    destruct (sizeRounds_step fs followSymlinks rounds scheds total (p :: pending)
                ltac:(done)) as [scheds' ->].
    apply IH.
Qed.

(** A root that cannot be listed measures 0. *)
Lemma getDirSizeBytes_unlistable fs followSymlinks dirPath rounds scheds :
  readdir fs dirPath = None → 1 ≤ rounds →
  getDirSizeBytes fs rounds scheds dirPath followSymlinks = Resolved 0%N.
Proof.
  intros Hrd Hr. apply (getDirSizeBytes_measure _ _ _ 1); [|done].
  simpl. by rewrite Hrd.
Qed.



(** *** Totality *)

Lemma sizeRounds_more fs followSymlinks rounds : ∀ rounds' scheds scheds' total pending n,
  sizeRounds fs followSymlinks rounds scheds total pending = Resolved n →
  rounds ≤ rounds' →
  sizeRounds fs followSymlinks rounds' scheds' total pending = Resolved n.
Proof.
  induction rounds as [|rounds IH]; intros rounds' scheds scheds' total pending n Hres Hle.
  - destruct pending; [|done]. by destruct rounds'.
  - destruct pending as [|p pending]; [by destruct rounds'|].
    destruct rounds' as [|rounds']; [lia|].
    destruct (sizeRounds_step fs followSymlinks rounds scheds total (p :: pending)
                ltac:(done)) as [s1 H1].
    destruct (sizeRounds_step fs followSymlinks rounds' scheds' total (p :: pending)
                ltac:(done)) as [s2 H2].
    rewrite H1 in Hres. rewrite H2. eapply IH; [exact Hres|lia].
Qed.

Section SizeBounded.
Variable fs : FileSystem.
Variable followSymlinks : bool.
Variable H : nat.
Hypothesis bounded : ∀ p, H ≤ length p → readdir fs p = None.

Lemma entriesOf_length pending ℓ de :
  (∀ p, p ∈ pending → length p = ℓ) → de ∈ entriesOf fs pending →
  length de.1 = ℓ ∧ ℓ < H.
Proof using bounded.
  intros Hlen Hde. unfold entriesOf in Hde.
  apply list_elem_of_bind in Hde as (p & Hde & Hp).
  apply list_elem_of_fmap in Hde as (ent & -> & Hent). simpl.
  split; [by apply Hlen|].
  destruct (decide (ℓ < H)) as [|Hge]; [done|].
  rewrite bounded in Hent by (rewrite (Hlen p Hp); lia). by apply elem_of_nil in Hent.
Qed.

Lemma nextDirs_length pending ℓ q :
  (∀ p, p ∈ pending → length p = ℓ) →
  q ∈ omap subdirOf (entriesOf fs pending)
      ++ omap linkedDir (omap (statResultOf fs followSymlinks) (entriesOf fs pending)) →
  length q = S ℓ ∧ ℓ < H.
Proof using bounded.
  intros Hlen Hq.
  assert (∃ de, de ∈ entriesOf fs pending ∧ q = de.1 ++ [name de.2]) as (de & Hde & ->).
  { apply elem_of_app in Hq as [Hq|Hq].
    - apply list_elem_of_omap in Hq as (de & Hde & Hq). exists de. split; [done|].
      unfold subdirOf in Hq.
      destruct (isSymbolicLink de.2); [done|]. destruct (isDirectory de.2); [|done].
      by injection Hq as <-.
    - apply list_elem_of_omap in Hq as (o & Ho & Hq).
      apply list_elem_of_omap in Ho as (de & Hde & Ho). exists de. split; [done|].
      unfold statResultOf in Ho.
      destruct (isSymbolicLink de.2).
      + destruct (negb followSymlinks); [done|]. injection Ho as <-.
        unfold linkInfo in Hq.
        destruct (stat fs (de.1 ++ [name de.2])) as [st|]; [|done]. simpl in Hq.
        destruct (statIsDirectory st); [|done]. by injection Hq as <-.
      + destruct (isDirectory de.2); [done|]. destruct (isFile de.2); [|done].
        injection Ho as <-. unfold fileInfo in Hq.
        destruct (lstat fs (de.1 ++ [name de.2])); done. }
  destruct (entriesOf_length _ _ _ Hlen Hde) as [Hl Hlt]. split; [|done].
  rewrite length_app, Hl. simpl. lia.
Qed.

Lemma sizeRounds_bounded rounds : ∀ ℓ scheds total pending,
  (∀ p, p ∈ pending → length p = ℓ) → (H - ℓ) + 1 ≤ rounds →
  ∃ n, sizeRounds fs followSymlinks rounds scheds total pending = Resolved n.
Proof using bounded.
  induction rounds as [|rounds IH]; intros ℓ scheds total pending Hlen Hr; [lia|].
  destruct pending as [|p pending]; [by eexists|].
  destruct (sizeRounds_step fs followSymlinks rounds scheds total (p :: pending)
              ltac:(done)) as [scheds' ->].
  destruct (omap subdirOf _ ++ omap linkedDir _) as [|q qs] eqn:Hnext.
  { destruct rounds; by eexists. }
  destruct (nextDirs_length (p :: pending) ℓ q Hlen) as [_ Hq].
  { rewrite Hnext. apply list_elem_of_here. }
  apply (IH (S ℓ)); [|lia].
  intros q' Hq'. rewrite <- Hnext in Hq'. by destruct (nextDirs_length _ _ _ Hlen Hq').
Qed.

End SizeBounded.

(** Every run over a tree file system returns: the links of a
    resolution are limited, so long paths are refused. *)
Lemma getDirSizeBytes_on_trees root followSymlinks rounds scheds dirPath :
  pathBound root + 1 ≤ rounds →
  ∃ n, getDirSizeBytes (treeFS root) rounds scheds dirPath followSymlinks = Resolved n.
Proof.
  intros Hr.
  apply (sizeRounds_bounded (treeFS root) followSymlinks (pathBound root)
           (treeFS_bounded root) rounds (length dirPath)); [|lia].
  intros p Hp. by apply list_elem_of_singleton in Hp as ->.
Qed.

(** *** A directory that links to itself *)

Example selfLink_measure :
  bytesUnder (treeFS selfLinkTree) true 41 ["nm"] = Some 410%N.
Proof. vm_compute. reflexivity. Qed.



(** ** Facts about the rows *)

Section SortFacts.
Context {A : Type}.
Variable compare : A → A → Z.

Lemma insertSorted_perm x (l : list A) : insertSorted compare x l ≡ₚ x :: l.
Proof.
  induction l as [|y l IH]; simpl; [done|].
  destruct (compare x y <=? 0)%Z; [done|].
  rewrite IH. apply Permutation_swap.
Qed.

Lemma arraySort_perm (l : list A) : arraySort compare l ≡ₚ l.
Proof.
  induction l as [|x l IH]; simpl; [done|].
  unfold arraySort in *. simpl. by rewrite insertSorted_perm, IH.
Qed.

End SortFacts.

(** Sorting with a comparator that subtracts keys. *)
Section SortByKey.
Context {A : Type}.
Variable key : A → N.

Lemma insertSorted_by_key (x : A) (l : list A) :
  StronglySorted (λ a b, (key b ≤ key a)%N) l →
  StronglySorted (λ a b, (key b ≤ key a)%N) (insertSorted (byKeyDesc key) x l).
Proof.
  induction 1 as [|y l Hsorted IH Hall]; simpl.
  - repeat constructor.
  - unfold byKeyDesc at 1. destruct (Z.leb_spec (Z.of_N (key y) - Z.of_N (key x)) 0).
    + constructor; [by constructor|]. constructor; [lia|].
      eapply Forall_impl; [exact Hall|]. simpl. intros z Hz. lia.
    + constructor; [done|].
      rewrite insertSorted_perm. constructor; [lia|done].
Qed.

Lemma arraySort_by_key (l : list A) :
  StronglySorted (λ a b, (key b ≤ key a)%N) (arraySort (byKeyDesc key) l).
Proof.
  induction l as [|x l IH]; [constructor|].
  by apply insertSorted_by_key.
Qed.

End SortByKey.

Lemma arraySort_descending (rows : list row) :
  StronglySorted (λ a b, (sizeOrZero b ≤ sizeOrZero a)%N) (arraySort bySizeDesc rows).
Proof. apply (arraySort_by_key sizeOrZero). Qed.

(** Rows that all have a size are sorted as their sizes are. *)
Lemma insertSorted_values (v : sizeRow) (vs : list sizeRow) :
  insertSorted bySizeDesc (Value v) (Value <$> vs)
  = Value <$> insertSorted (byKeyDesc sizeBytes) v vs.
Proof.
  induction vs as [|w vs IH]; [done|]. rewrite fmap_cons. cbn [insertSorted].
  change (bySizeDesc (Value v) (Value w)) with (byKeyDesc sizeBytes v w).
  destruct (byKeyDesc sizeBytes v w <=? 0)%Z; [done|]. by rewrite IH.
Qed.

Lemma arraySort_values (vs : list sizeRow) :
  arraySort bySizeDesc (Value <$> vs) = Value <$> arraySort (byKeyDesc sizeBytes) vs.
Proof.
  induction vs as [|v vs IH]; [done|]. unfold arraySort in *. rewrite fmap_cons.
  cbn [foldr]. by rewrite IH, insertSorted_values.
Qed.

Lemma totalBytes_sum (rows : list row) : totalBytes rows = sumN (sizeOrZero <$> rows).
Proof.
  unfold totalBytes, sumN.
  assert (∀ acc, fold_left (λ sum r, (sum + sizeOrZero r)%N) rows acc
                 = (acc + foldr N.add 0 (sizeOrZero <$> rows))%N) as Hacc.
  { induction rows as [|r rows IH]; intros acc; simpl; [by rewrite N.add_0_r|].
    rewrite IH. symmetry. apply N.add_assoc. }
  by rewrite Hacc.
Qed.

Lemma sumN_perm (l k : list N) : l ≡ₚ k → sumN l = sumN k.
Proof. unfold sumN. induction 1; simpl; lia. Qed.

(** C9.  What is handed to rendering is a rearrangement of the rows in
    descending order of size, a row without a size (its size task
    failed) taking the place of a row of size 0, and [totalBytes] is the
    sum of the sizes of all rows, such a row adding 0; the total is the
    same over the rows as sorted.  A row with a size counts with that
    size: when every row has one, the sorted rows are the records
    rearranged in descending order of [sizeBytes], and the total is the
    sum of their [sizeBytes]. *)
Theorem report_sorted_descending_with_total (rows : list row) :
  let '(total, sorted) := report rows in
  sorted ≡ₚ rows ∧
  StronglySorted (λ a b, (sizeOrZero b ≤ sizeOrZero a)%N) sorted ∧
  (∀ v, sizeOrZero (Value v) = sizeBytes v) ∧
  (∀ e, sizeOrZero (Caught e) = 0%N) ∧
  total = sumN (sizeOrZero <$> rows) ∧
  total = totalBytes sorted ∧
  (∀ vs, rows = Value <$> vs →
         ∃ ws, sorted = Value <$> ws ∧ ws ≡ₚ vs ∧
               StronglySorted (λ a b, (sizeBytes b ≤ sizeBytes a)%N) ws ∧
               total = sumN (sizeBytes <$> vs)).
Proof.
  unfold report. split; [apply arraySort_perm|]. split; [apply arraySort_descending|].
  split; [done|]. split; [done|]. split; [apply totalBytes_sum|]. split.
  - rewrite !totalBytes_sum. apply sumN_perm. by rewrite arraySort_perm.
  - intros vs ->. exists (arraySort (byKeyDesc sizeBytes) vs).
    split; [apply arraySort_values|]. split; [apply arraySort_perm|].
    split; [apply arraySort_by_key|].
    by rewrite totalBytes_sum, <- list_fmap_compose.
Qed.

Example report_sample :
  report [ Value {| nmPath := ["a"]; sizeBytes := 5 |};
           Caught EACCES;
           Value {| nmPath := ["b"]; sizeBytes := 9 |};
           Value {| nmPath := ["c"]; sizeBytes := 5 |} ]
  = (19%N,
     [ Value {| nmPath := ["b"]; sizeBytes := 9 |};
       Value {| nmPath := ["a"]; sizeBytes := 5 |};
       Value {| nmPath := ["c"]; sizeBytes := 5 |};
       Caught EACCES ]).
Proof. reflexivity. Qed.

(** ** The deletion phase *)

Section OmapFacts.
Context {A B : Type} (f : A → option B).

Lemma omap_insert_same (l : list A) i x y :
  l !! i = Some x → f y = f x → omap f (<[i:=y]> l) = omap f l.
Proof.
  revert i. induction l as [|a l IH]; intros [|i] Hi Hf; simplify_eq/=.
  - by rewrite Hf.
  - by rewrite (IH i).
Qed.

Lemma omap_insert_new (l : list A) i x y :
  l !! i = Some x → f x = None →
  omap f (<[i:=y]> l) ≡ₚ omap f l ++ option_list (f y).
Proof.
  revert i. induction l as [|a l IH]; intros [|i] Hi Hf; simplify_eq/=.
  - rewrite Hf. destruct (f y) as [b|]; simpl; [|by rewrite app_nil_r].
    apply Permutation_cons_append.
  - destruct (f a); simpl; by rewrite (IH i).
Qed.
End OmapFacts.

Lemma countResults_total (rs : list (slot deleteOutcome Error)) a b :
  (Hole ∉ rs) →
  ∃ r f, countResults rs a b = Some (r, f) ∧ r + f = a + b + length rs.
Proof.
  revert a b. induction rs as [|x rs IH]; intros a b Hrs.
  - exists a, b. simpl. split; [done|lia].
  - apply not_elem_of_cons in Hrs as [Hx Hrs]. destruct x as [|o|e]; [done|..]; simpl.
    + destruct (success o).
      * destruct (IH (S a) b Hrs) as (r & f & -> & Hrf). exists r, f. split; [done|lia].
      * destruct (IH a (S b) Hrs) as (r & f & -> & Hrf). exists r, f. split; [done|lia].
    + destruct (IH a (S b) Hrs) as (r & f & -> & Hrf). exists r, f. split; [done|lia].
Qed.

Lemma damaged_spec p f d q :
  q ∈ damaged p f d ↔ q ∈ d ∧ ¬ (p `prefix_of` q ∧ q ≠ p ∧ lost f q = true).
Proof. unfold damaged. rewrite list_elem_of_filter. tauto. Qed.

Section DeletionFacts.
Variable faults : path → nat → option fault.
Variable isInteractive : bool.
Variable rows : list row.
Variable disk0 : list path.

Abbreviation D := (deleteInv faults isInteractive rows disk0).
Abbreviation shown := (render faults isInteractive disk0).
Abbreviation note := (noted faults disk0).

Lemma attempts_unfold p retries n d :
  attempts faults p retries n d
  = match faults p n with
    | None => (filter (λ q, ¬ p `prefix_of` q) d, None)
    | Some f =>
        if retryable (cause f) then
          match retries with
          | 0 => (damaged p f d, Some (cause f))
          | S r => attempts faults p r (S n) (damaged p f d)
          end
        else (damaged p f d, Some (cause f))
    end.
Proof. by destruct retries. Qed.

(** Whether a call fails, and with what, does not depend on what is
    below the target. *)
Lemma attempts_error p retries : ∀ n d d',
  (attempts faults p retries n d).2 = (attempts faults p retries n d').2.
Proof.
  induction retries as [|r IH]; intros n d d';
    rewrite (attempts_unfold p _ n d), (attempts_unfold p _ n d');
    (destruct (faults p n) as [f|]; [|done]); (destruct (retryable (cause f)); [|done]).
  - done.
  - apply IH.
Qed.

Lemma attempts_disk p retries : ∀ n d q,
  q ∈ (attempts faults p retries n d).1
  ↔ q ∈ d ∧ ¬ (p `prefix_of` q ∧
               ((attempts faults p retries n d).2 = None
                ∨ (q ≠ p ∧ wrecked faults p retries n q = true))).
Proof.
  assert (∀ (A P N L : Prop) (e : Error),
            A ∧ ¬ (P ∧ N ∧ L) ↔ A ∧ ¬ (P ∧ (Some e = None ∨ N ∧ L))) as Hfail.
  { intros A P N L e. split; (intros [? Hn]; split; [done|]).
    - intros [? [?|?]]; [done|tauto].
    - intros (? & ? & ?). apply Hn. tauto. }
  induction retries as [|r IH]; intros n d q; rewrite (attempts_unfold p _ n d);
    cbn [wrecked]; destruct (faults p n) as [f|]; cbn [fst snd];
    try (rewrite list_elem_of_filter; tauto).
  - destruct (retryable (cause f)); cbn [fst snd];
      rewrite damaged_spec, orb_false_r; apply Hfail.
  - destruct (retryable (cause f)); cbn [fst snd].
    + rewrite IH, damaged_spec. destruct (lost f q); simpl; intuition congruence.
    + rewrite damaged_spec, orb_false_r. apply Hfail.
Qed.

Lemma removeDir_spec p d q :
  q ∈ (removeDir faults p d).1
  ↔ q ∈ d ∧ ¬ (p ∈ d ∧ p `prefix_of` q ∧
               ((removeDir faults p d).2 = None
                ∨ (q ≠ p ∧ wrecked faults p 3 0 q = true))).
Proof.
  unfold removeDir, rm. case_bool_decide as Hp; cbn [recursive force maxRetries];
    [|simpl; tauto].
  rewrite attempts_disk. tauto.
Qed.

Lemma removeDir_verdict p d :
  (p ∈ d ↔ p ∈ disk0) → (removeDir faults p d).2 = verdict faults disk0 p.
Proof.
  intros Hp. unfold verdict, removeDir, rm. rewrite (bool_decide_ext _ _ Hp).
  case_bool_decide; cbn [recursive force maxRetries]; [|done]. apply attempts_error.
Qed.

Lemma verdict_missing p : (p ∉ disk0) → verdict faults disk0 p = None.
Proof. intros Hp. unfold verdict, removeDir, rm. by rewrite bool_decide_eq_false_2. Qed.

Lemma verdict_present p :
  p ∈ disk0 → verdict faults disk0 p = (attempts faults p 3 0 disk0).2.
Proof.
  intros Hp. unfold verdict, removeDir, rm. by rewrite bool_decide_eq_true_2 by done.
Qed.

Lemma attempts_refused p f retries n d :
  (∀ k, n ≤ k ≤ n + retries → faults p k = Some f) →
  (attempts faults p retries n d).2 = Some (cause f).
Proof.
  revert n d. induction retries as [|r IH]; intros n d Hf;
    rewrite attempts_unfold, Hf by lia.
  - by destruct (retryable (cause f)).
  - destruct (retryable (cause f)); [|done]. apply IH. intros k Hk. apply Hf. lia.
Qed.

(** When a call succeeds: one of its attempts goes through, those before
    it having failed with a retryable error. *)
Lemma attempts_None p retries : ∀ n d,
  (attempts faults p retries n d).2 = None
  ↔ ∃ k, k ≤ retries ∧ faults p (n + k) = None ∧
         ∀ j, j < k → ∃ f, faults p (n + j) = Some f ∧ retryable (cause f) = true.
Proof.
  induction retries as [|r IH]; intros n d; rewrite attempts_unfold.
  - destruct (faults p n) as [f|] eqn:Hn.
    + split; [by destruct (retryable (cause f))|].
      intros (k & Hk & Hnone & _). assert (k = 0) as -> by lia.
      rewrite Nat.add_0_r in Hnone. congruence.
    + split; [|done]. intros _. exists 0. rewrite Nat.add_0_r.
      split; [done|]. split; [done|]. intros j Hj. lia.
  - destruct (faults p n) as [f|] eqn:Hn.
    + destruct (retryable (cause f)) eqn:He.
      * rewrite IH. split.
        -- intros (k & Hk & Hnone & Hbefore). exists (S k). split; [lia|].
           rewrite Nat.add_succ_r. split; [done|].
           intros [|j] Hj; [rewrite Nat.add_0_r; eauto|].
           rewrite Nat.add_succ_r. apply Hbefore. lia.
        -- intros ([|k] & Hk & Hnone & Hbefore).
           { rewrite Nat.add_0_r in Hnone. congruence. }
           exists k. split; [lia|]. rewrite Nat.add_succ_r in Hnone. split; [done|].
           intros j Hj. specialize (Hbefore (S j) ltac:(lia)).
           by rewrite Nat.add_succ_r in Hbefore.
      * split; [done|]. intros ([|k] & Hk & Hnone & Hbefore).
        { rewrite Nat.add_0_r in Hnone. congruence. }
        destruct (Hbefore 0 ltac:(lia)) as (f' & Hf' & Hr).
        rewrite Nat.add_0_r in Hf'. congruence.
    + split; [|done]. intros _. exists 0. rewrite Nat.add_0_r.
      split; [lia|]. split; [done|]. intros j Hj. lia.
Qed.

(** When a call fails: with the error of its last attempt, which is the
    first one to meet an error that is not retryable, or else the one
    after the last retry. *)
Lemma attempts_Some p retries e : ∀ n d,
  (attempts faults p retries n d).2 = Some e →
  ∃ k f, k ≤ retries ∧ faults p (n + k) = Some f ∧ cause f = e ∧
         (k = retries ∨ retryable e = false) ∧
         ∀ j, j < k → ∃ f', faults p (n + j) = Some f' ∧ retryable (cause f') = true.
Proof.
  induction retries as [|r IH]; intros n d; rewrite attempts_unfold;
    destruct (faults p n) as [f|] eqn:Hn; try done.
  - intros He. exists 0, f. rewrite Nat.add_0_r.
    assert (cause f = e) as <- by (by destruct (retryable (cause f)); simplify_eq/=).
    split; [done|]. split; [done|]. split; [done|]. split; [by left|].
    intros j Hj. lia.
  - destruct (retryable (cause f)) eqn:Hr.
    + intros He. apply IH in He as (k & f' & Hk & Hf' & Hc & Hlast & Hbefore).
      exists (S k), f'. rewrite Nat.add_succ_r. split; [lia|]. split; [done|].
      split; [done|]. split; [destruct Hlast; [left; lia|by right]|].
      intros [|j] Hj; [rewrite Nat.add_0_r; eauto|].
      rewrite Nat.add_succ_r. apply Hbefore. lia.
    + intros He. simplify_eq/=. exists 0, f. rewrite Nat.add_0_r.
      split; [lia|]. split; [done|]. split; [done|]. split; [by right|].
      intros j Hj. lia.
Qed.

Lemma taken_dec p q : Decision (taken faults disk0 p q).
Proof. unfold taken. apply _. Defined.

Lemma zip_with_insert_r {A B C} (f : A → B → C) (l : list A) (k : list B) i x y :
  l !! i = Some x → zip_with f l (<[i:=y]> k) = <[i:=f x y]> (zip_with f l k).
Proof. intros Hx. by rewrite insert_zip_with, (list_insert_id l i x). Qed.

Lemma noted_insert_quiet i r ph ph' phs :
  rows !! i = Some r → phs !! i = Some ph → note r ph' = note r ph →
  omap id (zip_with note rows (<[i:=ph']> phs)) = omap id (zip_with note rows phs).
Proof.
  intros Hr Hph Hn. rewrite (zip_with_insert_r _ _ _ _ r) by done.
  apply (omap_insert_same _ _ _ (note r ph)); [|done].
  rewrite lookup_zip_with, Hr, Hph. done.
Qed.

Lemma noted_insert_told i r ph ph' phs :
  rows !! i = Some r → phs !! i = Some ph → note r ph = None →
  omap id (zip_with note rows (<[i:=ph']> phs))
  ≡ₚ omap id (zip_with note rows phs) ++ option_list (note r ph').
Proof.
  intros Hr Hph Hn. rewrite (zip_with_insert_r _ _ _ _ r) by done.
  apply (omap_insert_new id _ _ (note r ph)); [|done].
  rewrite lookup_zip_with, Hr, Hph. done.
Qed.

Lemma shown_lookup s σ phs i g :
  D s σ phs → σ !! i = Some g →
  ∃ r ph, rows !! i = Some r ∧ phs !! i = Some ph ∧ g = shown r ph.
Proof.
  intros HD Hg. rewrite (di_track _ _ _ _ _ _ _ HD) in Hg.
  apply lookup_zip_with_Some in Hg as (r & ph & -> & Hr & Hph). eauto.
Qed.

(** A task moves on without touching the disk. *)
Lemma deleteInv_move s s' σ phs i r ph ph' :
  rows !! i = Some r → phs !! i = Some ph → D s σ phs →
  disk s' = disk s → (∀ v, r = Value v → past ph' = past ph) →
  deleteErrors s' ≡ₚ omap id (zip_with note rows (<[i:=ph']> phs)) →
  D s' (<[i:=shown r ph']> σ) (<[i:=ph']> phs).
Proof.
  intros Hr Hph [H0 Hlen H1 H2 H3 H4 H5] Hd Hp He.
  pose proof (lookup_lt_Some _ _ _ Hph) as Hlt. split.
  - by rewrite H0, (zip_with_insert_r _ _ _ _ r).
  - by rewrite length_insert.
  - by rewrite Hd.
  - rewrite Hd. intros q Hq Hnq.
    destruct (H2 q Hq Hnq) as (j & v & phj & Hj & Hphj & Hpast & Hrest).
    destruct (decide (j = i)) as [->|Hne].
    + exists i, v, ph'. rewrite list_lookup_insert_eq by done.
      assert (phj = ph) as -> by congruence.
      rewrite (Hp v) by congruence. auto.
    + exists j, v, phj. rewrite list_lookup_insert_ne by done. auto.
  - rewrite Hd. intros j v phj Hj Hphj Hpast. destruct (decide (j = i)) as [->|Hne].
    + rewrite list_lookup_insert_eq in Hphj by done.
      assert (phj = ph') as -> by congruence.
      apply (H3 i v ph); [done..|]. rewrite <- (Hp v); [done|congruence].
    + rewrite list_lookup_insert_ne in Hphj by done. by apply (H3 j v phj).
  - rewrite Hd. intros j v phj Hj Hphj Hpast. destruct (decide (j = i)) as [->|Hne].
    + rewrite list_lookup_insert_eq in Hphj by done.
      assert (phj = ph') as -> by congruence.
      apply (H4 i v ph); [done..|]. rewrite <- (Hp v); [done|congruence].
    + rewrite list_lookup_insert_ne in Hphj by done. by apply (H4 j v phj).
  - done.
Qed.

Hypothesis rows_independent : independent rows.

(** The removal of a target takes effect. *)
Lemma deleteInv_removal s σ phs i v :
  rows !! i = Some (Value v) → phs !! i = Some Removing → D s σ phs →
  D (effect faults (nmPath v) s)
    (<[i:=Running (resumed isInteractive (nmPath v)
                     (removeDir faults (nmPath v) (disk s)).2)]> σ)
    (<[i:=Recording]> phs).
Proof using rows_independent.
  intros Hr Hph HD. pose proof HD as [H0 Hlen H1 H2 H3 H4 H5].
  pose proof (lookup_lt_Some _ _ _ Hph) as Hlt.
  set (p := nmPath v) in *.
  assert (p ∈ disk s ↔ p ∈ disk0) as Hmem.
  { split; [apply H1|]. by apply (H3 i v Removing). }
  rewrite (removeDir_verdict p (disk s) Hmem).
  assert (∀ q, q ∈ disk (effect faults p s)
               ↔ q ∈ disk s ∧ ¬ taken faults disk0 p q) as Hdisk.
  { intros q. simpl. rewrite removeDir_spec, (removeDir_verdict p (disk s) Hmem).
    unfold taken. tauto. }
  split.
  - by rewrite H0, (zip_with_insert_r _ _ _ _ (Value v)).
  - by rewrite length_insert.
  - intros q Hq. apply Hdisk in Hq. apply H1, Hq.
  - intros q Hq Hnq. rewrite Hdisk in Hnq.
    destruct (decide (q ∈ disk s)) as [Hin|Hout].
    + exists i, v, Recording. rewrite list_lookup_insert_eq by done.
      split; [done|]. split; [done|]. split; [done|].
      destruct (taken_dec p q) as [|Hnt]; [done|]. by destruct Hnq.
    + destruct (H2 q Hq Hout) as (j & w & phj & Hj & Hphj & Hpast & Hrest).
      assert (j ≠ i) as Hne.
      { intros ->. assert (phj = Removing) as -> by congruence. done. }
      exists j, w, phj. rewrite list_lookup_insert_ne by done. auto.
  - intros j w phj Hj Hphj Hpast Hw. destruct (decide (j = i)) as [->|Hne].
    + rewrite list_lookup_insert_eq in Hphj by done. by simplify_eq.
    + rewrite list_lookup_insert_ne in Hphj by done. apply Hdisk. split.
      * by apply (H3 j w phj).
      * intros (_ & Hpre & _). by apply (rows_independent i j v w).
  - intros j w phj Hj Hphj Hpast q Hq. rewrite Hdisk.
    destruct (decide (j = i)) as [->|Hne].
    + assert (w = v) as -> by congruence. fold p in Hq. tauto.
    + rewrite list_lookup_insert_ne in Hphj by done.
      pose proof (H4 j w phj Hj Hphj Hpast q Hq). tauto.
  - simpl. rewrite (noted_insert_quiet i (Value v) Removing) by done. done.
Qed.

Lemma deleteTask_Caught e s :
  deleteTask faults isInteractive (Caught e) s
  = (recordFailure isInteractive None invalidPath s, Ret nameless)
  ∨ deleteTask faults isInteractive (Caught e) s = (s, rejection isInteractive).
Proof. unfold deleteTask. destruct isInteractive; auto. Qed.

Lemma shown_Waiting r ph : shown r ph = Waiting → ph = Queued.
Proof. by destruct r, ph. Qed.

Lemma deleteOk_invoke s σ i t :
  (deleteTask faults isInteractive <$> rows) !! i = Some t →
  σ !! i = Some Waiting →
  deleteOk faults isInteractive rows disk0 s σ →
  deleteOk faults isInteractive rows disk0 (t s).1 (<[i := Running (t s).2]> σ).
Proof.
  intros Ht Hi [phs HD]. apply list_lookup_fmap_Some in Ht as (r & -> & Hr).
  destruct (shown_lookup _ _ _ _ _ HD Hi) as (r' & ph & Hr' & Hph & Hg).
  assert (r' = r) as -> by congruence.
  symmetry in Hg. apply shown_Waiting in Hg as ->.
  destruct r as [|v|e].
  - exists (<[i:=Removing]> phs).
    apply (deleteInv_move s s σ phs i Hole Queued Removing); [done..|].
    rewrite (noted_insert_quiet i Hole Queued) by done. apply HD.
  - exists (<[i:=Removing]> phs).
    apply (deleteInv_move s s σ phs i (Value v) Queued Removing); [done..|].
    rewrite (noted_insert_quiet i (Value v) Queued) by done. apply HD.
  - destruct (deleteTask_Caught e s) as [-> | ->].
    + exists (<[i:=Returning]> phs).
      apply (deleteInv_move s _ σ phs i (Caught e) Queued Returning); [done..|].
      rewrite (noted_insert_told i (Caught e) Queued) by done. simpl.
      by rewrite (di_errors _ _ _ _ _ _ _ HD).
    + exists (<[i:=Removing]> phs).
      apply (deleteInv_move s s σ phs i (Caught e) Queued Removing); [done..|].
      rewrite (noted_insert_quiet i (Caught e) Queued) by done. apply HD.
Qed.

Lemma recordOf_kept p e :
  verdict faults disk0 p = Some e →
  recordOf faults disk0 (kept p) = Some (Some p, message e).
Proof. intros Hv. unfold recordOf. simpl. by rewrite Hv. Qed.

Lemma outcomeOf_gone p :
  verdict faults disk0 p = None → outcomeOf faults disk0 p = gone p.
Proof. intros Hv. unfold outcomeOf. by rewrite Hv. Qed.

Lemma outcomeOf_kept p e :
  verdict faults disk0 p = Some e → outcomeOf faults disk0 p = kept p.
Proof. intros Hv. unfold outcomeOf. by rewrite Hv. Qed.

Lemma deleteOk_await s σ i upd k :
  σ !! i = Some (Running (Await upd k)) →
  deleteOk faults isInteractive rows disk0 s σ →
  deleteOk faults isInteractive rows disk0 (upd s) (<[i := Running (k s)]> σ).
Proof using rows_independent.
  intros Hi [phs HD].
  destruct (shown_lookup _ _ _ _ _ HD Hi) as (r & ph & Hr & Hph & Hg).
  destruct r as [|v|e].
  - destruct ph; discriminate.
  - destruct ph; try discriminate; simpl in Hg.
    + unfold removal in Hg. injection Hg as -> ->.
      exists (<[i:=Recording]> phs). by apply deleteInv_removal.
    + exists (<[i:=Returning]> phs).
      destruct (verdict faults disk0 (nmPath v)) as [err|] eqn:Hv;
        simpl in Hg; injection Hg as -> ->.
      * rewrite <- (outcomeOf_kept _ _ Hv).
        apply (deleteInv_move s _ σ phs i (Value v) Recording Returning); [done..|].
        rewrite (noted_insert_told i (Value v) Recording) by done.
        change (note (Value v) Returning)
          with (recordOf faults disk0 (outcomeOf faults disk0 (nmPath v))).
        rewrite (outcomeOf_kept _ _ Hv), (recordOf_kept _ _ Hv). simpl.
        by rewrite (di_errors _ _ _ _ _ _ _ HD).
      * rewrite <- (outcomeOf_gone _ Hv).
        apply (deleteInv_move s _ σ phs i (Value v) Recording Returning); [done..|].
        rewrite (noted_insert_quiet i (Value v) Recording); [apply HD|done..|].
        change (note (Value v) Returning)
          with (recordOf faults disk0 (outcomeOf faults disk0 (nmPath v))).
        by rewrite (outcomeOf_gone _ Hv).
  - exists (<[i:=Returning]> phs).
    assert (upd = recordFailure isInteractive None invalidPath
            ∧ k = (λ _, Ret nameless) ∧ told ph = false) as (-> & -> & Htold).
    { destruct ph; try discriminate; simpl in Hg; unfold rejection in Hg;
        by injection Hg as -> ->. }
    apply (deleteInv_move s _ σ phs i (Caught e) ph Returning); [done..|].
    rewrite (noted_insert_told i (Caught e) ph) by (done || by unfold noted; rewrite Htold).
    simpl. by rewrite (di_errors _ _ _ _ _ _ _ HD).
Qed.

Lemma deleteOk_return s σ i o :
  σ !! i = Some (Running (Ret o)) →
  deleteOk faults isInteractive rows disk0 s σ →
  deleteOk faults isInteractive rows disk0 s (<[i := Done (Value o)]> σ).
Proof.
  intros Hi [phs HD].
  destruct (shown_lookup _ _ _ _ _ HD Hi) as (r & ph & Hr & Hph & Hg).
  exists (<[i:=Finished]> phs).
  assert (ph = Returning ∧ Done (Value o) = shown r Finished) as (-> & ->).
  { destruct r as [|v|e], ph; try discriminate; simpl in Hg;
      try (by destruct (verdict faults disk0 (nmPath v))); by injection Hg as ->. }
  apply (deleteInv_move s s σ phs i r Returning Finished); [done..|].
  rewrite (noted_insert_quiet i r Returning) by done. apply HD.
Qed.

Lemma deleteOk_throw s σ i e :
  σ !! i = Some (Running (Throw e)) →
  deleteOk faults isInteractive rows disk0 s σ →
  deleteOk faults isInteractive rows disk0 s (<[i := Done (Caught e)]> σ).
Proof.
  intros Hi [phs HD].
  destruct (shown_lookup _ _ _ _ _ HD Hi) as (r & ph & Hr & Hph & Hg).
  exists (<[i:=Finished]> phs).
  assert (r = Hole ∧ e = invalidPath) as (-> & ->).
  { destruct r as [|v|err], ph; try discriminate; simpl in Hg;
      try (by destruct (verdict faults disk0 (nmPath v))); by injection Hg as ->. }
  apply (deleteInv_move s s σ phs i Hole ph Finished); [done..|].
  rewrite (noted_insert_quiet i Hole ph) by (done || by destruct ph). apply HD.
Qed.

Lemma queued_track (l : list row) :
  zip_with shown l (replicate (length l) Queued) = replicate (length l) Waiting.
Proof. induction l as [|[|v|e] l IH]; simpl; by f_equal. Qed.

Lemma queued_notes (l : list row) :
  omap id (zip_with note l (replicate (length l) Queued)) = [].
Proof. induction l as [|r l IH]; [done|]. simpl. apply IH. Qed.

Lemma finished_track (l : list row) :
  zip_with shown l (replicate (length l) Finished)
  = Done <$> (expected faults disk0 <$> l).
Proof. induction l as [|[|v|e] l IH]; simpl; by f_equal. Qed.

Lemma finished_notes (l : list row) :
  omap id (zip_with note l (replicate (length l) Finished))
  = omap (failureOf faults disk0) l.
Proof.
  induction l as [|r l IH]; [done|].
  change (match failureOf faults disk0 r with
          | Some y => y :: omap id (zip_with note l (replicate (length l) Finished))
          | None => omap id (zip_with note l (replicate (length l) Finished))
          end
          = match failureOf faults disk0 r with
            | Some y => y :: omap (failureOf faults disk0) l
            | None => omap (failureOf faults disk0) l
            end).
  by rewrite IH.
Qed.

Lemma shown_Done r ph x : shown r ph = Done x → ph = Finished.
Proof.
  destruct r as [|v|e], ph; try done; simpl;
    by destruct (verdict faults disk0 (nmPath v)).
Qed.

(** What the tasks leave behind, whatever the schedule. *)
Lemma deleteTasks_spec sched c s' rs :
  1 ≤ c →
  runParallel (deleteTask faults isInteractive <$> rows) sched c
    {| disk := disk0; deleteErrors := []; deleteCompleted := 0 |} = (s', rs) →
  rs = expected faults disk0 <$> rows
  ∧ deleteErrors s' ≡ₚ omap (failureOf faults disk0) rows
  ∧ ∀ q, q ∈ disk s'
         ↔ q ∈ disk0 ∧ ∀ v, Value v ∈ rows → ¬ taken faults disk0 (nmPath v) q.
Proof using rows_independent.
  intros Hc Hrun.
  pose proof (runParallel_rule (deleteTask faults isInteractive <$> rows)
                (deleteOk faults isInteractive rows disk0)
                deleteOk_invoke deleteOk_await deleteOk_return deleteOk_throw
                sched c {| disk := disk0; deleteErrors := []; deleteCompleted := 0 |}
                Hc) as Hrule.
  rewrite Hrun, length_fmap in Hrule.
  destruct Hrule as (Hlen & _ & phs & HD).
  { exists (replicate (length rows) Queued). split; simpl.
    - by rewrite queued_track.
    - by rewrite length_replicate.
    - done.
    - done.
    - done.
    - intros i v ph _ Hph Hpast. apply lookup_replicate in Hph as [-> _]. done.
    - by rewrite queued_notes. }
  pose proof HD as [H0 Hl H1 H2 H3 H4 H5].
  assert (phs = replicate (length rows) Finished) as ->.
  { symmetry. apply replicate_as_Forall. split; [done|].
    apply Forall_lookup. intros i ph Hph.
    destruct (lookup_lt_is_Some_2 rs i) as [x Hx].
    { apply lookup_lt_Some in Hph. lia. }
    destruct (shown_lookup _ _ _ i (Done x) HD) as (r & ph' & Hr & Hph' & Hg).
    { by rewrite list_lookup_fmap, Hx. }
    assert (ph' = ph) as -> by congruence.
    symmetry in Hg. by apply shown_Done in Hg. }
  rewrite finished_track in H0. rewrite finished_notes in H5.
  split; [|split; [done|]].
  - revert H0. generalize (expected faults disk0 <$> rows). clear.
    induction rs as [|x rs IH]; intros [|y l] Heq; simplify_eq/=; [done|].
    f_equal. by apply IH.
  - intros q. split.
    + intros Hq. split; [by apply H1|]. intros v Hv Htk.
      apply list_elem_of_lookup in Hv as [i Hi].
      refine (H4 i v Finished Hi _ eq_refl q Htk Hq).
      apply lookup_replicate_2. by apply lookup_lt_Some in Hi.
    + intros [Hq Hnone]. destruct (decide (q ∈ disk s')) as [|Hout]; [done|].
      destruct (H2 q Hq Hout) as (i & v & ph & Hi & _ & _ & Htk).
      exfalso. apply (Hnone v); [|done]. by eapply list_elem_of_lookup_2.
Qed.

(** A target that is not removed is not taken, neither by its own
    removal nor by that of another. *)
Lemma failed_target_kept v w :
  Value v ∈ rows → Value w ∈ rows → verdict faults disk0 (nmPath v) ≠ None →
  ¬ taken faults disk0 (nmPath w) (nmPath v).
Proof using rows_independent.
  intros Hv Hw Hver (_ & Hpre & Htk).
  apply list_elem_of_lookup in Hv as [i Hi]. apply list_elem_of_lookup in Hw as [j Hj].
  destruct (decide (j = i)) as [->|Hne].
  - assert (w = v) as -> by congruence. destruct Htk as [?|[? _]]; done.
  - by apply (rows_independent j i w v).
Qed.

End DeletionFacts.

(** Every task settles, so the loop over [deleteResults] counts each
    target once. *)
Lemma deletePhase_partition faults isInteractive sched rows disk0 :
  ∃ sm, deletePhase faults isInteractive sched rows disk0 = Resolved sm
        ∧ length (deleteResults sm) = length rows
        ∧ removed sm + failed sm = length rows.
Proof.
  unfold deletePhase.
  pose proof (runParallel_rule (deleteTask faults isInteractive <$> rows) (λ _ _, True)
                (λ _ _ _ _ _ _ _, I) (λ _ _ _ _ _ _ _, I) (λ _ _ _ _ _ _, I)
                (λ _ _ _ _ _ _, I) sched DELETE_CONCURRENCY
                {| disk := disk0; deleteErrors := []; deleteCompleted := 0 |}) as Hrule.
  destruct (runParallel _ _ _ _) as [s' rs].
  destruct Hrule as (Hlen & Hh & _); [unfold DELETE_CONCURRENCY; lia|done|].
  rewrite length_fmap in Hlen.
  destruct (countResults_total rs 0 0 Hh) as (r & f & -> & Hrf).
  eexists. split; [done|]. simpl. split; [done|lia].
Qed.

Lemma deletePhase_spec faults isInteractive sched rows disk0 :
  independent rows →
  ∃ sm, deletePhase faults isInteractive sched rows disk0 = Resolved sm
        ∧ deleteResults sm = expected faults disk0 <$> rows
        ∧ countResults (expected faults disk0 <$> rows) 0 0
          = Some (removed sm, failed sm)
        ∧ deleteErrors (after sm) ≡ₚ omap (failureOf faults disk0) rows
        ∧ ∀ q, q ∈ disk (after sm)
               ↔ q ∈ disk0 ∧ ∀ v, Value v ∈ rows → ¬ taken faults disk0 (nmPath v) q.
Proof.
  intros Hind.
  destruct (deletePhase_partition faults isInteractive sched rows disk0)
    as (sm & Hsm & _).
  exists sm. split; [done|]. unfold deletePhase in Hsm.
  destruct (runParallel _ _ _ _) as [s' rs] eqn:Hrun.
  destruct (deleteTasks_spec faults isInteractive rows disk0 Hind sched
              DELETE_CONCURRENCY s' rs) as (-> & Herr & Hdisk);
    [unfold DELETE_CONCURRENCY; lia|done|].
  destruct (countResults _ 0 0) as [[r f]|] eqn:Hcount; [|done].
  injection Hsm as <-. simpl. done.
Qed.

(** The codes on which [fs.rm] tries again. *)
Lemma retryable_codes e :
  retryable e = true ↔ code e ∈ ["EBUSY"; "EMFILE"; "ENFILE"; "ENOTEMPTY"; "EPERM"].
Proof. unfold retryable. apply bool_decide_eq_true. Qed.

(** When the removal of a target succeeds, and with which error it
    fails. *)
Lemma verdict_None faults disk0 p :
  verdict faults disk0 p = None
  ↔ (p ∉ disk0)
    ∨ ∃ k, k ≤ 3 ∧ faults p k = None ∧
           ∀ j, j < k → ∃ f, faults p j = Some f ∧
                             code (cause f) ∈ ["EBUSY"; "EMFILE"; "ENFILE"; "ENOTEMPTY"; "EPERM"].
Proof.
  destruct (decide (p ∈ disk0)) as [Hp|Hp].
  - rewrite verdict_present, attempts_None by done. split.
    + intros (k & Hk & Hnone & Hbefore). right. exists k. split; [done|]. split; [done|].
      intros j Hj. destruct (Hbefore j Hj) as (f & Hf & Hr).
      exists f. split; [done|]. by apply retryable_codes.
    + intros [?|(k & Hk & Hnone & Hbefore)]; [done|]. exists k. split; [done|].
      split; [done|]. intros j Hj. destruct (Hbefore j Hj) as (f & Hf & Hr).
      exists f. split; [done|]. by apply retryable_codes.
  - rewrite verdict_missing by done. split; [by left|done].
Qed.

Lemma verdict_Some faults disk0 p e :
  verdict faults disk0 p = Some e →
  p ∈ disk0 ∧
  ∃ k f, k ≤ 3 ∧ faults p k = Some f ∧ cause f = e ∧
         (k = 3 ∨ code e ∉ ["EBUSY"; "EMFILE"; "ENFILE"; "ENOTEMPTY"; "EPERM"]).
Proof.
  intros Hv. destruct (decide (p ∈ disk0)) as [Hp|Hp];
    [|by rewrite verdict_missing in Hv].
  split; [done|]. rewrite verdict_present in Hv by done.
  apply attempts_Some in Hv as (k & f & Hk & Hf & Hc & Hlast & _).
  exists k, f. split; [done|]. split; [done|]. split; [done|].
  destruct Hlast as [?|Hr]; [by left|right].
  rewrite <- retryable_codes. by rewrite Hr.
Qed.

Lemma fiveRows_independent : independent fiveRows.
Proof.
  intros i j v w Hij Hi Hj [k Hk].
  repeat (destruct i as [|i]; simplify_eq/=);
    repeat (destruct j as [|j]; simplify_eq/=).
Qed.

Lemma fiveRows_elem v :
  Value v ∈ fiveRows → sizeBytes v = 1%N ∧ nmPath v ∈ fiveTargets.
Proof.
  unfold fiveRows. intros Hv. apply list_elem_of_fmap in Hv as (p & Hv & Hp).
  by simplify_eq/=.
Qed.

(** What is left of the five targets and their files. *)
Lemma fiveDisk_after (gone : path → bool) (q : path) :
  (q ∈ fiveDisk ∧ ∀ v, Value v ∈ fiveRows →
                       ¬ taken (thirdRefused gone) fiveDisk (nmPath v) q)
  ↔ q ∈ [ ["w"]; ["w"; "p3"]; ["w"; "p3"; "node_modules"] ]
    ∨ (q = ["w"; "p3"; "node_modules"; "f"] ∧ gone q = false).
Proof.
  assert (∀ p, p ∈ fiveTargets → Value {| nmPath := p; sizeBytes := 1 |} ∈ fiveRows)
    as Hrow.
  { intros p Hp. unfold fiveRows.
    by apply (list_elem_of_fmap_2 (λ p, Value {| nmPath := p; sizeBytes := 1 |} : row)). }
  assert (∀ p, p ∈ fiveTargets → p ≠ ["w"; "p3"; "node_modules"] →
               taken (thirdRefused gone) fiveDisk p p
               ∧ taken (thirdRefused gone) fiveDisk p (p ++ ["f"])) as Hgone.
  { intros p Hp Hne. unfold fiveTargets in Hp.
    repeat (apply elem_of_cons in Hp as [->|Hp];
            [first [done | split; (split; [repeat constructor|]);
                           (split; [by eexists|]); left; by vm_compute]|]).
    by apply elem_of_nil in Hp. }
  split.
  - intros [Hq Hno].
    assert (∀ p, p ∈ fiveTargets → p ≠ ["w"; "p3"; "node_modules"] →
                 q ≠ p ∧ q ≠ p ++ ["f"]) as Hother.
    { intros p Hp Hne. destruct (Hgone p Hp Hne) as [H1 H2].
      split; intros ->; by apply (Hno _ (Hrow p Hp)). }
    assert (q = ["w"; "p3"; "node_modules"; "f"] → gone q = false) as Hthird.
    { intros ->. destruct (gone _) eqn:Hg; [|done]. exfalso.
      apply (Hno {| nmPath := ["w"; "p3"; "node_modules"]; sizeBytes := 1 |}).
      - apply Hrow. repeat constructor.
      - split; [repeat constructor|]. split; [by eexists|]. right. split; [done|].
        vm_compute. vm_compute in Hg. by rewrite Hg. }
    unfold fiveDisk, fiveTargets in Hq. simpl in Hq.
    repeat (apply elem_of_cons in Hq as [Hq|Hq];
            [first [ left; subst q; by repeat constructor
                   | right; split; [done|]; by apply Hthird
                   | exfalso;
                     match type of Hq with
                     | _ = [?a; ?b; ?c] =>
                         by apply (proj1 (Hother [a; b; c] ltac:(repeat constructor)
                                            ltac:(done)))
                     | _ = [?a; ?b; ?c; _] =>
                         by apply (proj2 (Hother [a; b; c] ltac:(repeat constructor)
                                            ltac:(done)))
                     end ]|]).
    by apply elem_of_nil in Hq.
  - intros Hq.
    assert (q ∈ fiveDisk) as Hin.
    { destruct Hq as [Hq|[-> _]]; [|unfold fiveDisk; simpl; repeat constructor].
      repeat (apply elem_of_cons in Hq as [->|Hq];
              [unfold fiveDisk; simpl; repeat constructor|]).
      by apply elem_of_nil in Hq. }
    split; [done|]. intros v Hv (_ & [k Hk] & Htk).
    apply fiveRows_elem in Hv as [_ Hv]. destruct v as [p sz].
    cbn [nmPath] in *. unfold fiveTargets in Hv.
    destruct Hq as [Hq|[-> Hg]].
    + repeat (apply elem_of_cons in Hq as [->|Hq]); [..|by apply elem_of_nil in Hq];
        (repeat (apply elem_of_cons in Hv as [->|Hv]); [..|by apply elem_of_nil in Hv];
         try (by simplify_eq/=);
         (destruct Htk as [Hver|[Hne Hw]]; [by vm_compute in Hver|done])).
    + repeat (apply elem_of_cons in Hv as [->|Hv]); [..|by apply elem_of_nil in Hv];
        try (by simplify_eq/=).
      destruct Htk as [Hver|[Hne Hw]]; [by vm_compute in Hver|].
      vm_compute in Hw. vm_compute in Hg. by rewrite Hg in Hw.
Qed.

(** C8.  Whatever the schedule and whatever goes wrong, the deletion phase
    ends with one settled result per target, and [removed] and [failed]
    add up to the number of targets.  When no target lies under another,
    each result is the one its own removal gives on the disk as it was,
    and a failed removal is listed in [deleteErrors] with its path and
    the message; on the disk afterwards all that lay at or under a
    removed target is gone, a target whose removal failed is still
    there, though it may have lost of its content, and nothing outside
    the targets is touched.  A removal succeeds exactly when the target
    is already missing or one of at most four attempts goes through,
    those before it having failed with EBUSY, EMFILE, ENFILE, ENOTEMPTY
    or EPERM; it fails with the error of its fourth attempt or of the
    first one that is not of these.  For five targets with every attempt
    on the third refused: 4 removed, 1 failed, the one error recorded,
    the four targets and their content gone, and the third left with
    what the refused attempts had not removed. *)
Theorem deletePhase_completes_every_target :
  (∀ faults isInteractive sched rows disk0,
     ∃ sm, deletePhase faults isInteractive sched rows disk0 = Resolved sm
           ∧ length (deleteResults sm) = length rows
           ∧ removed sm + failed sm = length rows) ∧
  (∀ faults isInteractive sched rows disk0,
     independent rows →
     ∃ sm, deletePhase faults isInteractive sched rows disk0 = Resolved sm
           ∧ deleteResults sm = expected faults disk0 <$> rows
           ∧ countResults (expected faults disk0 <$> rows) 0 0
             = Some (removed sm, failed sm)
           ∧ deleteErrors (after sm) ≡ₚ omap (failureOf faults disk0) rows
           ∧ (∀ q, q ∈ disk (after sm)
                   ↔ q ∈ disk0 ∧ ∀ v, Value v ∈ rows →
                                      ¬ taken faults disk0 (nmPath v) q)
           ∧ (∀ v q, Value v ∈ rows → nmPath v ∈ disk0 →
                     verdict faults disk0 (nmPath v) = None →
                     nmPath v `prefix_of` q → q ∉ disk (after sm))
           ∧ (∀ v, Value v ∈ rows → nmPath v ∈ disk0 →
                   verdict faults disk0 (nmPath v) ≠ None →
                   nmPath v ∈ disk (after sm))
           ∧ (∀ q, q ∈ disk0 → (∀ v, Value v ∈ rows → ¬ nmPath v `prefix_of` q) →
                   q ∈ disk (after sm))) ∧
  (∀ faults disk0 v,
     (nmPath v ∉ disk0) →
     expected faults disk0 (Value v)
     = Value {| success := true; target := Some (nmPath v) |}) ∧
  (∀ faults disk0 p,
     verdict faults disk0 p = None
     ↔ (p ∉ disk0)
       ∨ ∃ k, k ≤ 3 ∧ faults p k = None ∧
              ∀ j, j < k → ∃ f, faults p j = Some f ∧
                                code (cause f)
                                ∈ ["EBUSY"; "EMFILE"; "ENFILE"; "ENOTEMPTY"; "EPERM"]) ∧
  (∀ faults disk0 p e,
     verdict faults disk0 p = Some e →
     p ∈ disk0 ∧
     ∃ k f, k ≤ 3 ∧ faults p k = Some f ∧ cause f = e ∧
            (k = 3 ∨ code e ∉ ["EBUSY"; "EMFILE"; "ENFILE"; "ENOTEMPTY"; "EPERM"])) ∧
  (∀ faults disk0 v f,
     nmPath v ∈ disk0 → (∀ k, k ≤ 3 → faults (nmPath v) k = Some f) →
     expected faults disk0 (Value v)
     = Value {| success := false; target := Some (nmPath v) |}
     ∧ failureOf faults disk0 (Value v) = Some (Some (nmPath v), message (cause f))) ∧
  (∀ gone isInteractive sched,
     ∃ sm, deletePhase (thirdRefused gone) isInteractive sched fiveRows fiveDisk
           = Resolved sm
           ∧ removed sm = 4 ∧ failed sm = 1
           ∧ deleteErrors (after sm)
             = [(Some ["w"; "p3"; "node_modules"], "EACCES: permission denied")]
           ∧ ∀ q, q ∈ disk (after sm)
                  ↔ q ∈ [ ["w"]; ["w"; "p3"]; ["w"; "p3"; "node_modules"] ]
                    ∨ (q = ["w"; "p3"; "node_modules"; "f"] ∧ gone q = false)).
Proof.
  split; [|split; [|split; [|split; [|split; [|split]]]]].
  - apply deletePhase_partition.
  - intros faults isInteractive sched rows disk0 Hind.
    destruct (deletePhase_spec faults isInteractive sched rows disk0 Hind)
      as (sm & Hsm & Hres & Hcount & Herr & Hdisk).
    exists sm. do 5 (split; [done|]). split; [|split].
    + intros v q Hv Hin Hver Hpre Hq. apply Hdisk in Hq as [_ Hno].
      apply (Hno v Hv). split; [done|]. split; [done|]. by left.
    + intros v Hv Hin Hver. apply Hdisk. split; [done|].
      intros w Hw. by eapply failed_target_kept.
    + intros q Hq Hout. apply Hdisk. split; [done|].
      intros v Hv (_ & Hpre & _). by apply (Hout v).
  - intros faults disk0 v Hv. simpl.
    by rewrite (outcomeOf_gone _ _ _ (verdict_missing faults disk0 _ Hv)).
  - apply verdict_None.
  - apply verdict_Some.
  - intros faults disk0 v f Hv Hf.
    assert (verdict faults disk0 (nmPath v) = Some (cause f)) as Hver.
    { rewrite verdict_present by done. apply attempts_refused.
      intros k Hk. apply Hf. lia. }
    simpl. rewrite (outcomeOf_kept _ _ _ _ Hver). split; [done|].
    by apply recordOf_kept.
  - intros gone isInteractive sched.
    destruct (deletePhase_spec (thirdRefused gone) isInteractive sched fiveRows fiveDisk
                fiveRows_independent) as (sm & Hsm & _ & Hcount & Herr & Hdisk).
    exists sm. split; [done|].
    assert (countResults (expected (thirdRefused gone) fiveDisk <$> fiveRows) 0 0
            = Some (4, 1)) as Hfour by (by vm_compute).
    rewrite Hfour in Hcount. injection Hcount as <- <-.
    split; [done|]. split; [done|]. split.
    + apply Permutation_singleton_r. rewrite Herr. by vm_compute.
    + intros q. rewrite Hdisk. apply fiveDisk_after.
Qed.

Lemma deletePhase_completes_every_target_witness :
  ∃ sm, deletePhase (thirdRefused (λ _, true)) true [0; 1; 2; 3; 3; 2; 1; 0]
          fiveRows fiveDisk
        = Resolved sm
        ∧ deleteResults sm = expected (thirdRefused (λ _, true)) fiveDisk <$> fiveRows.
Proof.
  destruct (proj1 (proj2 deletePhase_completes_every_target)
              (thirdRefused (λ _, true)) true [0; 1; 2; 3; 3; 2; 1; 0] fiveRows fiveDisk
              fiveRows_independent) as (sm & Hsm & Hres & _).
  exists sm. split; [exact Hsm | exact Hres].
Defined.

(** ** More about the locator *)

Lemma fmap_Value_inj {R E : Type} (l k : list R) :
  Value (E:=E) <$> l = Value <$> k → l = k.
Proof.
  revert k. induction l as [|x l IH]; intros [|y k] Heq; simplify_eq/=; [done|].
  f_equal. by apply IH.
Qed.

(** A proof rule for the loop of [findNodeModules]: what holds before the
    first level and is kept by each level, whatever its batch brings,
    holds when the loop ends; and the loop never rejects. *)
Section LocatorRule.
Variable fs : FileSystem.
Variable opts : scanOptions.
Variable P : scan → list node → Prop.
Hypothesis P_level : ∀ st lvl seen ls,
  lvl ≠ [] → P st lvl → batchOf fs opts lvl ls →
  (followSymlinks opts = false →
   seen = seenRealPaths st ∧ ls = plainListing fs opts <$> lvl) →
  P (afterLevel st lvl seen ls) (mjoin (subdirs <$> ls)).

Lemma scanLevels_level rounds scheds st lvl :
  lvl ≠ [] →
  ∃ seen ls,
    batchOf fs opts lvl ls ∧
    (followSymlinks opts = false →
     seen = seenRealPaths st ∧ ls = plainListing fs opts <$> lvl) ∧
    scanLevels fs opts (S rounds) scheds st lvl
    = scanLevels fs opts rounds (tl scheds) (afterLevel st lvl seen ls)
        (mjoin (subdirs <$> ls)).
Proof.
  intros Hne. rewrite scanLevels_step by done. cbv zeta.
  destruct (visit_batch fs opts lvl (hd [] scheds) DIR_CONCURRENCY (seenRealPaths st)
              DIR_CONCURRENCY_pos) as (ls & Hls & Hall).
  exists (runParallel (visit fs opts <$> lvl) (hd [] scheds) DIR_CONCURRENCY
            (seenRealPaths st)).1, ls.
  split; [done|]. split.
  - intros Hf.
    rewrite (visit_batch_plain fs opts _ _ _ _ DIR_CONCURRENCY_pos Hf) in Hls |- *.
    split; [done|]. simpl in Hls. symmetry. by apply fmap_Value_inj in Hls.
  - rewrite Hls, collect_values. done.
Qed.

Lemma scanLevels_rule rounds scheds st lvl :
  P st lvl →
  match scanLevels fs opts rounds scheds st lvl with
  | Resolved st' => P st' []
  | Rejected => False
  | Unsettled => True
  end.
Proof using P_level.
  revert scheds st lvl. induction rounds as [|rounds IH]; intros scheds st lvl HP.
  - by destruct lvl.
  - destruct lvl as [|n0 lvl]; [done|].
    destruct (scanLevels_level rounds scheds st (n0 :: lvl)) as (seen & ls & Hb & Hpl & ->);
      [done|].
    apply IH. by apply P_level.
Qed.

End LocatorRule.

Lemma sorted_snoc {A : Type} (R : A → A → Prop) (l : list A) (x : A) :
  StronglySorted R l → Forall (λ a, R a x) l → StronglySorted R (l ++ [x]).
Proof.
  induction 1 as [|a l Hl IH Ha]; intros Hx; simpl.
  - repeat constructor.
  - apply Forall_cons in Hx as [Hax Hx]. constructor; [by apply IH|].
    apply Forall_app. split; [done|]. by constructor.
Qed.

Lemma sorted_app {A : Type} (R : A → A → Prop) (l k : list A) :
  StronglySorted R l → StronglySorted R k →
  (∀ a b, a ∈ l → b ∈ k → R a b) → StronglySorted R (l ++ k).
Proof.
  induction 1 as [|a l Hl IH Ha]; intros Hk Hlk; simpl; [done|].
  constructor.
  - apply IH; [done|]. intros x y Hx Hy. apply Hlk; [by apply list_elem_of_further|done].
  - apply Forall_app. split; [done|]. apply Forall_forall. intros y Hy.
    apply Hlk; [apply list_elem_of_here|done].
Qed.

Lemma sorted_level {A : Type} (f : A → nat) (l : list A) (d : nat) :
  (∀ a, a ∈ l → f a = d) → StronglySorted (λ a b, f a ≤ f b) l.
Proof.
  induction l as [|a l IH]; intros Hl; constructor.
  - apply IH. intros b Hb. apply Hl. by apply list_elem_of_further.
  - apply Forall_forall. intros b Hb.
    rewrite (Hl a), (Hl b); [done|by apply list_elem_of_further|apply list_elem_of_here].
Qed.

Section LocatorMore.
Variable fs : FileSystem.
Variable opts : scanOptions.

Lemma scanLevels_done rounds scheds st :
  scanLevels fs opts rounds scheds st [] = Resolved st.
Proof. by destruct rounds. Qed.

Lemma batchOf_from lvl ls r :
  batchOf fs opts lvl ls → r ∈ ls →
  r = nothing ∨ ∃ n, n ∈ lvl ∧ tooDeep opts (depth n) = false ∧ r = scanDir fs opts n.
Proof.
  intros Hall Hr. apply list_elem_of_lookup in Hr as [i Hi].
  destruct (Forall2_lookup_r _ _ _ _ _ Hall Hi) as (n & Hn & Hor).
  destruct Hor as [->|[Hd ->]]; [by left|]. right. exists n.
  split; [by eapply list_elem_of_lookup_2|done].
Qed.

Lemma batchOf_match lvl ls m :
  batchOf fs opts lvl ls → m ∈ mjoin (nodeModules <$> ls) →
  ∃ n, n ∈ lvl ∧ tooDeep opts (depth n) = false ∧ m ∈ nodeModules (scanDir fs opts n).
Proof.
  intros Hall Hm. apply list_elem_of_join in Hm as (ms & Hm & Hms).
  apply list_elem_of_fmap in Hms as (r & -> & Hr).
  destruct (batchOf_from _ _ _ Hall Hr) as [->|(n & Hn & Hd & ->)];
    [by apply elem_of_nil in Hm|eauto].
Qed.

Lemma batchOf_subdir lvl ls c :
  batchOf fs opts lvl ls → c ∈ mjoin (subdirs <$> ls) →
  ∃ n, n ∈ lvl ∧ tooDeep opts (depth n) = false ∧ c ∈ subdirs (scanDir fs opts n).
Proof.
  intros Hall Hc. apply list_elem_of_join in Hc as (cs & Hc & Hcs).
  apply list_elem_of_fmap in Hcs as (r & -> & Hr).
  destruct (batchOf_from _ _ _ Hall Hr) as [->|(n & Hn & Hd & ->)];
    [by apply elem_of_nil in Hc|eauto].
Qed.

(** A root that is beyond the depth limit or cannot be listed: one level,
    nothing found. *)
Lemma findNodeModules_barren rounds scheds rootAbs :
  tooDeep opts 0 = true ∨ readdir fs rootAbs = None → 1 ≤ rounds →
  ∃ seen, findNodeModules fs rounds scheds rootAbs opts
          = Resolved (afterLevel scan0 [{| dir := rootAbs; depth := 0 |}] seen [nothing]).
Proof.
  intros Hroot Hr. destruct rounds as [|rounds]; [lia|].
  change (findNodeModules fs (S rounds) scheds rootAbs opts)
    with (scanLevels fs opts (S rounds) scheds scan0 [{| dir := rootAbs; depth := 0 |}]).
  destruct (scanLevels_level fs opts rounds scheds scan0 [{| dir := rootAbs; depth := 0 |}])
    as (seen & ls & Hb & _ & ->); [done|].
  exists seen. unfold batchOf in Hb.
  apply Forall2_cons_inv_l in Hb as (r & ls' & Hor & Hnil & ->).
  apply Forall2_nil_inv_l in Hnil as ->.
  assert (r = nothing) as ->.
  { destruct Hor as [->|[Hd ->]]; [done|]. simpl in Hd.
    destruct Hroot as [Hdeep|Hrd]; [congruence|]. by apply scanDir_unlisted. }
  simpl. apply scanLevels_done.
Qed.

End LocatorMore.

(** X5.  The locator never rejects, whatever the file system answers: a
    listing that fails counts as empty.  A root that cannot be listed
    (missing, not a directory, unreadable) gives no match after one
    level, with one directory counted and one progress report. *)
Theorem findNodeModules_never_rejects :
  (∀ fs opts rounds scheds rootAbs,
     findNodeModules fs rounds scheds rootAbs opts ≠ Rejected) ∧
  (∀ fs opts rounds scheds rootAbs,
     readdir fs rootAbs = None → 1 ≤ rounds →
     ∃ st, findNodeModules fs rounds scheds rootAbs opts = Resolved st ∧
           found st = [] ∧ dirsScanned st = 1 ∧ reported st = [(1, 0)] ∧
           visited st = [{| dir := rootAbs; depth := 0 |}]).
Proof.
  split.
  - intros fs opts rounds scheds rootAbs Hrej.
    pose proof (findNodeModules_sound fs opts rootAbs rounds scheds) as Hs.
    by rewrite Hrej in Hs.
  - intros fs opts rounds scheds rootAbs Hrd Hr.
    destruct (findNodeModules_barren fs opts rounds scheds rootAbs (or_intror Hrd) Hr)
      as [seen ->].
    eexists. split; [done|]. done.
Qed.

Lemma findNodeModules_never_rejects_witness :
  ∃ st, findNodeModules (treeFS gitTree) 1 [] ["nowhere"] followOptions = Resolved st ∧
        found st = [] ∧ dirsScanned st = 1 ∧ reported st = [(1, 0)] ∧
        visited st = [{| dir := ["nowhere"]; depth := 0 |}].
Proof.
  apply (proj2 findNodeModules_never_rejects (treeFS gitTree) followOptions 1 []
           ["nowhere"]); [reflexivity | lia].
Defined.

Section LocatorPlain.
Variable fs : FileSystem.
Variable opts : scanOptions.
Hypothesis plain : followSymlinks opts = false.

Lemma asCheck_plain n entries : omap (asCheck opts n) entries = [].
Proof using plain.
  induction entries as [|ent entries IH]; [done|]. simpl.
  unfold asCheck at 1. by rewrite plain, andb_false_r.
Qed.

Lemma scanDir_plain n :
  scanDir fs opts n
  = match readdir fs (dir n) with
    | Some entries => {| nodeModules := omap (asMatch n) entries;
                         subdirs := omap (asSubdir n) entries |}
    | None => nothing
    end.
Proof using plain.
  destruct (readdir fs (dir n)) as [entries|] eqn:Hrd.
  - by rewrite (scanDir_listed _ _ _ _ Hrd), asCheck_plain, app_nil_r.
  - by apply scanDir_unlisted.
Qed.

Lemma scanLevels_level_plain rounds scheds st lvl :
  lvl ≠ [] →
  scanLevels fs opts (S rounds) scheds st lvl
  = scanLevels fs opts rounds (tl scheds)
      (afterLevel st lvl (seenRealPaths st) (plainListing fs opts <$> lvl))
      (mjoin (subdirs <$> (plainListing fs opts <$> lvl))).
Proof using plain.
  intros Hne.
  destruct (scanLevels_level fs opts rounds scheds st lvl Hne)
    as (seen & ls & _ & Hpl & ->).
  by destruct (Hpl plain) as [-> ->].
Qed.

Lemma scanLevels_seen rounds scheds st lvl st' :
  scanLevels fs opts rounds scheds st lvl = Resolved st' →
  seenRealPaths st' = seenRealPaths st.
Proof using plain.
  revert scheds st lvl. induction rounds as [|rounds IH]; intros scheds st lvl Hres.
  - destruct lvl; by simplify_eq/=.
  - destruct lvl as [|n0 lvl]; [by simplify_eq/=|].
    rewrite scanLevels_level_plain in Hres by done. by apply IH in Hres.
Qed.

End LocatorPlain.

(** X7.  Without symlink following the locator does not depend
    on how its concurrent tasks interleave: two runs over the same file
    system that return, return the same matches in the same order, the
    same progress reports and the same frontier, under any schedules;
    and [seenRealPaths] is never written. *)
Theorem findNodeModules_schedule_independent
    (fs : FileSystem) (opts : scanOptions) (rootAbs : path)
    (rounds1 rounds2 : nat) (scheds1 scheds2 : list (list nat)) (st1 st2 : scan) :
  followSymlinks opts = false →
  findNodeModules fs rounds1 scheds1 rootAbs opts = Resolved st1 →
  findNodeModules fs rounds2 scheds2 rootAbs opts = Resolved st2 →
  st1 = st2 ∧ seenRealPaths st1 = [].
Proof.
  intros Hf H1 H2. split.
  - unfold findNodeModules in *. rewrite scanLevels_plain in H1, H2 by done.
    apply (scanLevels_rounds _ _ _ (Nat.max rounds1 rounds2)) in H1; [|lia].
    apply (scanLevels_rounds _ _ _ (Nat.max rounds1 rounds2)) in H2; [|lia].
    congruence.
  - by apply (scanLevels_seen fs opts Hf) in H1.
Qed.

Example nested_scan_scheduled :
  findNodeModules (treeFS nestedTree) 5 [[0; 0]; [0]] ["proj"] plainOptions
  = Resolved {| seenRealPaths := [];
                found := [["proj"; "a"; "node_modules"]];
                dirsScanned := 2;
                reported := [(1, 0); (2, 1)];
                visited := [ {| dir := ["proj"]; depth := 0 |};
                             {| dir := ["proj"; "a"]; depth := 1 |} ] |}.
Proof. vm_compute. reflexivity. Qed.

Lemma findNodeModules_schedule_independent_witness :
  findNodeModules (treeFS nestedTree) 3 [] ["proj"] plainOptions
  = findNodeModules (treeFS nestedTree) 5 [[0; 0]; [0]] ["proj"] plainOptions.
Proof.
  pose proof (findNodeModules_schedule_independent (treeFS nestedTree) plainOptions
                ["proj"] 3 5 [] [[0; 0]; [0]] _ _ eq_refl nested_scan
                nested_scan_scheduled) as [Heq _].
  exact (eq_trans nested_scan
           (eq_trans (f_equal Resolved Heq) (eq_sym nested_scan_scheduled))).
Defined.

Lemma plainListing_ext fs1 fs2 opts n :
  followSymlinks opts = false → readdir fs1 (dir n) = readdir fs2 (dir n) →
  plainListing fs1 opts n = plainListing fs2 opts n.
Proof.
  intros Hf Hrd. unfold plainListing. destruct (tooDeep opts (depth n)); [done|].
  by rewrite !scanDir_plain, Hrd.
Qed.

(** X8.  Without symlink following the locator consults
    nothing but directory listings: it calls neither [fs.stat] nor
    [fs.realpath], so two file systems with the same listings give the
    same run, symlinks being reported when named [node_modules] and
    otherwise left alone. *)
Theorem findNodeModules_plain_reads_listings_only
    (fs1 fs2 : FileSystem) (opts : scanOptions) (rootAbs : path)
    (rounds : nat) (scheds1 scheds2 : list (list nat)) :
  followSymlinks opts = false →
  (∀ p, readdir fs1 p = readdir fs2 p) →
  findNodeModules fs1 rounds scheds1 rootAbs opts
  = findNodeModules fs2 rounds scheds2 rootAbs opts.
Proof.
  intros Hf Hrd. unfold findNodeModules.
  generalize [{| dir := rootAbs; depth := 0 |}] as lvl.
  generalize {| seenRealPaths := []; found := []; dirsScanned := 0;
                reported := []; visited := [] |} as st.
  revert scheds1 scheds2.
  induction rounds as [|rounds IH]; intros scheds1 scheds2 st lvl; [done|].
  destruct lvl as [|n0 lvl]; [done|].
  rewrite !scanLevels_level_plain by done.
  assert (plainListing fs1 opts <$> n0 :: lvl = plainListing fs2 opts <$> n0 :: lvl) as ->.
  { apply list_fmap_ext. intros i n _. by apply plainListing_ext. }
  apply IH.
Qed.

Lemma findNodeModules_plain_reads_listings_only_witness :
  findNodeModules (treeFS cycleTree) 4 [] ["proj"] plainOptions
  = findNodeModules (listingsOnly (treeFS cycleTree)) 4 [[0]] ["proj"] plainOptions.
Proof.
  apply (findNodeModules_plain_reads_listings_only (treeFS cycleTree)
           (listingsOnly (treeFS cycleTree)) plainOptions ["proj"] 4 [] [[0]] eq_refl).
  intros p. reflexivity.
Defined.

Lemma mjoin_nothing (fs : FileSystem) (opts : scanOptions) (lvl : list node) :
  (∀ n, n ∈ lvl → plainListing fs opts n = nothing) →
  mjoin (nodeModules <$> (plainListing fs opts <$> lvl)) = []
  ∧ mjoin (subdirs <$> (plainListing fs opts <$> lvl)) = [].
Proof.
  induction lvl as [|n lvl IH]; intros Hall; [done|].
  destruct IH as [IH1 IH2].
  { intros m Hm. apply Hall. by apply list_elem_of_further. }
  rewrite !fmap_cons.
  change (nodeModules (plainListing fs opts n)
            ++ mjoin (nodeModules <$> (plainListing fs opts <$> lvl)) = []
          ∧ subdirs (plainListing fs opts n)
            ++ mjoin (subdirs <$> (plainListing fs opts <$> lvl)) = []).
  by rewrite (Hall n (list_elem_of_here _ _)), IH1, IH2.
Qed.

(** X15.  The two ends of the depth limit.  A negative maximum
    depth prunes even the root: it is counted as scanned, not listed, and
    nothing is found.  With maximum depth 0 (symlinks not followed) the
    matches are exactly the [node_modules] entries of the root; its
    other subdirectories enter the frontier and are counted as scanned,
    but none of them is listed. *)
Theorem findNodeModules_depth_edges :
  (∀ fs opts rounds scheds rootAbs d,
     maxDepth opts = Some d → (d < 0)%Z → 1 ≤ rounds →
     ∃ st, findNodeModules fs rounds scheds rootAbs opts = Resolved st ∧
           found st = [] ∧ dirsScanned st = 1 ∧
           visited st = [{| dir := rootAbs; depth := 0 |}]) ∧
  (∀ fs opts rounds scheds rootAbs,
     maxDepth opts = Some 0%Z → followSymlinks opts = false → 2 ≤ rounds →
     let root := {| dir := rootAbs; depth := 0 |} in
     ∃ st, findNodeModules fs rounds scheds rootAbs opts = Resolved st ∧
           found st = nodeModules (scanDir fs opts root) ∧
           visited st = root :: subdirs (scanDir fs opts root) ∧
           dirsScanned st = 1 + length (subdirs (scanDir fs opts root))).
Proof.
  split.
  - intros fs opts rounds scheds rootAbs d Hd Hneg Hr.
    destruct (findNodeModules_barren fs opts rounds scheds rootAbs) as [seen ->]; [|done|].
    { left. unfold tooDeep. rewrite Hd. apply Z.ltb_lt. lia. }
    eexists. split; [done|]. done.
  - intros fs opts rounds scheds rootAbs Hd Hf Hr root.
    destruct rounds as [|[|rounds]]; [lia..|].
    change (findNodeModules fs (S (S rounds)) scheds rootAbs opts)
      with (scanLevels fs opts (S (S rounds)) scheds scan0 [root]).
    rewrite (scanLevels_level_plain fs opts Hf) by done.
    assert (plainListing fs opts root = scanDir fs opts root) as Hroot.
    { unfold plainListing, tooDeep. by rewrite Hd. }
    cbn [fmap list_fmap mjoin list_join]. rewrite Hroot, !app_nil_r.
    set (next := subdirs (scanDir fs opts root)).
    assert (∀ n, n ∈ next → plainListing fs opts n = nothing) as Hdeep.
    { intros n Hn. apply elem_of_scanDir_subdirs in Hn as [Hn _].
      unfold plainListing, tooDeep. rewrite Hd, Hn. done. }
    destruct (mjoin_nothing fs opts next Hdeep) as [Hm Hs].
    destruct next as [|n1 more] eqn:Hnext.
    + rewrite scanLevels_done. eexists. split; [done|]. simpl.
      rewrite !app_nil_r. done.
    + rewrite (scanLevels_level_plain fs opts Hf) by done.
      rewrite Hs, scanLevels_done. eexists. split; [done|].
      cbn [found visited dirsScanned afterLevel scan0]. rewrite Hm, !app_nil_r.
      cbn [app length]. split; [simpl; by rewrite app_nil_r|]. split; [done|]. lia.
Qed.

Lemma findNodeModules_depth_edges_witness :
  (∃ st, findNodeModules (treeFS shallowTree) 1 [] ["proj"] (depthOptions (-1))
         = Resolved st ∧ found st = [] ∧ dirsScanned st = 1 ∧
         visited st = [{| dir := ["proj"]; depth := 0 |}]) ∧
  (∃ st, findNodeModules (treeFS shallowTree) 2 [] ["proj"; "a"] (depthOptions 0)
         = Resolved st ∧
         found st = nodeModules (scanDir (treeFS shallowTree) (depthOptions 0)
                                   {| dir := ["proj"; "a"]; depth := 0 |})).
Proof.
  split.
  - apply (proj1 findNodeModules_depth_edges (treeFS shallowTree) (depthOptions (-1))
             1 [] ["proj"] (-1)%Z eq_refl); lia.
  - destruct (proj2 findNodeModules_depth_edges (treeFS shallowTree) (depthOptions 0)
                2 [] ["proj"; "a"] eq_refl eq_refl) as (st & Hst & Hfound & _); [lia|].
    exists st. split; [exact Hst | exact Hfound].
Defined.

Lemma progressInv_level st lvl seen ls :
  lvl ≠ [] → progressInv st → progressInv (afterLevel st lvl seen ls).
Proof.
  intros Hne (H1 & H2 & H3 & _). unfold progressInv, afterLevel.
  cbn [dirsScanned visited reported found].
  assert (0 < length lvl) by (destruct lvl; [done|simpl; lia]).
  set (fnd := found st ++ mjoin (nodeModules <$> ls)).
  assert (length (found st) ≤ length fnd) by (unfold fnd; rewrite length_app; lia).
  split; [rewrite length_app; lia|]. split; [|split].
  - apply sorted_snoc; [done|]. eapply Forall_impl; [exact H3|].
    intros [a b] [Ha Hb]; simpl in *; lia.
  - apply Forall_app. split.
    + eapply Forall_impl; [exact H3|]. intros [a b] [Ha Hb]; simpl in *; lia.
    + constructor; [simpl; lia|constructor].
  - right. by rewrite last_snoc.
Qed.

(** X14.  [onProgress] is called once after every level with
    running totals: from one call to the next [dirsScanned] grows
    strictly and [nodeModulesFound] never shrinks, and the last call
    carries the final figures, [dirsScanned] being the number of frontier
    nodes taken (pruned ones included) and [nodeModulesFound] the number
    of matches returned. *)
Theorem findNodeModules_progress_reports
    (fs : FileSystem) (opts : scanOptions) (rounds : nat) (scheds : list (list nat))
    (rootAbs : path) (st : scan) :
  findNodeModules fs rounds scheds rootAbs opts = Resolved st →
  dirsScanned st = length (visited st) ∧
  1 ≤ dirsScanned st ∧
  last (reported st) = Some (dirsScanned st, length (found st)) ∧
  StronglySorted (λ a b, a.1 < b.1 ∧ a.2 ≤ b.2) (reported st).
Proof.
  intros Hres.
  pose proof (scanLevels_rule fs opts (λ st _, progressInv st)
                (λ st lvl seen ls Hne HP _ _, progressInv_level st lvl seen ls Hne HP)
                rounds scheds scan0 [{| dir := rootAbs; depth := 0 |}]) as Hrule.
  unfold findNodeModules in Hres. fold scan0 in Hres. rewrite Hres in Hrule.
  destruct Hrule as (H1 & H2 & _ & H4).
  { unfold progressInv. simpl.
    split; [done|]. split; [constructor|]. split; [constructor|]. by left. }
  apply scanLevels_grows in Hres as [_ [rest Hv]]. simpl in Hv.
  destruct H4 as [H4|H4]; [by rewrite Hv in H4|].
  split; [done|]. split; [|done]. rewrite H1, Hv. simpl. lia.
Qed.

Lemma findNodeModules_progress_reports_witness :
  last [(1, 0); (2, 1)] = Some (2, length [["proj"; "a"; "node_modules"]]).
Proof.
  apply (findNodeModules_progress_reports _ _ _ _ _ _ nested_scan).
Defined.

Section LocatorOrder.
Variable fs : FileSystem.
Variable opts : scanOptions.
Variable rootAbs : path.

Lemma levelInv_level st lvl seen ls :
  levelInv rootAbs st lvl → batchOf fs opts lvl ls →
  levelInv rootAbs (afterLevel st lvl seen ls) (mjoin (subdirs <$> ls)).
Proof.
  intros (d & Hlvl & Hfound & Hvis & Hsf & Hsv) Hb. exists (S d).
  assert (∀ m, m ∈ mjoin (nodeModules <$> ls) → length m = length rootAbs + d + 1) as Hnew.
  { intros m Hm. destruct (batchOf_match fs opts _ _ _ Hb Hm) as (n & Hn & _ & Hmn).
    apply elem_of_scanDir_nodeModules in Hmn as ->.
    destruct (Hlvl n Hn) as [_ Hlen]. rewrite length_app, Hlen. simpl. lia. }
  unfold afterLevel. cbn [found visited]. split; [|split; [|split; [|split]]].
  - intros c Hc. destruct (batchOf_subdir fs opts _ _ _ Hb Hc) as (n & Hn & _ & Hcn).
    apply elem_of_scanDir_subdirs in Hcn as (Hd & nm & Hdir & _).
    destruct (Hlvl n Hn) as [Hdn Hlen]. rewrite Hd, Hdir, length_app, Hlen, Hdn.
    simpl. lia.
  - intros m Hm. apply elem_of_app in Hm as [Hm|Hm].
    + specialize (Hfound m Hm). lia.
    + rewrite (Hnew m Hm). lia.
  - intros n Hn. apply elem_of_app in Hn as [Hn|Hn].
    + specialize (Hvis n Hn). lia.
    + destruct (Hlvl n Hn) as [-> _]. lia.
  - apply sorted_app; [done| |].
    + by apply (sorted_level length _ (length rootAbs + d + 1)).
    + intros a b Ha Hb'. rewrite (Hnew b Hb'). specialize (Hfound a Ha). lia.
  - apply sorted_app; [done| |].
    + apply (sorted_level depth _ d). intros n Hn. by destruct (Hlvl n Hn).
    + intros a b Ha Hb'. destruct (Hlvl b Hb') as [-> _]. specialize (Hvis a Ha). lia.
Qed.

Lemma belowInv_level st lvl seen ls :
  belowInv rootAbs st lvl → batchOf fs opts lvl ls →
  belowInv rootAbs (afterLevel st lvl seen ls) (mjoin (subdirs <$> ls)).
Proof.
  intros Hinv Hb c Hc. unfold afterLevel in Hc. cbn [visited] in Hc.
  apply elem_of_app in Hc as [Hc|Hc]; [by apply Hinv|].
  destruct (batchOf_subdir fs opts _ _ _ Hb Hc) as (n & Hn & _ & Hcn).
  apply elem_of_scanDir_subdirs in Hcn as (_ & nm & Hdir & Hres).
  destruct (Hinv n) as (segs & Hsegs & Hall); [apply elem_of_app; by right|].
  exists (segs ++ [nm]). split.
  - by rewrite Hdir, Hsegs, app_assoc.
  - apply Forall_app. split; [done|]. by constructor.
Qed.

Lemma scanDir_entry n m :
  m ∈ nodeModules (scanDir fs opts n) →
  ∃ entries ent, readdir fs (dir n) = Some entries ∧ ent ∈ entries ∧
                 name ent = "node_modules" ∧
                 (isDirectory ent = true ∨ isSymbolicLink ent = true) ∧
                 m = dir n ++ [name ent].
Proof.
  destruct (readdir fs (dir n)) as [entries|] eqn:Hrd.
  - rewrite (scanDir_listed _ _ _ _ Hrd). simpl. intros Hm.
    apply list_elem_of_omap in Hm as (ent & Hent & Hm).
    apply asMatch_Some in Hm as (-> & Hnm & Hkind).
    exists entries, ent. by rewrite Hnm.
  - rewrite (scanDir_unlisted _ _ _ Hrd). simpl. intros Hm. by apply elem_of_nil in Hm.
Qed.

Lemma isEntry_level st lvl seen ls :
  (∀ m, m ∈ found st → isEntry fs opts st m) → batchOf fs opts lvl ls →
  ∀ m, m ∈ found (afterLevel st lvl seen ls) →
       isEntry fs opts (afterLevel st lvl seen ls) m.
Proof.
  intros Hinv Hb m Hm. unfold afterLevel in Hm. cbn [found] in Hm.
  apply elem_of_app in Hm as [Hm|Hm].
  - destruct (Hinv m Hm) as (n & entries & ent & Hn & Hrest).
    exists n, entries, ent. split; [|done]. simpl. apply elem_of_app. by left.
  - destruct (batchOf_match fs opts _ _ _ Hb Hm) as (n & Hn & Hd & Hmn).
    destruct (scanDir_entry n m Hmn) as (entries & ent & Hrest).
    exists n, entries, ent. split; [|done]. simpl. apply elem_of_app. by right.
Qed.

End LocatorOrder.

(** X13.  Discovery order is breadth first: the matches are
    returned with shallower paths before deeper ones, and the
    directories are taken from the frontier in order of depth. *)
Theorem findNodeModules_breadth_first_order
    (fs : FileSystem) (opts : scanOptions) (rounds : nat) (scheds : list (list nat))
    (rootAbs : path) (st : scan) :
  findNodeModules fs rounds scheds rootAbs opts = Resolved st →
  StronglySorted (λ a b, length a ≤ length b) (found st) ∧
  StronglySorted (λ a b, depth a ≤ depth b) (visited st).
Proof.
  intros Hres.
  pose proof (scanLevels_rule fs opts (levelInv rootAbs)
                (λ st lvl seen ls _ HP Hb _, levelInv_level fs opts rootAbs st lvl seen ls HP Hb)
                rounds scheds scan0 [{| dir := rootAbs; depth := 0 |}]) as Hrule.
  unfold findNodeModules in Hres. fold scan0 in Hres. rewrite Hres in Hrule.
  destruct Hrule as (d & _ & _ & _ & Hf & Hv); [|done].
  exists 0. simpl. split; [|split; [|split; [|split; constructor]]].
  - intros n Hn. apply list_elem_of_singleton in Hn as ->. simpl. split; [done|lia].
  - intros m Hm. by apply elem_of_nil in Hm.
  - intros n Hn. by apply elem_of_nil in Hn.
Qed.

Example mixed_scan :
  findNodeModules (treeFS mixedTree) 4 [] ["proj"] plainOptions
  = Resolved {| seenRealPaths := [];
                found := [ ["proj"; "node_modules"];
                           ["proj"; "a"; "node_modules"];
                           ["proj"; "b"; "c"; "node_modules"] ];
                dirsScanned := 4;
                reported := [(1, 1); (3, 2); (4, 3)];
                visited := [ {| dir := ["proj"]; depth := 0 |};
                             {| dir := ["proj"; "b"]; depth := 1 |};
                             {| dir := ["proj"; "a"]; depth := 1 |};
                             {| dir := ["proj"; "b"; "c"]; depth := 2 |} ] |}.
Proof. vm_compute. reflexivity. Qed.

Lemma findNodeModules_breadth_first_order_witness :
  StronglySorted (λ a b : path, length a ≤ length b)
    [ ["proj"; "node_modules"]; ["proj"; "a"; "node_modules"];
      ["proj"; "b"; "c"; "node_modules"] ].
Proof.
  apply (findNodeModules_breadth_first_order _ _ _ _ _ _ mixed_scan).
Defined.

Lemma prefix_snoc_reserved (p q k1 : path) (nm : string) :
  (nm ∉ q) → p ++ [nm] `prefix_of` q ++ [nm] → p = q.
Proof.
  intros Hq [k Hk]. destruct (decide (k = [])) as [->|Hne].
  - rewrite app_nil_r in Hk. by apply app_inj_tail in Hk as [-> _].
  - destruct (exists_last Hne) as (k' & x & ->).
    rewrite !app_assoc in Hk. apply app_inj_tail in Hk as [Hk _].
    exfalso. apply Hq. rewrite Hk, <- !app_assoc. apply elem_of_app. right.
    apply list_elem_of_here.
Qed.

Lemma findNodeModules_below
    (fs : FileSystem) (opts : scanOptions) (rounds : nat) (scheds : list (list nat))
    (rootAbs : path) (st : scan) :
  findNodeModules fs rounds scheds rootAbs opts = Resolved st →
  (∀ n, n ∈ visited st →
        ∃ segs, dir n = rootAbs ++ segs ∧
                Forall (λ s, s ≠ "node_modules" ∧ s ≠ ".git" ∧ s ≠ ".cache") segs) ∧
  (∀ m1 m2, m1 ∈ found st → m2 ∈ found st → m1 `prefix_of` m2 → m1 = m2).
Proof.
  intros Hres.
  pose proof (scanLevels_rule fs opts (belowInv rootAbs)
                (λ st lvl seen ls _ HP Hb _, belowInv_level fs opts rootAbs st lvl seen ls HP Hb)
                rounds scheds scan0 [{| dir := rootAbs; depth := 0 |}]) as Hrule.
  pose proof (findNodeModules_sound fs opts rootAbs rounds scheds) as Hsound.
  rewrite Hres in Hsound. destruct Hsound as [_ Hfound _].
  unfold findNodeModules in Hres. fold scan0 in Hres. rewrite Hres in Hrule.
  assert (belowInv rootAbs st []) as Hbelow.
  { apply Hrule. intros n Hn. simpl in Hn. apply list_elem_of_singleton in Hn as ->.
    exists []. by rewrite app_nil_r. }
  clear Hrule. split.
  - intros n Hn. destruct (Hbelow n) as (segs & Hsegs & Hall).
    { by rewrite app_nil_r. }
    exists segs. split; [done|]. eapply Forall_impl; [exact Hall|].
    intros s Hs. by apply reserved_names.
  - intros m1 m2 H1 H2 Hpre.
    destruct (Hfound m1 H1) as (n1 & Hn1 & _ & ->).
    destruct (Hfound m2 H2) as (n2 & Hn2 & _ & ->).
    destruct (Hbelow n1) as (segs1 & Hs1 & Hall1); [by rewrite app_nil_r|].
    destruct (Hbelow n2) as (segs2 & Hs2 & Hall2); [by rewrite app_nil_r|].
    rewrite Hs1, Hs2 in Hpre |- *.
    rewrite <- !app_assoc in Hpre. apply prefix_app_inv in Hpre.
    f_equal. f_equal. apply (prefix_snoc_reserved _ _ [] "node_modules"); [|done].
    intros Hin. rewrite Forall_forall in Hall2. by specialize (Hall2 _ Hin).
Qed.

(** X11.  The locator never works inside a [node_modules], [.git]
    or [.cache] directory: below the root, no directory it takes from the
    frontier has one of these names anywhere on its path.  So no match
    lies inside another match: two reported paths are never nested. *)
Theorem findNodeModules_never_inside_node_modules
    (fs : FileSystem) (opts : scanOptions) (rounds : nat) (scheds : list (list nat))
    (rootAbs : path) (st : scan) :
  findNodeModules fs rounds scheds rootAbs opts = Resolved st →
  (∀ n, n ∈ visited st →
        ∃ segs, dir n = rootAbs ++ segs ∧
                Forall (λ s, s ≠ "node_modules" ∧ s ≠ ".git" ∧ s ≠ ".cache") segs) ∧
  (∀ m1 m2, m1 ∈ found st → m2 ∈ found st → m1 `prefix_of` m2 → m1 = m2).
Proof. apply findNodeModules_below. Qed.

Lemma findNodeModules_never_inside_node_modules_witness :
  ∃ segs, ["proj"; "b"; "c"] = ["proj"] ++ segs ∧
          Forall (λ s, s ≠ "node_modules" ∧ s ≠ ".git" ∧ s ≠ ".cache") segs.
Proof.
  apply (proj1 (findNodeModules_never_inside_node_modules _ _ _ _ _ _ mixed_scan)
           {| dir := ["proj"; "b"; "c"]; depth := 2 |}).
  simpl. do 3 apply list_elem_of_further. apply list_elem_of_here.
Defined.

Lemma found_are_entries
    (fs : FileSystem) (opts : scanOptions) (rounds : nat) (scheds : list (list nat))
    (rootAbs : path) (st : scan) (m : path) :
  findNodeModules fs rounds scheds rootAbs opts = Resolved st →
  m ∈ found st → isEntry fs opts st m.
Proof.
  intros Hres Hm.
  pose proof (scanLevels_rule fs opts (λ st _, ∀ m, m ∈ found st → isEntry fs opts st m)
                (λ st lvl seen ls _ HP Hb _, isEntry_level fs opts st lvl seen ls HP Hb)
                rounds scheds scan0 [{| dir := rootAbs; depth := 0 |}]) as Hrule.
  unfold findNodeModules in Hres. fold scan0 in Hres. rewrite Hres in Hrule.
  apply Hrule; [|done]. intros m' Hm'. by apply elem_of_nil in Hm'.
Qed.

(** X10.  Every reported match is an entry that a listed
    directory really has, named [node_modules] and being a directory or a
    symlink: the locator reports no regular file, invents no path, and
    reports a [node_modules] symlink as it stands, without asking where
    it leads. *)
Theorem findNodeModules_matches_are_entries
    (fs : FileSystem) (opts : scanOptions) (rounds : nat) (scheds : list (list nat))
    (rootAbs : path) (st : scan) (m : path) :
  findNodeModules fs rounds scheds rootAbs opts = Resolved st →
  m ∈ found st →
  ∃ n entries ent,
    n ∈ visited st ∧ tooDeep opts (depth n) = false ∧
    readdir fs (dir n) = Some entries ∧ ent ∈ entries ∧
    name ent = "node_modules" ∧
    (isDirectory ent = true ∨ isSymbolicLink ent = true) ∧
    m = dir n ++ [name ent].
Proof. apply found_are_entries. Qed.

Lemma findNodeModules_matches_are_entries_witness :
  ∃ n entries ent,
    n ∈ [ {| dir := ["proj"]; depth := 0 |};
          {| dir := ["proj"; "b"]; depth := 1 |};
          {| dir := ["proj"; "a"]; depth := 1 |};
          {| dir := ["proj"; "b"; "c"]; depth := 2 |} ] ∧
    tooDeep plainOptions (depth n) = false ∧
    readdir (treeFS mixedTree) (dir n) = Some entries ∧ ent ∈ entries ∧
    name ent = "node_modules" ∧
    (isDirectory ent = true ∨ isSymbolicLink ent = true) ∧
    ["proj"; "a"; "node_modules"] = dir n ++ [name ent].
Proof.
  apply (findNodeModules_matches_are_entries _ _ _ _ _ _ _ mixed_scan).
  apply list_elem_of_further, list_elem_of_here.
Defined.

Section LocatorExact.
Variable fs : FileSystem.
Variable opts : scanOptions.
Variable rootAbs : path.
Hypothesis plain : followSymlinks opts = false.

Lemma scanDir_subdir_reach n c :
  reach fs opts rootAbs n → tooDeep opts (depth n) = false →
  c ∈ subdirs (scanDir fs opts n) → reach fs opts rootAbs c.
Proof using plain.
  intros Hn Hd Hc. rewrite (scanDir_plain fs opts plain) in Hc.
  destruct (readdir fs (dir n)) as [entries|] eqn:Hrd; [|by apply elem_of_nil in Hc].
  simpl in Hc. apply list_elem_of_omap in Hc as (ent & Hent & Hc).
  unfold asSubdir in Hc. destruct (isDirectory ent && passes ent) eqn:Hp; [|done].
  apply andb_true_iff in Hp as [Hdir Hpass]. simplify_eq.
  by eapply reach_child.
Qed.

Lemma reach_level st lvl seen ls :
  (∀ n, n ∈ visited st ++ lvl → reach fs opts rootAbs n) → batchOf fs opts lvl ls →
  ∀ n, n ∈ visited (afterLevel st lvl seen ls) ++ mjoin (subdirs <$> ls) →
       reach fs opts rootAbs n.
Proof using plain.
  intros Hinv Hb c Hc. unfold afterLevel in Hc. cbn [visited] in Hc.
  apply elem_of_app in Hc as [Hc|Hc]; [by apply Hinv|].
  destruct (batchOf_subdir fs opts _ _ _ Hb Hc) as (n & Hn & Hd & Hcn).
  eapply scanDir_subdir_reach; [|done..]. apply Hinv. apply elem_of_app. by right.
Qed.

Lemma reach_visited rounds scheds st n :
  findNodeModules fs rounds scheds rootAbs opts = Resolved st →
  reach fs opts rootAbs n → n ∈ visited st.
Proof using plain.
  intros Hres Hn.
  assert (∀ n, n ∈ visited st → tooDeep opts (depth n) = false →
               (∀ m, m ∈ nodeModules (scanDir fs opts n) → m ∈ found st) ∧
               (∀ c, c ∈ subdirs (scanDir fs opts n) → c ∈ visited st)) as Hclosed.
  { eapply (scanLevels_complete_plain fs opts rounds scheds _ _ st plain Hres).
    simpl. intros n' Hn'. by apply elem_of_nil in Hn'. }
  induction Hn as [|n entries ent Hn IH Hd Hrd Hent Hdir Hpass].
  - apply scanLevels_grows in Hres as [_ [rest Hv]]. rewrite Hv. simpl.
    apply list_elem_of_here.
  - apply (Hclosed n IH Hd). rewrite (scanDir_plain fs opts plain), Hrd. simpl.
    apply list_elem_of_omap. exists ent. split; [done|].
    unfold asSubdir. by rewrite Hdir, Hpass.
Qed.

End LocatorExact.

(** X9.  Without symlink following the locator is exact.  The
    directories it takes are those reachable from the root through real
    directories not named [node_modules], [.git] or [.cache], each
    within the depth limit and listable; and the matches are the
    directory or symlink entries named [node_modules] of those among
    them that are within the depth limit, no more and no fewer. *)
Theorem findNodeModules_exact_without_symlinks
    (fs : FileSystem) (opts : scanOptions) (rounds : nat) (scheds : list (list nat))
    (rootAbs : path) (st : scan) :
  followSymlinks opts = false →
  findNodeModules fs rounds scheds rootAbs opts = Resolved st →
  (∀ n, n ∈ visited st ↔ reach fs opts rootAbs n) ∧
  (∀ m, m ∈ found st ↔
        ∃ n entries ent,
          reach fs opts rootAbs n ∧ tooDeep opts (depth n) = false ∧
          readdir fs (dir n) = Some entries ∧ ent ∈ entries ∧
          name ent = "node_modules" ∧
          (isDirectory ent = true ∨ isSymbolicLink ent = true) ∧
          m = dir n ++ [name ent]).
Proof.
  intros Hf Hres.
  assert (∀ n, n ∈ visited st → reach fs opts rootAbs n) as Hreach.
  { pose proof (scanLevels_rule fs opts
                  (λ st lvl, ∀ n, n ∈ visited st ++ lvl → reach fs opts rootAbs n)
                  (λ st lvl seen ls _ HP Hb _,
                     reach_level fs opts rootAbs Hf st lvl seen ls HP Hb)
                  rounds scheds scan0 [{| dir := rootAbs; depth := 0 |}]) as Hrule.
    unfold findNodeModules in Hres. fold scan0 in Hres. rewrite Hres in Hrule.
    intros n Hn. apply Hrule; [|by rewrite app_nil_r].
    intros n' Hn'. simpl in Hn'. apply list_elem_of_singleton in Hn' as ->. constructor. }
  split.
  - intros n. split; [apply Hreach|]. by apply (reach_visited fs opts rootAbs Hf rounds scheds).
  - intros m. split.
    + intros Hm.
      destruct (found_are_entries fs opts rounds scheds rootAbs st m
                  Hres Hm) as (n & entries & ent & Hn & Hrest).
      exists n, entries, ent. split; [by apply Hreach|done].
    + intros (n & entries & ent & Hn & Hd & Hrd & Hent & Hnm & Hkind & ->).
      apply (reach_visited fs opts rootAbs Hf rounds scheds st) in Hn; [|done].
      assert (∀ n, n ∈ visited st → tooDeep opts (depth n) = false →
                   (∀ m, m ∈ nodeModules (scanDir fs opts n) → m ∈ found st) ∧
                   (∀ c, c ∈ subdirs (scanDir fs opts n) → c ∈ visited st)) as Hclosed.
      { eapply (scanLevels_complete_plain fs opts rounds scheds _ _ st Hf Hres).
        simpl. intros n' Hn'. by apply elem_of_nil in Hn'. }
      apply (Hclosed n Hn Hd). rewrite (scanDir_listed _ _ _ _ Hrd). simpl.
      apply list_elem_of_omap. exists ent. split; [done|].
      unfold asMatch. rewrite Hnm. simpl.
      destruct Hkind as [-> | ->]; [done|by rewrite orb_true_r].
Qed.

Lemma findNodeModules_exact_without_symlinks_witness :
  {| dir := ["proj"; "b"; "c"]; depth := 2 |}
    ∈ [ {| dir := ["proj"]; depth := 0 |};
        {| dir := ["proj"; "b"]; depth := 1 |};
        {| dir := ["proj"; "a"]; depth := 1 |};
        {| dir := ["proj"; "b"; "c"]; depth := 2 |} ]
  ↔ reach (treeFS mixedTree) plainOptions ["proj"] {| dir := ["proj"; "b"; "c"]; depth := 2 |}.
Proof.
  apply (proj1 (findNodeModules_exact_without_symlinks (treeFS mixedTree) plainOptions
                  4 [] ["proj"] _ eq_refl mixed_scan)).
Defined.

Section LocatorBarren.
Variable fs : FileSystem.
Variable opts : scanOptions.
Variable rootAbs : path.
Variable K : nat.
(** From depth [K] on, no frontier node brings anything. *)
Hypothesis barren : ∀ n,
  K ≤ depth n → length (dir n) = length rootAbs + depth n →
  tooDeep opts (depth n) = true ∨ scanDir fs opts n = nothing.

Lemma batchOf_barren k lvl ls :
  K ≤ k → (∀ n, n ∈ lvl → depth n = k ∧ length (dir n) = length rootAbs + k) →
  batchOf fs opts lvl ls → mjoin (subdirs <$> ls) = [].
Proof using barren.
  intros Hk Hlvl Hb.
  assert (∀ r, r ∈ ls → r = nothing) as Hall.
  { intros r Hr. destruct (batchOf_from fs opts _ _ _ Hb Hr) as [->|(n & Hn & Hd & ->)];
      [done|].
    destruct (Hlvl n Hn) as [Hdn Hlen].
    destruct (barren n) as [Hdeep|Hno]; [lia|lia|congruence|done]. }
  clear Hb. induction ls as [|r ls IH]; [done|].
  rewrite fmap_cons.
  change (subdirs r ++ mjoin (subdirs <$> ls) = []).
  rewrite (Hall r (list_elem_of_here _ _)), IH; [done|].
  intros r' Hr'. apply Hall. by apply list_elem_of_further.
Qed.

Lemma scanLevels_barren rounds k scheds st lvl :
  (∀ n, n ∈ lvl → depth n = k ∧ length (dir n) = length rootAbs + k) →
  (K < k → lvl = []) → K + 1 ≤ rounds + k →
  ∃ st', scanLevels fs opts rounds scheds st lvl = Resolved st'.
Proof using barren.
  revert k scheds st lvl.
  induction rounds as [|rounds IH]; intros k scheds st lvl Hlvl Hend Hr.
  - rewrite Hend by lia. by eexists.
  - destruct lvl as [|n0 lvl]; [by eexists|].
    destruct (scanLevels_level fs opts rounds scheds st (n0 :: lvl))
      as (seen & ls & Hb & _ & ->); [done|].
    apply (IH (S k)); [| |lia].
    + intros c Hc. destruct (batchOf_subdir fs opts _ _ _ Hb Hc) as (n & Hn & _ & Hcn).
      apply elem_of_scanDir_subdirs in Hcn as (Hd & nm & Hdir & _).
      destruct (Hlvl n Hn) as [Hdn Hlen].
      rewrite Hd, Hdir, length_app, Hlen, Hdn. simpl. lia.
    + intros Hk. eapply batchOf_barren; [|exact Hlvl|exact Hb]. lia.
Qed.

Lemma findNodeModules_barren_from rounds scheds :
  K + 1 ≤ rounds →
  ∃ st, findNodeModules fs rounds scheds rootAbs opts = Resolved st.
Proof using barren.
  intros Hr. apply (scanLevels_barren rounds 0); [| |lia].
  - intros n Hn. apply list_elem_of_singleton in Hn as ->. simpl. split; [done|lia].
  - intros Hk. lia.
Qed.

End LocatorBarren.

(** X6.  Two cases in which the locator is sure to return,
    with or without symlink following and whatever cycles the links
    form.  With a finite maximum depth [d] it returns within [d + 2]
    levels on every file system.  On a file system that lists no path of
    [H] segments or more it returns within [H + 1] levels. *)
Theorem findNodeModules_terminates_within_bounds :
  (∀ fs opts rounds scheds rootAbs d,
     maxDepth opts = Some d → Z.to_nat (d + 1) + 1 ≤ rounds →
     ∃ st, findNodeModules fs rounds scheds rootAbs opts = Resolved st) ∧
  (∀ fs opts rounds scheds rootAbs H,
     (∀ p, H ≤ length p → readdir fs p = None) → H + 1 ≤ rounds →
     ∃ st, findNodeModules fs rounds scheds rootAbs opts = Resolved st).
Proof.
  split.
  - intros fs opts rounds scheds rootAbs d Hd Hr.
    apply (findNodeModules_barren_from fs opts rootAbs (Z.to_nat (d + 1))); [|done].
    intros n Hn _. left. unfold tooDeep. rewrite Hd. apply Z.ltb_lt. lia.
  - intros fs opts rounds scheds rootAbs H Hfs Hr.
    apply (findNodeModules_barren_from fs opts rootAbs H); [|done].
    intros n Hn Hlen. right. apply scanDir_unlisted. apply Hfs. lia.
Qed.

Lemma findNodeModules_terminates_within_bounds_witness :
  ∃ st, findNodeModules (treeFS cycleTree) 3 [] ["proj"]
          {| followSymlinks := true; maxDepth := Some 1%Z |} = Resolved st.
Proof.
  apply (proj1 findNodeModules_terminates_within_bounds (treeFS cycleTree)
           {| followSymlinks := true; maxDepth := Some 1%Z |} 3 [] ["proj"] 1%Z eq_refl).
  simpl. lia.
Defined.

(** ** More about the size accumulator *)



(** X18.  The measure does not depend on how the concurrent
    listings and stats interleave, nor on how long the caller is ready
    to wait: once a run returns [n], every run of at least as many
    rounds returns [n], under any schedules. *)
Theorem getDirSizeBytes_schedule_independent
    (fs : FileSystem) (followSymlinks : bool) (dirPath : path)
    (rounds rounds' : nat) (scheds scheds' : list (list nat)) (n : N) :
  getDirSizeBytes fs rounds scheds dirPath followSymlinks = Resolved n →
  rounds ≤ rounds' →
  getDirSizeBytes fs rounds' scheds' dirPath followSymlinks = Resolved n.
Proof. apply sizeRounds_more. Qed.

Lemma getDirSizeBytes_schedule_independent_witness :
  getDirSizeBytes (treeFS linkedTree) 7 [[5; 4]; []; [1]] ["node_modules"] true
  = Resolved 657%N.
Proof.
  apply (getDirSizeBytes_schedule_independent _ _ _ 3 7 _ _ _ linked_run_following).
  lia.
Defined.

Section SizePlain.
Variables fs1 fs2 : FileSystem.
Hypothesis same_readdir : ∀ p, readdir fs1 p = readdir fs2 p.
Hypothesis same_lstat : ∀ p, lstat fs1 p = lstat fs2 p.

Lemma entriesOf_ext pending : entriesOf fs1 pending = entriesOf fs2 pending.
Proof using same_readdir.
  unfold entriesOf. induction pending as [|p pending IH]; [done|].
  cbn [mbind list_bind]. by rewrite same_readdir, IH.
Qed.

Lemma statResultOf_ext de : statResultOf fs1 false de = statResultOf fs2 false de.
Proof using same_lstat.
  unfold statResultOf, fileInfo. simpl. by rewrite same_lstat.
Qed.

Lemma sizeRounds_ext rounds : ∀ scheds1 scheds2 total pending,
  sizeRounds fs1 false rounds scheds1 total pending
  = sizeRounds fs2 false rounds scheds2 total pending.
Proof using same_readdir same_lstat.
  induction rounds as [|rounds IH]; intros scheds1 scheds2 total pending; [done|].
  destruct pending as [|p pending]; [done|].
  destruct (sizeRounds_step fs1 false rounds scheds1 total (p :: pending)
              ltac:(done)) as [s1 ->].
  destruct (sizeRounds_step fs2 false rounds scheds2 total (p :: pending)
              ltac:(done)) as [s2 ->].
  rewrite entriesOf_ext.
  rewrite (list_omap_ext (statResultOf fs1 false) (statResultOf fs2 false)
             (entriesOf fs2 (p :: pending)) (entriesOf fs2 (p :: pending)));
    [apply IH|].
  apply Forall_Forall2_diag, Forall_forall. intros de _. apply statResultOf_ext.
Qed.

End SizePlain.

(** X19.  Without symlink following the accumulator never calls
    [fs.stat]: it reads listings and [lstat]s files, so it leaves every
    symlink alone, and two file systems with the same listings and the
    same [lstat] give the same measure. *)
Theorem getDirSizeBytes_plain_never_follows
    (fs1 fs2 : FileSystem) (rounds : nat) (scheds1 scheds2 : list (list nat))
    (dirPath : path) :
  (∀ p, readdir fs1 p = readdir fs2 p) → (∀ p, lstat fs1 p = lstat fs2 p) →
  getDirSizeBytes fs1 rounds scheds1 dirPath false
  = getDirSizeBytes fs2 rounds scheds2 dirPath false.
Proof. intros Hrd Hl. by apply sizeRounds_ext. Qed.

Lemma getDirSizeBytes_plain_never_follows_witness :
  getDirSizeBytes (treeFS linkedTree) 3 [] ["node_modules"] false
  = getDirSizeBytes (listingsOnly (treeFS linkedTree)) 3 [[1]] ["node_modules"] false.
Proof.
  apply (getDirSizeBytes_plain_never_follows (treeFS linkedTree)
           (listingsOnly (treeFS linkedTree)) 3 [] [[1]] ["node_modules"]);
    intros p; reflexivity.
Defined.

Example selfLink_capped :
  getDirSizeBytes (capped 4 (treeFS selfLinkTree)) 5 [] ["nm"] true = Resolved 20%N.
Proof. vm_compute. reflexivity. Qed.



(** ** More about the executor *)

Section ExecutorMore.
Context {St R E : Type}.
Variable tasks : list (task St R E).

Lemma exec_idle sched (p : pool St R E) : workers p = [] → exec tasks sched p = p.
Proof.
  intros Hw. induction sched as [|w sched IH]; [done|].
  assert (resume tasks w p = p) as Hp by (unfold resume; by rewrite Hw, lookup_nil).
  simpl. by rewrite Hp.
Qed.

Lemma runParallel_idle sched c s :
  Nat.min c (length tasks) = 0 →
  runParallel tasks sched c s = (s, replicate (length tasks) Hole).
Proof.
  intros Hc. unfold runParallel, runPool, start. rewrite Hc. simpl.
  rewrite exec_idle by done. done.
Qed.

Section Keeps.
Variable I : St → Prop.
Hypothesis tasks_keep : ∀ i t s, tasks !! i = Some t → I s → I (t s).1 ∧ keeps I (t s).2.

Lemma keepsInv_invoke s (σ : list (progress St R E)) i t :
  tasks !! i = Some t → σ !! i = Some Waiting → keepsInv I s σ →
  keepsInv I (t s).1 (<[i := Running (t s).2]> σ).
Proof using tasks_keep.
  intros Ht Hi [Hs Hσ]. destruct (tasks_keep i t s Ht Hs) as [Hs' Hpr].
  split; [done|]. intros j pr Hj.
  destruct (decide (j = i)) as [->|Hne].
  - rewrite list_lookup_insert_eq in Hj by (by eapply lookup_lt_Some). by simplify_eq.
  - rewrite list_lookup_insert_ne in Hj by done. by eapply Hσ.
Qed.

Lemma keepsInv_await s (σ : list (progress St R E)) i upd k :
  σ !! i = Some (Running (Await upd k)) → keepsInv I s σ →
  keepsInv I (upd s) (<[i := Running (k s)]> σ).
Proof.
  intros Hi [Hs Hσ]. pose proof (Hσ i _ Hi) as Hpr. inversion Hpr as [| |? ? Hu Hk]; subst.
  split; [by apply Hu|]. intros j pr Hj.
  destruct (decide (j = i)) as [->|Hne].
  - rewrite list_lookup_insert_eq in Hj by (by eapply lookup_lt_Some).
    simplify_eq. by apply Hk.
  - rewrite list_lookup_insert_ne in Hj by done. by eapply Hσ.
Qed.

Lemma keepsInv_settle s (σ : list (progress St R E)) i x :
  is_Some (σ !! i) → keepsInv I s σ → keepsInv I s (<[i := Done x]> σ).
Proof.
  intros Hi [Hs Hσ]. split; [done|]. intros j pr Hj.
  destruct (decide (j = i)) as [->|Hne].
  - rewrite list_lookup_insert_eq in Hj by (by apply lookup_lt_is_Some). done.
  - rewrite list_lookup_insert_ne in Hj by done. by eapply Hσ.
Qed.

Lemma runParallel_keeps sched c s :
  I s → I (runParallel tasks sched c s).1.
Proof using tasks_keep.
  intros Hs. destruct c as [|c].
  { by rewrite runParallel_idle. }
  pose proof (runParallel_rule tasks (keepsInv I) keepsInv_invoke keepsInv_await
                (λ s σ i v Hi, keepsInv_settle s σ i (Value v) (mk_is_Some _ _ Hi))
                (λ s σ i e Hi, keepsInv_settle s σ i (Caught e) (mk_is_Some _ _ Hi))
                sched (S c) s ltac:(lia)) as Hrule.
  destruct (runParallel tasks sched (S c) s) as [s' rs]. apply Hrule.
  split; [done|]. intros i pr Hi. by apply lookup_replicate in Hi as [? _].
Qed.

End Keeps.

Lemma sum_list_insert (l : list nat) i w v :
  l !! i = Some w → sum_list (<[i:=v]> l) + w = sum_list l + v.
Proof.
  revert i. induction l as [|x l IH]; intros [|i] Hi; simplify_eq/=; [lia|].
  specialize (IH i Hi). lia.
Qed.

Lemma sum_list_zero (l : list nat) : (∀ i x, l !! i = Some x → x = 0) → sum_list l = 0.
Proof.
  induction l as [|x l IH]; intros Hl; [done|]. simpl.
  rewrite (Hl 0 x eq_refl), IH; [done|]. intros i y Hy. by apply (Hl (S i)).
Qed.

Section Adds.
Variable m : St → nat.
Variable weights : list nat.
Hypothesis tasks_add : ∀ i t s,
  tasks !! i = Some t →
  ∃ w a, weights !! i = Some w ∧ a ≤ w ∧ m (t s).1 = m s + a ∧ adds m (w - a) (t s).2.

Lemma addsInv_invoke total s (σ : list (progress St R E)) i t :
  tasks !! i = Some t → σ !! i = Some Waiting → addsInv m weights total s σ →
  addsInv m weights total (t s).1 (<[i := Running (t s).2]> σ).
Proof using tasks_add.
  intros Ht Hi (owed & Hlen & Hsum & Hσ).
  destruct (tasks_add i t s Ht) as (w & a & Hw & Ha & Hm & Hpr).
  pose proof (Hσ i Waiting Hi) as Howed. simpl in Howed. rewrite Hw in Howed.
  exists (<[i := w - a]> owed). split; [by rewrite !length_insert|]. split.
  - pose proof (sum_list_insert owed i w (w - a) Howed). lia.
  - intros j g Hj. destruct (decide (j = i)) as [->|Hne].
    + rewrite list_lookup_insert_eq in Hj by (by eapply lookup_lt_Some).
      simplify_eq. exists (w - a). split; [|done].
      apply list_lookup_insert_eq. by eapply lookup_lt_Some.
    + rewrite list_lookup_insert_ne in Hj by done. specialize (Hσ j g Hj).
      by rewrite list_lookup_insert_ne.
Qed.

Lemma addsInv_await total s (σ : list (progress St R E)) i upd k :
  σ !! i = Some (Running (Await upd k)) → addsInv m weights total s σ →
  addsInv m weights total (upd s) (<[i := Running (k s)]> σ).
Proof.
  intros Hi (owed & Hlen & Hsum & Hσ).
  destruct (Hσ i _ Hi) as (w & Howed & Hpr).
  inversion Hpr as [| |? ? ? a Ha Hk]; subst.
  destruct (Ha s) as [Hle Hm].
  exists (<[i := w - a s]> owed). split; [by rewrite !length_insert|]. split.
  - pose proof (sum_list_insert owed i w (w - a s) Howed). lia.
  - intros j g Hj. destruct (decide (j = i)) as [->|Hne].
    + rewrite list_lookup_insert_eq in Hj by (by eapply lookup_lt_Some).
      simplify_eq. exists (w - a s). split; [|done].
      apply list_lookup_insert_eq. by eapply lookup_lt_Some.
    + rewrite list_lookup_insert_ne in Hj by done. specialize (Hσ j g Hj).
      by rewrite list_lookup_insert_ne.
Qed.

Lemma addsInv_settle total s (σ : list (progress St R E)) i pr x :
  σ !! i = Some (Running pr) → (∀ w, adds m w pr → w = 0) →
  addsInv m weights total s σ → addsInv m weights total s (<[i := Done x]> σ).
Proof.
  intros Hi Hzero (owed & Hlen & Hsum & Hσ).
  destruct (Hσ i _ Hi) as (w & Howed & Hpr).
  apply Hzero in Hpr as ->.
  exists owed. split; [by rewrite length_insert|]. split; [done|].
  intros j g Hj. destruct (decide (j = i)) as [->|Hne].
  - rewrite list_lookup_insert_eq in Hj by (by eapply lookup_lt_Some). by simplify_eq.
  - rewrite list_lookup_insert_ne in Hj by done. by apply Hσ.
Qed.

Lemma runParallel_adds sched c s :
  1 ≤ c → length weights = length tasks →
  m (runParallel tasks sched c s).1 = m s + sum_list weights.
Proof using tasks_add.
  intros Hc Hlen.
  pose proof (runParallel_rule tasks (addsInv m weights (m s + sum_list weights))
                (addsInv_invoke _) (addsInv_await _)
                (λ s σ i v Hi, addsInv_settle _ s σ i (Ret v) (Value v) Hi
                                 (λ w Hw, ltac:(by inversion Hw)))
                (λ s σ i e Hi, addsInv_settle _ s σ i (Throw e) (Caught e) Hi
                                 (λ w Hw, ltac:(by inversion Hw)))
                sched c s Hc) as Hrule.
  destruct (runParallel tasks sched c s) as [s' rs].
  destruct Hrule as (Hrs & _ & owed & Hl & Hsum & Hσ).
  { exists weights. split; [by rewrite length_replicate|]. split; [done|].
    intros i g Hi. by apply lookup_replicate in Hi as [-> _]. }
  simpl. rewrite (sum_list_zero owed) in Hsum; [lia|].
  intros i x Hx. rewrite length_fmap in Hl.
  destruct (lookup_lt_is_Some_2 rs i) as [y Hy].
  { apply lookup_lt_Some in Hx. lia. }
  specialize (Hσ i (Done y)). rewrite list_lookup_fmap, Hy in Hσ.
  specialize (Hσ eq_refl). simpl in Hσ. congruence.
Qed.

End Adds.
End ExecutorMore.

(** X1.  The two ways of getting no worker.  An empty list of
    tasks gives an empty array, the shared state untouched, whatever the
    limit.  A limit of 0 starts no worker: no task is invoked, the state
    is untouched, and the array comes back with all its [N] slots
    empty. *)
Theorem runParallel_without_workers {St R E : Type} :
  (∀ sched c (s : St), runParallel ([] : list (task St R E)) sched c s = (s, [])) ∧
  (∀ (tasks : list (task St R E)) sched (s : St),
     runParallel tasks sched 0 s = (s, replicate (length tasks) Hole) ∧
     started (runPool tasks sched 0 s) = []).
Proof.
  split.
  - intros sched c s. apply (runParallel_idle []). apply Nat.min_0_r.
  - intros tasks sched s. split; [by apply runParallel_idle|].
    unfold runPool, start. simpl. by rewrite exec_idle.
Qed.

(** X3.  The executor writes nothing to the shared state
    itself: a property of the state that every task keeps, in its
    synchronous prefix and in each of its continuations, holds when
    [runParallel] returns, under every schedule and limit. *)
Theorem runParallel_keeps_invariant {St R E : Type}
    (tasks : list (task St R E)) (I : St → Prop)
    (sched : list nat) (c : nat) (s : St) :
  (∀ i t s, tasks !! i = Some t → I s → I (t s).1 ∧ keeps I (t s).2) →
  I s → I (runParallel tasks sched c s).1.
Proof. intros Hk. by apply runParallel_keeps. Qed.

Lemma runParallel_keeps_invariant_witness :
  4 ≤ (runParallel demoTasks [1; 0; 0] 2 4).1.
Proof.
  apply (runParallel_keeps_invariant demoTasks (λ s, 4 ≤ s) [1; 0; 0] 2 4); [|lia].
  intros [|[|[|i]]] t s Ht Hs; simplify_eq/=; (split; [done|]);
    repeat (constructor; intros; try (unfold id; lia)).
Defined.

(** X4.  Counters come out right under every interleaving: when
    each task, over its whole run, adds a fixed amount to a measure of
    the shared state (in whatever steps, and whatever the other tasks do
    in between), the measure ends at its start value plus the sum of the
    amounts; no update is lost and none is applied twice. *)
Theorem runParallel_adds_up {St R E : Type}
    (tasks : list (task St R E)) (m : St → nat) (weights : list nat)
    (sched : list nat) (c : nat) (s : St) :
  1 ≤ c → length weights = length tasks →
  (∀ i t s, tasks !! i = Some t →
            ∃ w a, weights !! i = Some w ∧ a ≤ w ∧
                   m (t s).1 = m s + a ∧ adds m (w - a) (t s).2) →
  m (runParallel tasks sched c s).1 = m s + sum_list weights.
Proof. intros Hc Hlen Ht. by apply runParallel_adds. Qed.

Lemma runParallel_adds_up_witness :
  (runParallel demoTasks [1; 0; 0] 2 4).1 = 4 + sum_list [2; 0; 0].
Proof.
  apply (runParallel_adds_up demoTasks id [2; 0; 0] [1; 0; 0] 2 4); [lia|done|].
  intros [|[|[|i]]] t s Ht; simplify_eq/=.
  - exists 2, 0. split; [done|]. split; [lia|]. split; [done|].
    apply (adds_await id 2 S _ (λ _, 1)); [intros s'; unfold id; lia|].
    intros s'. apply (adds_await id 1 S _ (λ _, 1)); [intros s''; unfold id; lia|].
    intros s''. constructor.
  - exists 0, 0. split; [done|]. split; [lia|]. split; [done|].
    apply (adds_await id 0 id _ (λ _, 0)); [intros s'; unfold id; lia|].
    intros s'. constructor.
  - exists 0, 0. split; [done|]. split; [lia|]. split; [done|]. constructor.
Defined.

Section SequentialFacts.
Context {St R E : Type}.
Variable tasks : list (task St R E).

Lemma singleOutcome_again (p : pool St R E) ws :
  workers p = [ws] →
  singleOutcome tasks (again tasks 0 p)
  = seqRun (drop (index p) tasks) (index p) (store p) (results p).
Proof.
  intros Hw. unfold again, loopHead.
  destruct (tasks !! index p) as [t|] eqn:Ht.
  - rewrite (drop_S _ _ _ Ht). cbn [seqRun].
    destruct (t (store p)) as [s1 pr]. unfold singleOutcome. simpl. by rewrite Hw.
  - rewrite drop_ge by (by apply lookup_ge_None). unfold singleOutcome. simpl.
    by rewrite Hw.
Qed.

Lemma singleOutcome_resume (p : pool St R E) :
  length (workers p) = 1 → singleOutcome tasks (resume tasks 0 p) = singleOutcome tasks p.
Proof.
  intros Hlen. destruct (workers p) as [|ws [|]] eqn:Hw; [done| |done].
  unfold resume. rewrite Hw. simpl.
  destruct ws as [i [v|e|upd k]|]; [..|done].
  - rewrite (singleOutcome_again _ (Busy i (Ret v))) by done.
    unfold singleOutcome. by rewrite Hw.
  - rewrite (singleOutcome_again _ (Busy i (Throw e))) by done.
    unfold singleOutcome. by rewrite Hw.
  - unfold singleOutcome, advance. simpl. by rewrite Hw.
Qed.

Lemma singleOutcome_exec sched (p : pool St R E) :
  length (workers p) = 1 → singleOutcome tasks (exec tasks sched p) = singleOutcome tasks p.
Proof.
  revert p. induction sched as [|w sched IH]; intros p Hlen; [done|].
  simpl. rewrite IH by (by rewrite length_workers_resume).
  destruct w as [|w]; [by apply singleOutcome_resume|].
  unfold resume. rewrite lookup_ge_None_2 by (rewrite Hlen; lia). done.
Qed.

Lemma seqRun_sequential (ts : list (task St R E)) (s : St) (filled : list (slot R E)) :
  seqRun ts (length filled) s (filled ++ replicate (length ts) Hole)
  = fold_left runNext ts (s, filled).
Proof.
  revert s filled. induction ts as [|t ts IH]; intros s filled.
  - simpl. by rewrite app_nil_r.
  - cbn [seqRun fold_left length replicate]. unfold runNext at 2. cbn [fst snd].
    destruct (t s) as [s1 pr]. destruct (settle pr s1) as [s2 x].
    rewrite <- IH. rewrite length_app. cbn [length].
    rewrite Nat.add_1_r. f_equal.
    rewrite insert_app_r_alt by done. rewrite Nat.sub_diag. simpl.
    by rewrite <- app_assoc.
Qed.

Lemma runParallel_single sched s :
  runParallel tasks sched 1 s = runSequential tasks s.
Proof.
  destruct tasks as [|t0 ts] eqn:Htasks.
  { by rewrite (runParallel_idle []). }
  rewrite <- Htasks. unfold runParallel.
  set (p := runPool tasks sched 1 s).
  assert (length (workers p) = 1) as Hlen.
  { unfold p. rewrite length_workers_runPool, Htasks. done. }
  assert (workers p = [Exited]) as Hw.
  { destruct (workers p) as [|ws [|]] eqn:Hws; [done| |done].
    rewrite (allExited_runPool tasks sched 1 s 0 ws); [done|].
    fold p. by rewrite Hws. }
  assert (singleOutcome tasks p = (store p, results p)) as <-.
  { unfold singleOutcome. by rewrite Hw. }
  unfold p, runPool. destruct (drain_exec tasks (exec tasks sched (start tasks 1 s)))
    as [sched' ->].
  rewrite <- exec_app.
  rewrite singleOutcome_exec by (rewrite length_workers_start, Htasks; done).
  unfold start. replace (Nat.min 1 (length tasks)) with 1 by (by rewrite Htasks).
  change (Nat.iter 1 (launch tasks) (fresh tasks s)) with (launch tasks (fresh tasks s)).
  rewrite launch_spare.
  rewrite (singleOutcome_again _ Exited) by done. cbn [index store results setWorkers fresh].
  rewrite drop_0. unfold runSequential.
  apply (seqRun_sequential tasks s []).
Qed.

End SequentialFacts.

(** X2.  With a limit of 1 the executor is a sequential loop:
    whatever the schedule, the tasks run in index order, each to its end
    before the next is invoked, and the shared state and the results are
    those of running them one after the other. *)
Theorem runParallel_one_worker_is_sequential {St R E : Type}
    (tasks : list (task St R E)) (sched : list nat) (s : St) :
  runParallel tasks sched 1 s = runSequential tasks s.
Proof. apply runParallel_single. Qed.

(** ** More about the deletion phase *)

Section DeletionMore.
Variable faults : path → nat → option fault.
Variable isInteractive : bool.
Variable rows : list row.
Variable disk0 : list path.

Lemma onlyTargets_disk s s' :
  disk s' = disk s → onlyTargets rows disk0 s → onlyTargets rows disk0 s'.
Proof. intros Hd. unfold onlyTargets. by rewrite Hd. Qed.

Lemma onlyTargets_effect v s :
  Value v ∈ rows → onlyTargets rows disk0 s →
  onlyTargets rows disk0 (effect faults (nmPath v) s).
Proof.
  intros Hv [H1 H2]. split.
  - intros q Hq. simpl in Hq. apply removeDir_spec in Hq as [Hq _]. by apply H1.
  - intros q Hq Hnq. destruct (decide (q ∈ disk s)) as [Hin|Hout]; [|by apply H2].
    exists v. split; [done|].
    destruct (decide (nmPath v `prefix_of` q)) as [|Hno]; [done|].
    exfalso. apply Hnq. simpl. apply removeDir_spec. split; [done|].
    by intros (_ & Hpre & _).
Qed.

Lemma deleteTask_keeps i t s :
  (deleteTask faults isInteractive <$> rows) !! i = Some t →
  onlyTargets rows disk0 s →
  onlyTargets rows disk0 (t s).1 ∧ keeps (onlyTargets rows disk0) (t s).2.
Proof.
  intros Ht Hs. apply list_lookup_fmap_Some in Ht as (r & -> & Hr).
  apply list_elem_of_lookup_2 in Hr.
  destruct r as [|v|e].
  - split; [done|]. constructor.
  - split; [done|]. simpl. unfold removal. constructor.
    + intros s' Hs'. by apply onlyTargets_effect.
    + intros s' Hs'. destruct ((removeDir faults (nmPath v) (disk s')).2) as [err|];
        simpl; constructor; try (intros; constructor); intros s'' Hs'';
        by eapply onlyTargets_disk.
  - destruct (deleteTask_Caught faults isInteractive e s) as [-> | ->].
    + split; [by eapply onlyTargets_disk|]. constructor.
    + split; [done|]. unfold rejection. constructor; [|intros; constructor].
      intros s' Hs'. by eapply onlyTargets_disk.
Qed.

Lemma tick_adds n :
  tick isInteractive n = n + (if isInteractive then 1 else 0).
Proof. unfold tick. destruct isInteractive; lia. Qed.

Lemma deleteTask_Caught_cases e s :
  (isInteractive = true ∧
   deleteTask faults isInteractive (Caught e) s
   = (recordFailure isInteractive None invalidPath s, Ret nameless))
  ∨ (isInteractive = false ∧
     deleteTask faults isInteractive (Caught e) s = (s, rejection isInteractive)).
Proof. unfold deleteTask. destruct isInteractive; auto. Qed.

Lemma deleteTask_adds i t s :
  (deleteTask faults isInteractive <$> rows) !! i = Some t →
  ∃ w a, (tickOf isInteractive <$> rows) !! i = Some w ∧ a ≤ w ∧
         deleteCompleted (t s).1 = deleteCompleted s + a ∧
         adds deleteCompleted (w - a) (t s).2.
Proof.
  intros Ht. apply list_lookup_fmap_Some in Ht as (r & -> & Hr).
  rewrite list_lookup_fmap, Hr. simpl.
  set (w := if isInteractive then 1 else 0).
  destruct r as [|v|e].
  - exists 0, 0. simpl. split; [done|]. split; [done|]. split; [lia|]. constructor.
  - exists w, 0. simpl. split; [done|]. split; [lia|]. split; [lia|].
    rewrite Nat.sub_0_r. unfold removal.
    apply (adds_await _ w _ _ (λ _, 0)); [intros s'; simpl; lia|].
    intros s'. rewrite Nat.sub_0_r.
    destruct ((removeDir faults (nmPath v) (disk s')).2) as [err|]; simpl;
      apply (adds_await _ w _ _ (λ _, w));
      try (intros s''; cbn [recordFailure recordSuccess deleteCompleted];
           rewrite tick_adds; fold w; lia);
      intros s''; rewrite Nat.sub_diag; constructor.
  - destruct (deleteTask_Caught_cases e s) as [[Hint Heq]|[Hint Heq]]; rewrite Heq.
    + exists 1, 1. unfold w. rewrite Hint. split; [done|]. split; [done|].
      split; [|constructor].
      cbn [fst recordFailure deleteCompleted]. unfold tick. lia.
    + exists 0, 0. unfold w. rewrite Hint. split; [done|]. split; [done|].
      split; [cbn [fst]; lia|]. unfold rejection. cbn [snd].
      apply (adds_await _ 0 _ _ (λ _, 0)); [|intros s'; constructor].
      intros s'. cbn [recordFailure deleteCompleted]. unfold tick. lia.
Qed.

End DeletionMore.

Lemma sum_tickOf isInteractive (rows : list row) :
  (Hole ∉ rows) →
  sum_list (tickOf isInteractive <$> rows) = if isInteractive then length rows else 0.
Proof.
  induction rows as [|r rows IH]; intros Hh; [by destruct isInteractive|].
  apply not_elem_of_cons in Hh as [Hr Hh].
  change (tickOf isInteractive r + sum_list (tickOf isInteractive <$> rows)
          = if isInteractive then length (r :: rows) else 0).
  rewrite (IH Hh). destruct r as [|v|e]; [done|..]; by destruct isInteractive.
Qed.

Example five_run :
  deletePhase (thirdRefused (λ _, true)) true [0; 1; 2; 3; 3; 2; 1; 0] fiveRows fiveDisk
  = Resolved
      {| removed := 4; failed := 1;
         after := {| disk := [["w"]; ["w"; "p3"]; ["w"; "p3"; "node_modules"]];
                     deleteErrors := [(Some ["w"; "p3"; "node_modules"],
                                       "EACCES: permission denied")];
                     deleteCompleted := 5 |};
         deleteResults :=
           [ Value {| success := true; target := Some ["w"; "p1"; "node_modules"] |};
             Value {| success := true; target := Some ["w"; "p2"; "node_modules"] |};
             Value {| success := false; target := Some ["w"; "p3"; "node_modules"] |};
             Value {| success := true; target := Some ["w"; "p4"; "node_modules"] |};
             Value {| success := true; target := Some ["w"; "p5"; "node_modules"] |} ] |}.
Proof. vm_compute. reflexivity. Qed.

(** X20.  Whatever the rows, also when targets are nested or
    repeated, whatever fails and under every schedule, the deletion
    phase creates nothing and removes nothing but what lies at or under
    the [nmPath] of one of its rows. *)
Theorem deletePhase_touches_only_targets
    (faults : path → nat → option fault) (isInteractive : bool) (sched : list nat)
    (rows : list row) (disk0 : list path) (sm : summary) :
  deletePhase faults isInteractive sched rows disk0 = Resolved sm →
  (∀ q, q ∈ disk (after sm) → q ∈ disk0) ∧
  (∀ q, q ∈ disk0 → q ∉ disk (after sm) →
        ∃ v, Value v ∈ rows ∧ nmPath v `prefix_of` q).
Proof.
  intros Hsm. unfold deletePhase in Hsm.
  pose proof (runParallel_keeps (deleteTask faults isInteractive <$> rows)
                (onlyTargets rows disk0)
                (deleteTask_keeps faults isInteractive rows disk0)
                sched DELETE_CONCURRENCY
                {| disk := disk0; deleteErrors := []; deleteCompleted := 0 |}) as Hk.
  destruct (runParallel _ _ _ _) as [s' rs].
  destruct (countResults rs 0 0) as [[r f]|]; [|done].
  injection Hsm as <-. simpl in *. apply Hk. split; [done|]. by intros q Hq Hnq.
Qed.

Lemma deletePhase_touches_only_targets_witness :
  ["w"; "p3"; "node_modules"] ∈ fiveDisk.
Proof.
  apply (proj1 (deletePhase_touches_only_targets _ _ _ _ _ _ five_run)).
  simpl. repeat constructor.
Defined.

(** X21.  With the progress bar every task of a row ticks
    [deleteCompleted] exactly once, on success and on failure alike, so
    that the bar ends at the number of rows under every schedule;
    without the bar the counter stays at 0. *)
Theorem deletePhase_progress_completes
    (faults : path → nat → option fault) (isInteractive : bool) (sched : list nat)
    (rows : list row) (disk0 : list path) (sm : summary) :
  deletePhase faults isInteractive sched rows disk0 = Resolved sm →
  (Hole ∉ rows) →
  deleteCompleted (after sm) = if isInteractive then length rows else 0.
Proof.
  intros Hsm Hh. unfold deletePhase in Hsm.
  pose proof (runParallel_adds (deleteTask faults isInteractive <$> rows)
                deleteCompleted (tickOf isInteractive <$> rows)
                (λ i t s, deleteTask_adds faults isInteractive rows i t s)
                sched DELETE_CONCURRENCY
                {| disk := disk0; deleteErrors := []; deleteCompleted := 0 |}) as Ha.
  destruct (runParallel _ _ _ _) as [s' rs].
  destruct (countResults rs 0 0) as [[r f]|]; [|done].
  injection Hsm as <-. simpl in *. rewrite Ha.
  - by apply sum_tickOf.
  - unfold DELETE_CONCURRENCY. lia.
  - by rewrite !length_fmap.
Qed.

Lemma deletePhase_progress_completes_witness : 5 = length fiveRows.
Proof.
  apply (deletePhase_progress_completes _ _ _ _ _ _ five_run).
  unfold fiveRows. simpl. intros Hin.
  repeat (apply elem_of_cons in Hin as [Hin|Hin]; [discriminate|]).
  by apply elem_of_nil in Hin.
Defined.

(** ** From the matches to the deletion *)

Section LocatorDistinct.
Variable fs : FileSystem.
Variable opts : scanOptions.
Variable rootAbs : path.
Hypothesis plain : followSymlinks opts = false.
Hypothesis names : ∀ p entries, readdir fs p = Some entries → NoDup (name <$> entries).

Lemma plainListing_subdirs_NoDup n : NoDup (dir <$> subdirs (plainListing fs opts n)).
Proof using plain names.
  unfold plainListing. destruct (tooDeep opts (depth n)); [constructor|].
  rewrite (scanDir_plain fs opts plain).
  destruct (readdir fs (dir n)) as [entries|] eqn:Hrd; [|constructor].
  simpl. apply names in Hrd.
  induction entries as [|ent entries IH]; [constructor|].
  apply NoDup_cons in Hrd as [Hnotin Hrd]. simpl.
  destruct (asSubdir n ent) as [c|] eqn:Hc; [|by apply IH].
  simpl. apply NoDup_cons. split; [|by apply IH].
  intros Hin. apply list_elem_of_fmap in Hin as (c' & Heq & Hc').
  apply list_elem_of_omap in Hc' as (ent' & Hent' & Hc').
  unfold asSubdir in Hc, Hc'.
  destruct (isDirectory ent && passes ent); [|done].
  destruct (isDirectory ent' && passes ent'); [|done].
  injection Hc as <-. injection Hc' as <-. simpl in Heq.
  apply app_inj_tail in Heq as [_ Heq].
  apply Hnotin. rewrite Heq. by apply list_elem_of_fmap_2.
Qed.

Lemma plainListing_nodeModules_NoDup n : NoDup (nodeModules (plainListing fs opts n)).
Proof using names.
  unfold plainListing. destruct (tooDeep opts (depth n)); [constructor|].
  by apply scanDir_nodeModules_NoDup.
Qed.

Lemma plainListing_subdir n c :
  c ∈ subdirs (plainListing fs opts n) → ∃ nm, dir c = dir n ++ [nm].
Proof.
  unfold plainListing. destruct (tooDeep opts (depth n)); [intros H; by apply elem_of_nil in H|].
  intros Hc. apply elem_of_scanDir_subdirs in Hc as (_ & nm & Hdir & _). eauto.
Qed.

Lemma plainListing_match n m :
  m ∈ nodeModules (plainListing fs opts n) → m = dir n ++ ["node_modules"].
Proof.
  unfold plainListing. destruct (tooDeep opts (depth n)); [intros H; by apply elem_of_nil in H|].
  apply elem_of_scanDir_nodeModules.
Qed.

Lemma NoDup_children (f : node → list path) (lvl : list node) :
  NoDup (dir <$> lvl) → (∀ n, NoDup (f n)) →
  (∀ n x, x ∈ f n → ∃ nm, x = dir n ++ [nm]) →
  NoDup (mjoin (f <$> lvl)).
Proof.
  intros Hnd Hf Hshape. induction lvl as [|n lvl IH]; [constructor|].
  rewrite fmap_cons in Hnd. apply NoDup_cons in Hnd as [Hn Hnd].
  rewrite fmap_cons. change (NoDup (f n ++ mjoin (f <$> lvl))).
  apply NoDup_app. split; [done|]. split; [|by apply IH].
  intros x Hx Hx'. apply list_elem_of_join in Hx' as (xs & Hx' & Hxs).
  apply list_elem_of_fmap in Hxs as (n' & -> & Hn').
  destruct (Hshape n x Hx) as [a ->]. destruct (Hshape n' _ Hx') as [b Heq].
  apply app_inj_tail in Heq as [Heq _]. apply Hn. rewrite Heq.
  by apply list_elem_of_fmap_2.
Qed.

Lemma fmap_mjoin {A B : Type} (f : A → B) (parts : list (list A)) :
  f <$> mjoin parts = mjoin (fmap f <$> parts).
Proof.
  induction parts as [|p parts IH]; [done|].
  change (f <$> p ++ mjoin parts = (f <$> p) ++ mjoin (fmap f <$> parts)).
  by rewrite fmap_app, IH.
Qed.

Lemma plainInv_level st lvl seen :
  plainInv rootAbs st lvl →
  plainInv rootAbs (afterLevel st lvl seen (plainListing fs opts <$> lvl))
    (mjoin (subdirs <$> (plainListing fs opts <$> lvl))).
Proof using plain names.
  intros (d & Hlvl & Hvis & Hnv & Hnl & Hnf & Hfound). exists (S d).
  unfold afterLevel. cbn [visited found].
  assert (∀ c, c ∈ mjoin (subdirs <$> (plainListing fs opts <$> lvl)) →
               ∃ n nm, n ∈ lvl ∧ dir c = dir n ++ [nm]) as Hnext.
  { intros c Hc. apply list_elem_of_join in Hc as (cs & Hc & Hcs).
    apply list_elem_of_fmap in Hcs as (r & -> & Hr).
    apply list_elem_of_fmap in Hr as (n & -> & Hn).
    destruct (plainListing_subdir n c Hc) as [nm Hnm]. eauto. }
  assert (∀ m, m ∈ mjoin (nodeModules <$> (plainListing fs opts <$> lvl)) →
               ∃ n, n ∈ lvl ∧ m = dir n ++ ["node_modules"]) as Hnew.
  { intros m Hm. apply list_elem_of_join in Hm as (ms & Hm & Hms).
    apply list_elem_of_fmap in Hms as (r & -> & Hr).
    apply list_elem_of_fmap in Hr as (n & -> & Hn).
    exists n. split; [done|]. by apply plainListing_match. }
  split; [|split; [|split; [|split; [|split]]]].
  - intros c Hc. destruct (Hnext c Hc) as (n & nm & Hn & ->).
    rewrite length_app, (Hlvl n Hn). simpl. lia.
  - intros n Hn. apply elem_of_app in Hn as [Hn|Hn].
    + specialize (Hvis n Hn). lia.
    + rewrite (Hlvl n Hn). lia.
  - rewrite fmap_app. apply NoDup_app. split; [done|]. split; [|done].
    intros x Hx Hx'. apply list_elem_of_fmap in Hx as (n & -> & Hn).
    apply list_elem_of_fmap in Hx' as (n' & Heq & Hn').
    specialize (Hvis n Hn). specialize (Hlvl n' Hn'). rewrite Heq in Hvis. lia.
  - rewrite fmap_mjoin, <- !list_fmap_compose.
    apply NoDup_children; [done| |].
    + intros n. apply plainListing_subdirs_NoDup.
    + intros n x Hx. apply list_elem_of_fmap in Hx as (c & -> & Hc).
      by apply plainListing_subdir.
  - apply NoDup_app. split; [done|]. split.
    + intros m Hm Hm'. destruct (Hfound m Hm) as (n & Hn & ->).
      destruct (Hnew _ Hm') as (n' & Hn' & Heq).
      apply app_inj_tail in Heq as [Heq _].
      specialize (Hvis n Hn). specialize (Hlvl n' Hn'). rewrite Heq in Hvis. lia.
    + rewrite <- list_fmap_compose. apply NoDup_children; [done| |].
      * intros n. apply plainListing_nodeModules_NoDup.
      * intros n x Hx. exists "node_modules". by apply plainListing_match.
  - intros m Hm. apply elem_of_app in Hm as [Hm|Hm].
    + destruct (Hfound m Hm) as (n & Hn & ->). exists n. split; [|done].
      apply elem_of_app. by left.
    + destruct (Hnew m Hm) as (n & Hn & ->). exists n. split; [|done].
      apply elem_of_app. by right.
Qed.

Lemma findNodeModules_plainInv rounds scheds st :
  findNodeModules fs rounds scheds rootAbs opts = Resolved st → NoDup (found st).
Proof using plain names.
  intros Hres.
  pose proof (scanLevels_rule fs opts (plainInv rootAbs)) as Hrule.
  unfold findNodeModules in Hres. fold scan0 in Hres.
  assert (plainInv rootAbs st []) as (d & _ & _ & _ & _ & Hnd & _); [|done].
  specialize (Hrule ltac:(intros st0 lvl seen ls _ HP _ Hpl;
                          destruct (Hpl plain) as [_ ->]; by apply plainInv_level)
                rounds scheds scan0 [{| dir := rootAbs; depth := 0 |}]).
  rewrite Hres in Hrule. apply Hrule.
  exists 0. simpl. split; [|split; [|split; [|split; [|split]]]].
  - intros n Hn. apply list_elem_of_singleton in Hn as ->. simpl. lia.
  - intros n Hn. by apply elem_of_nil in Hn.
  - constructor.
  - apply NoDup_singleton.
  - constructor.
  - intros m Hm. by apply elem_of_nil in Hm.
Qed.

End LocatorDistinct.

(** X12.  Without symlink following, when no directory lists a
    name twice, no match is reported twice. *)
Theorem findNodeModules_plain_no_duplicates
    (fs : FileSystem) (opts : scanOptions) (rounds : nat) (scheds : list (list nat))
    (rootAbs : path) (st : scan) :
  followSymlinks opts = false →
  (∀ p entries, readdir fs p = Some entries → NoDup (name <$> entries)) →
  findNodeModules fs rounds scheds rootAbs opts = Resolved st →
  NoDup (found st).
Proof. intros Hf Hnames. by apply findNodeModules_plainInv. Qed.

Lemma findNodeModules_plain_no_duplicates_witness :
  NoDup [ ["proj"; "node_modules"]; ["proj"; "a"; "node_modules"];
          ["proj"; "b"; "c"; "node_modules"] ].
Proof.
  apply (findNodeModules_plain_no_duplicates (treeFS mixedTree) plainOptions 4 []
           ["proj"] _ eq_refl (treeFS_names mixedTree eq_refl) mixed_scan).
Defined.

Section SizingFacts.
Variable fs : FileSystem.
Variable followSymlinks : bool.
Variable isInteractive : bool.
Variable rounds : nat.
Variable scheds : path → list (list nat).

Abbreviation sized := (measured fs followSymlinks rounds scheds).
Abbreviation rowTask := (sizeRowTask fs followSymlinks isInteractive rounds scheds).

Lemma measured_settled (found : list path) :
  forallb (λ p, match sized p with Unsettled => false | _ => true end) found = true →
  Forall (λ p, ∃ n, sized p = Resolved n) found.
Proof.
  intros Hall. apply Forall_forall. intros p Hp.
  rewrite forallb_forall in Hall. specialize (Hall p).
  destruct (sized p) as [n| |] eqn:Hm.
  - by exists n.
  - by apply sizeRounds_never_rejects in Hm.
  - discriminate Hall. by apply list_elem_of_In.
Qed.

Lemma sizeRowTask_outcomes (found : list path) sched :
  Forall (λ p, ∃ n, sized p = Resolved n) found →
  Forall2 (λ p r, ∃ n, sized p = Resolved n ∧ r = Value {| nmPath := p; sizeBytes := n |})
          found (runParallel (rowTask <$> found) sched DIR_CONCURRENCY 0).2.
Proof.
  intros Hall.
  assert (∃ rows : list row,
            Forall2 (λ p r, ∃ n, sized p = Resolved n
                                 ∧ r = Value {| nmPath := p; sizeBytes := n |})
                    found rows) as [rows Hrows].
  { induction Hall as [|p found [n Hn] _ [rows IH]]; [by exists []|].
    eexists (_ :: rows). constructor; [|exact IH]. eauto. }
  rewrite (runParallel_outcomes (rowTask <$> found) rows); [done|apply DIR_CONCURRENCY_pos|].
  apply Forall2_fmap_l. eapply Forall2_impl; [exact Hrows|].
  intros p r (n & Hn & ->) s'. unfold sizeRowTask. simpl. fold (sized p). rewrite Hn.
  repeat (constructor; intros).
Qed.

Lemma sizeRowTask_adds (found : list path) i t s :
  Forall (λ p, ∃ n, sized p = Resolved n) found →
  (rowTask <$> found) !! i = Some t →
  ∃ w a, replicate (length found) (if isInteractive then 1 else 0) !! i = Some w ∧
         a ≤ w ∧ id (t s).1 = id s + a ∧ adds id (w - a) (t s).2.
Proof.
  intros Hall Ht. apply list_lookup_fmap_Some in Ht as (p & -> & Hp).
  rewrite Forall_forall in Hall.
  destruct (Hall p) as [n Hn]; [by eapply list_elem_of_lookup_2|].
  set (w := if isInteractive then 1 else 0).
  exists w, 0. split; [|split; [lia|split; [simpl; unfold id; lia|]]].
  - apply lookup_replicate_2. by apply lookup_lt_Some in Hp.
  - rewrite Nat.sub_0_r. unfold sizeRowTask. simpl. fold (sized p). rewrite Hn.
    apply (adds_await id w _ _ (λ _, w)).
    + intros s'. split; [done|]. unfold id, sizeTick, w. destruct isInteractive; lia.
    + intros s'. rewrite Nat.sub_diag. constructor.
Qed.

Lemma sizePhase_resolved sched (found : list path) cnt rows :
  sizePhase fs followSymlinks isInteractive rounds scheds sched found = Resolved (cnt, rows) →
  Forall2 (λ p r, ∃ n, sized p = Resolved n ∧ r = Value {| nmPath := p; sizeBytes := n |})
          found rows ∧
  cnt = (if isInteractive then length found else 0).
Proof.
  unfold sizePhase. destruct (forallb _ found) eqn:Hall; [|done].
  apply measured_settled in Hall.
  pose proof (sizeRowTask_outcomes found sched Hall) as Hrows.
  pose proof (runParallel_adds (rowTask <$> found) id
                (replicate (length found) (if isInteractive then 1 else 0))
                (λ i t s Ht, sizeRowTask_adds found i t s Hall Ht)
                sched DIR_CONCURRENCY 0 DIR_CONCURRENCY_pos) as Hcnt.
  remember (runParallel (rowTask <$> found) sched DIR_CONCURRENCY 0) as run eqn:Hrun.
  intros [= ->]. simpl in *. split; [done|].
  unfold id in Hcnt. rewrite Hcnt by (by rewrite length_replicate, length_fmap).
  rewrite sum_list_replicate. destruct isInteractive; lia.
Qed.

End SizingFacts.

Example mixed_sizes :
  sizePhase (treeFS mixedTree) false true 4 (λ _, []) [0; 1]
    [ ["proj"; "node_modules"]; ["proj"; "a"; "node_modules"];
      ["proj"; "b"; "c"; "node_modules"] ]
  = Resolved
      (3, [ Value {| nmPath := ["proj"; "node_modules"]; sizeBytes := 0 |};
            Value {| nmPath := ["proj"; "a"; "node_modules"]; sizeBytes := 0 |};
            Value {| nmPath := ["proj"; "b"; "c"; "node_modules"]; sizeBytes := 3 |} ]).
Proof. vm_compute. reflexivity. Qed.



Lemma NoDup_omap_lookup {A B : Type} (f : A → option B) (l : list A) i j x y b :
  NoDup (omap f l) → l !! i = Some x → l !! j = Some y →
  f x = Some b → f y = Some b → i = j.
Proof.
  revert i j. induction l as [|a l IH]; intros i j Hnd Hi Hj Hx Hy; [done|].
  assert (∀ k z, l !! k = Some z → f z = Some b → b ∈ omap f l) as Hin.
  { intros k z Hk Hz. apply list_elem_of_omap. exists z.
    split; [by eapply list_elem_of_lookup_2|done]. }
  simpl in Hnd. destruct i as [|i], j as [|j]; simplify_eq/=; [done| | |].
  - rewrite Hx in Hnd. apply NoDup_cons in Hnd as [Hb _]. destruct Hb. eauto.
  - rewrite Hy in Hnd. apply NoDup_cons in Hnd as [Hb _]. destruct Hb. eauto.
  - f_equal. apply IH; [|done..].
    destruct (f a); [by apply NoDup_cons in Hnd as [_ ?]|done].
Qed.

Lemma independent_targets (rows : list row) :
  NoDup (omap targetOf rows) →
  (∀ m1 m2, m1 ∈ omap targetOf rows → m2 ∈ omap targetOf rows →
            m1 `prefix_of` m2 → m1 = m2) →
  independent rows.
Proof.
  intros Hnd Hnest i j v w Hij Hi Hj Hpre. apply Hij.
  assert (nmPath v = nmPath w) as Heq.
  { apply Hnest; [| |done]; apply list_elem_of_omap.
    - exists (Value v). split; [by eapply list_elem_of_lookup_2|done].
    - exists (Value w). split; [by eapply list_elem_of_lookup_2|done]. }
  apply (NoDup_omap_lookup targetOf rows i j (Value v) (Value w) (nmPath v)); try done.
  simpl. by rewrite Heq.
Qed.

Lemma rows_of_matches (found : list path) (rows : list row) (P : path → N → Prop) :
  Forall2 (λ p r, ∃ n, P p n ∧ r = Value {| nmPath := p; sizeBytes := n |}) found rows →
  ∃ vs, rows = Value <$> vs ∧ nmPath <$> vs = found ∧
        Forall (λ v, P (nmPath v) (sizeBytes v)) vs.
Proof.
  induction 1 as [|p r found rows (n & Hn & ->) _ (vs & -> & <- & IH)].
  - by exists [].
  - exists ({| nmPath := p; sizeBytes := n |} :: vs). split; [done|]. split; [done|].
    by constructor.
Qed.

Lemma targetOf_values (vs : list sizeRow) :
  omap targetOf (Value <$> vs : list row) = nmPath <$> vs.
Proof. induction vs as [|v vs IH]; [done|]. rewrite !fmap_cons. simpl. by f_equal. Qed.

Lemma sizePhase_bounded fs followSymlinks isInteractive rounds scheds sched found H :
  (∀ p, H ≤ length p → readdir fs p = None) → H + 1 ≤ rounds →
  ∃ cnt rows,
    sizePhase fs followSymlinks isInteractive rounds scheds sched found
    = Resolved (cnt, rows).
Proof.
  intros Hfs Hr. unfold sizePhase.
  assert (forallb (λ p, match measured fs followSymlinks rounds scheds p with
                        | Unsettled => false
                        | _ => true
                        end) found = true) as ->.
  { apply forallb_forall. intros p _. unfold measured, getDirSizeBytes.
    destruct (sizeRounds_bounded fs followSymlinks H Hfs rounds (length p) (scheds p)
                0%N [p]) as [n ->]; [|lia|done].
    intros q Hq. by apply list_elem_of_singleton in Hq as ->. }
  destruct (runParallel _ _ _ _) as [cnt rows]. by exists cnt, rows.
Qed.

Lemma listed_report fs o tm root st cnt rows :
  findNodeModules fs (scanRounds tm) (scanScheds tm) root
    {| followSymlinks := optFollowSymlinks o; maxDepth := optMaxDepth o |} = Resolved st →
  sizePhase fs (optFollowSymlinks o) (negb (optJson o)) (measureRounds tm)
    (measureScheds tm) (sizeSched tm) (found st) = Resolved (cnt, rows) →
  listed fs o tm root (report rows).1 (report rows).2.
Proof.
  intros Hst Hrows. apply sizePhase_resolved in Hrows as [Hrows _].
  apply (rows_of_matches _ _
           (λ p n, getDirSizeBytes fs (measureRounds tm) (measureScheds tm p) p
                     (optFollowSymlinks o) = Resolved n)) in Hrows
    as (vs & -> & Hfound & Hall).
  exists st, (arraySort (byKeyDesc sizeBytes) vs). unfold report. cbn [fst snd].
  split; [done|]. split; [apply arraySort_values|]. split; [|split; [|split]].
  - by rewrite arraySort_perm, Hfound.
  - by rewrite arraySort_perm.
  - apply arraySort_by_key.
  - rewrite totalBytes_sum, <- list_fmap_compose. apply sumN_perm.
    by rewrite arraySort_perm.
Qed.


Lemma capped_names (H : nat) (root : tree) :
  wellFormed root = true →
  ∀ p entries, readdir (capped H (treeFS root)) p = Some entries →
               NoDup (name <$> entries).
Proof.
  intros Hwf p entries. cbn [readdir capped].
  destruct (decide (length p < H)); [|done]. by apply treeFS_names.
Qed.

Lemma capped_bounded (H : nat) (fs : FileSystem) :
  ∀ p, H ≤ length p → readdir (capped H fs) p = None.
Proof. intros p Hp. cbn [readdir capped]. destruct (decide (length p < H)); [lia|done]. Qed.

